(** * MinecraftLevelExporter: the two converters, embedded and verified

    The repository holds two Go programs with the same shape.  The
    _dense_ converter reads a nested [[][][]int], checks it with
    [validateArray], pads it with [padArray] and cuts it into 16x16x16
    sections with [convertToSections].  The _structure_ converter reads a
    paletted structure file, checks it with [validateInput], and resolves
    and cuts it with its own [convertToSections].

    Conventions of the embedding:
    - a Go slice is a [list]; an index or slice expression that Go would
      reject with a run-time panic makes the enclosing function return
      [None];
    - a block id (Go [int] that is only stored and copied) is a [Z];
    - in the dense converter every integer the code computes is a length
      or an index of an allocated slice, so it is a [nat];
    - in the structure converter the sizes come from the input file and
      are multiplied together, so Go's 64-bit [int] arithmetic is written
      out with its wrap-around ([Int64.wrap]); the build matrix of the
      repository targets amd64 and arm64 only ([Int64.Arch]), which
      differ in the conversion [int(f)] of a float64 beyond the range of
      [int] ([Int64.ofFloat]);
    - calls to the logger print progress and do not touch the data; they
      are left out. *)

From Stdlib Require Import ZifyNat.
From stdpp Require Import base numbers option list list_numbers strings gmap.

Local Open Scope Z_scope.

(** ** Go's [int] on the 64-bit targets *)

Module Int64.

Definition min_int : Z := - 2 ^ 63.
Definition max_int : Z := 2 ^ 63 - 1.

(** Two's complement reduction of an exact result into [min_int..max_int]. *)
Definition wrap (z : Z) : Z := (z + 2 ^ 63) `mod` 2 ^ 64 - 2 ^ 63.

Definition add (a b : Z) : Z := wrap (a + b).
Definition mul (a b : Z) : Z := wrap (a * b).
(** Go's [/] truncates toward zero. *)
Definition div (a b : Z) : Z := wrap (a `quot` b).

Definition in_range (z : Z) : Prop := min_int ≤ z ≤ max_int.

(** The architectures of the build matrix ([GOARCH: [amd64, arm64]]). *)
Inductive Arch : Type := amd64 | arm64.

(** [int(f)] for a float64 [f] that holds an integer, [f] being given by
    that integer.  Inside the range of [int] the result is [f].  Outside,
    the Go specification leaves the result to the implementation: the
    amd64 instruction (CVTTSD2SQ) returns [min_int] for every such [f],
    the arm64 instruction (FCVTZS) returns the end of the range on the
    side of [f]. *)
Definition ofFloat (arch : Arch) (f : Z) : Z :=
  if decide (min_int ≤ f ≤ max_int) then f
  else match arch with
       | amd64 => min_int
       | arm64 => if decide (f < 0) then min_int else max_int
       end.

End Int64.

Infix "+i" := Int64.add (at level 50, left associativity) : Z_scope.
Infix "*i" := Int64.mul (at level 40, left associativity) : Z_scope.
Infix "/i" := Int64.div (at level 40, left associativity) : Z_scope.

(** ** Loops and slices shared by both converters *)

(** [for _, x := range l { s = body x s }], where the body may panic. *)
Fixpoint forEach {A S : Type} (body : A → S → option S) (l : list A) (s : S)
    : option S :=
  match l with
  | [] => Some s
  | x :: l' => s' ← body x s; forEach body l' s'
  end.

(** [l[i] = v] on a slice: a panic when [i] is out of range. *)
Definition store {A : Type} (l : list A) (i : nat) (v : A) : option (list A) :=
  if decide (i < length l)%nat then Some (<[i := v]> l) else None.

(** [l[z]] for a Go [int] index: a panic when negative or too large. *)
Definition index {A : Type} (l : list A) (z : Z) : option A :=
  if decide (z < 0) then None else l !! Z.to_nat z.

(** [len(l)] as a Go [int]. *)
Definition len {A : Type} (l : list A) : Z := Z.of_nat (length l).

(** The builtin [copy(dst, src)]: the first [min(len(dst), len(src))]
    elements of [src] overwrite those of [dst]; the result is [dst]
    afterwards. *)
Definition copy {A : Type} (dst src : list A) : list A :=
  take (length dst) src ++ drop (length src) dst.

(** The slice expression [l[lo:hi]] (the slices sliced here are made with
    capacity equal to length). *)
Definition slice {A : Type} (l : list A) (lo hi : nat) : option (list A) :=
  if decide (lo ≤ hi ∧ hi ≤ length l)%nat
  then Some (take (hi - lo) (drop lo l)) else None.

(** How a run of [main] ends once the input file is parsed: the validation
    rejects the input, a later step panics, or the sections are handed to
    the serialiser. *)
Inductive Outcome (A : Type) : Type :=
  | Rejected
  | Panicked
  | Converted (sections : A).
Arguments Rejected {A}.
Arguments Panicked {A}.
Arguments Converted {A} sections.

(** A three-level nested slice [[][][]int] and one of its cells. *)
Abbreviation Volume := (list (list (list Z))).

Definition cell (V : Volume) (i j k : nat) : option Z :=
  row ← V !! i; leaf ← row !! j; leaf !! k.

(** [V] is a full box of extents [X], [Y], [Z']. *)
Definition rectangular (V : Volume) (X Y Z' : nat) : Prop :=
  length V = X ∧
  Forall (λ row, length row = Y ∧ Forall (λ leaf : list Z, length leaf = Z') row) V.

(** ** The dense converter *)

Module Dense.

Local Open Scope nat_scope.

(** Section (the name is a keyword here); the fields [X], [Y], [Z] of the
    Go struct are [SecX], [SecY], [SecZ]. *)
Record Section_ : Type := mkSection {
  SecX : Z;
  SecY : Z;
  SecZ : Z;
  Blocks : Volume
}.

(** The zero value of the struct, with which [make([]Section, n)] fills. *)
Definition zeroSection : Section_ := mkSection 0%Z 0%Z 0%Z [].

(** func validateArray(inputArray [][][]int) bool *)
Definition validateArray (inputArray : Volume) : bool :=
  forallb (λ i, bool_decide (length (inputArray !!! i) = length (inputArray !!! (i + 1))))
          (seq 0 (length inputArray - 1))
  &&
  forallb (λ yArray : list (list Z),
             forallb (λ i, bool_decide (length (yArray !!! i) = length (yArray !!! (i + 1))))
                     (seq 0 (length yArray - 1)))
          inputArray.

(** func padArray(inputArray [][][]int, paddingValue int) [][][]int *)
Definition padArray (inputArray : Volume) (paddingValue : Z) : option Volume :=
  let xSize := (length inputArray + 15) / 16 * 16 in
  row0 ← inputArray !! 0;
  let ySize := (length row0 + 15) / 16 * 16 in
  leaf0 ← row0 !! 0;
  let zSize := (length leaf0 + 15) / 16 * 16 in
  (* the allocation loops: every leaf is made and filled with the padding *)
  let paddedArray := replicate xSize (replicate ySize (replicate zSize paddingValue)) in
  forEach (λ i paddedArray,
      row ← inputArray !! i;
      forEach (λ j paddedArray,
          prow ← paddedArray !! i;
          dst ← prow !! j;
          src ← row !! j;
          Some (<[i := <[j := copy dst src]> prow]> paddedArray))
        (seq 0 (length row)) paddedArray)
    (seq 0 (length inputArray)) paddedArray.

(** The [blocks] array built for the section at grid position (i, j, k). *)
Definition sectionBlocks (inputArray : Volume) (i j k : nat) : option Volume :=
  mapM (λ l,
      mapM (λ m,
          row ← inputArray !! (i * 16 + l);
          leaf ← row !! (j * 16 + m);
          src ← slice leaf (k * 16) ((k + 1) * 16);
          Some (copy (replicate 16 0%Z) src))
        (seq 0 16))
    (seq 0 16).

(** func convertToSections(inputArray [][][]int) []Section *)
Definition convertToSections (inputArray : Volume) : option (list Section_) :=
  let xSections := length inputArray / 16 in
  row0 ← inputArray !! 0;
  let ySections := length row0 / 16 in
  leaf0 ← row0 !! 0;
  let zSections := length leaf0 / 16 in
  let sections := replicate (xSections * ySections * zSections) zeroSection in
  forEach (λ i sections,
      forEach (λ k sections,
          forEach (λ j sections,
              blocks ← sectionBlocks inputArray i j k;
              store sections (i * ySections * zSections + j * zSections + k)
                (mkSection (Z.of_nat (i * 16)) (Z.of_nat (j * 16)) (Z.of_nat (k * 16)) blocks))
            (seq 0 ySections) sections)
        (seq 0 zSections) sections)
    (seq 0 xSections) sections.

(** The part of [main] between parsing and serialisation. *)
Definition pipeline (inputArray : Volume) : Outcome (list Section_) :=
  if validateArray inputArray
  then match padArray inputArray (-1)%Z ≫= convertToSections with
       | Some sections => Converted sections
       | None => Panicked
       end
  else Rejected.

End Dense.

(** ** The structure converter *)

Module Structure.

(** Section (the name is a keyword here); [Blocks] is flat in this tool. *)
Record Section_ : Type := mkSection {
  SecX : Z;
  SecY : Z;
  SecZ : Z;
  Blocks : list Z
}.

(** type Size struct { X, Y, Z int } *)
Record Size : Type := mkSize {
  SizeX : Z;
  SizeY : Z;
  SizeZ : Z
}.

(** What the functions read of the decoded [inputMap]: [inputMap["size"]],
    [inputMap["structure"]["block_indices"]] and the [name] fields of
    [inputMap["structure"]["palette"]["default"]["block_palette"]].
    A JSON number is decoded to a float64 that holds an integer (the
    schema asks for integers); it is represented by that integer.  The
    functions read it through [int(e.(float64))]:
    - [validateInput] compares the converted indices, so its loop runs
      over [Int64.ofFloat];
    - the palette lookup of [convertToSections] fails on an index beyond
      the range of [int] whether it is converted or not, a palette being
      shorter than 2^63, so [resolveBlocks] looks the index itself up;
    - [main] calls [convertToSections] only after [validateInput] has
      found the product of the sizes equal to a slice length, which keeps
      each size (at least 1 by the schema) inside the range of [int],
      where the conversion changes nothing. *)
Record Input : Type := mkInput {
  size : list Z;
  block_indices : list (list Z);
  block_palette : list string
}.

(** The constraints of [inputJsonSchema] on those three parts. *)
Definition schemaValid (inp : Input) : Prop :=
  length (size inp) = 3%nat ∧
  Forall (λ s, 1 ≤ s) (size inp) ∧
  (1 ≤ length (block_indices inp))%nat ∧
  Forall (λ indices : list Z, (1 ≤ length indices)%nat) (block_indices inp) ∧
  (1 ≤ length (block_palette inp))%nat.

#[global] Instance schemaValid_dec inp : Decision (schemaValid inp).
Proof. unfold schemaValid. apply _. Defined.

Definition DefaultBlockId : Z := 0.
Definition OutOfRangeBlockId : Z := -1.

(** The loop of [validateInput] that finds the largest index, started at
    0; [blocks] holds the values [num := int(e.(float64))]. *)
Definition maxIndex (blocks : list Z) : Z :=
  foldl (λ expectedBlockTypeCount num,
           if decide (num > expectedBlockTypeCount) then num
           else expectedBlockTypeCount)
        0 blocks.

(** func validateInput(inputMap map[string]interface{}) bool

    [expectedBlockCount] is a product of float64 values in the source,
    converted to [int].  It is exact below 2^53; above, the rounded
    product stays at or above 2^53, and so does its conversion unless it
    is [min_int] (beyond the range of [int]); no slice has such a length,
    so for sizes of at least 1 the comparison with [blockCount] has the
    outcome it has for the exact product.  The indices are converted one
    by one in the loop, [num := int(e.(float64))]. *)
Definition validateInput (arch : Int64.Arch) (inp : Input) : option bool :=
  s0 ← size inp !! 0%nat;
  s1 ← size inp !! 1%nat;
  s2 ← size inp !! 2%nat;
  let expectedBlockCount := s0 * s1 * s2 in
  blocks ← block_indices inp !! 0%nat;
  let blockCount := len blocks in
  if decide (blockCount ≠ expectedBlockCount) then Some false
  else
    let expectedBlockTypeCount := maxIndex (Int64.ofFloat arch <$> blocks) +i 1 in
    let blockTypeCount := len (block_palette inp) in
    if decide (blockTypeCount ≠ expectedBlockTypeCount) then Some false
    else Some true.

(** The loop that turns block indices into block ids. *)
Definition resolveBlocks (blockIndiceDict : list string) (blockDict : gmap string Z)
    (defaultBlockId : Z) (rawBlocks : list Z) : option (list Z) :=
  mapM (λ blockIndice,
      blockName ← index blockIndiceDict blockIndice;
      Some (match blockDict !! blockName with
            | Some blockId => blockId
            | None => defaultBlockId
            end))
    rawBlocks.

(** [offset := x*16*size.X*size.Y + y*16*size.X + z*16] *)
Definition sectionOffset (size : Size) (x y z : Z) : Z :=
  x *i 16 *i SizeX size *i SizeY size +i y *i 16 *i SizeX size +i z *i 16.

(** The body of the loop over [i]: one entry of [sectionBlocks]. *)
Definition sectionCell (blocks : list Z) (outOfRangeBlockId offset i : Z) : option Z :=
  if decide (len blocks ≤ i +i offset) then Some outOfRangeBlockId
  else index blocks (i +i offset).

Definition sectionBlocks (blocks : list Z) (outOfRangeBlockId offset : Z)
    : option (list Z) :=
  mapM (sectionCell blocks outOfRangeBlockId offset) (seqZ 0 4096).

(** func convertToSections(inputMap map[string]interface{},
      blockDict map[string]int, defaultBlockId int, outOfRangeBlockId int) []Section *)
Definition convertToSections (inp : Input) (blockDict : gmap string Z)
    (defaultBlockId outOfRangeBlockId : Z) : option (list Section_) :=
  s0 ← size inp !! 0%nat;
  s1 ← size inp !! 1%nat;
  s2 ← size inp !! 2%nat;
  let size := mkSize s0 s1 s2 in
  rawBlocks ← block_indices inp !! 0%nat;
  let blockIndiceDict := block_palette inp in
  blocks ← resolveBlocks blockIndiceDict blockDict defaultBlockId rawBlocks;
  let sectionCount :=
    mkSize ((SizeX size +i 15) /i 16) ((SizeY size +i 15) /i 16)
           ((SizeZ size +i 15) /i 16) in
  forEach (λ x sections,
      forEach (λ y sections,
          forEach (λ z sections,
              let offset := sectionOffset size x y z in
              sectionBlocks ← sectionBlocks blocks outOfRangeBlockId offset;
              let section := mkSection (x *i 16) (y *i 16) (z *i 16) sectionBlocks in
              Some (sections ++ [section]))
            (seqZ 0 (SizeZ sectionCount)) sections)
        (seqZ 0 (SizeY sectionCount)) sections)
    (seqZ 0 (SizeX sectionCount)) [].

(** The part of [main] between parsing and serialisation. *)
Definition pipeline (arch : Int64.Arch) (inp : Input) (blockDict : gmap string Z)
    : Outcome (list Section_) :=
  match validateInput arch inp with
  | None => Panicked
  | Some false => Rejected
  | Some true =>
      match convertToSections inp blockDict DefaultBlockId OutOfRangeBlockId with
      | Some sections => Converted sections
      | None => Panicked
      end
  end.

End Structure.

(** * Vocabulary of the properties *)

(** ** For the dense converter *)

Module DenseSpec.
Import Dense.
Local Open Scope nat_scope.

(** State of [paddedArray] when the copy loops of [padArray] stand at row
    [i], leaf [m], for an input [V] of extents [X], [Y], [Z']. *)
Definition copied (V : Volume) (pad : Z) (X Y Z' : nat) (i m : nat) (st : Volume) : Prop :=
  rectangular st ((X + 15) / 16 * 16) ((Y + 15) / 16 * 16) ((Z' + 15) / 16 * 16) ∧
  ∀ i' j' k', i' < (X + 15) / 16 * 16 → j' < (Y + 15) / 16 * 16 → k' < (Z' + 15) / 16 * 16 →
    cell st i' j' k' =
    Some (if decide (i' < i ∨ (i' = i ∧ j' < m))
          then default pad (cell V i' j' k') else pad).

(** Position of grid cell (i, j, k) in the output of a grid with [b] by [c]
    cells in the last two directions. *)
Definition gridIndex (b c i j k : nat) : nat := i * b * c + j * c + k.

(** The section record the converter writes for grid cell (i, j, k). *)
Definition isSection (P : Volume) (i j k : nat) (s : Section_) : Prop :=
  SecX s = Z.of_nat (i * 16) ∧ SecY s = Z.of_nat (j * 16) ∧
  SecZ s = Z.of_nat (k * 16) ∧ sectionBlocks P i j k = Some (Blocks s).

(** State of [sections] when the loops of [convertToSections] stand at
    [i], [k], [j] (in the nesting order of the source: x outermost, then
    z, then y), for an input [P] of extents [X], [Y], [Z']. *)
Definition filled (P : Volume) (X Y Z' : nat) (i k j : nat) (st : list Section_) : Prop :=
  length st = X / 16 * (Y / 16) * (Z' / 16) ∧
  ∀ i' j' k', i' < X / 16 → j' < Y / 16 → k' < Z' / 16 →
    i' < i ∨ (i' = i ∧ (k' < k ∨ (k' = k ∧ j' < j))) →
    ∃ s, st !! gridIndex (Y / 16) (Z' / 16) i' j' k' = Some s ∧ isSection P i' j' k' s.

(** The section [s] is the cube that contains the absolute position (x, y, z). *)
Definition covers (s : Section_) (x y z : nat) : Prop :=
  (SecX s ≤ Z.of_nat x < SecX s + 16 ∧
   SecY s ≤ Z.of_nat y < SecY s + 16 ∧
   SecZ s ≤ Z.of_nat z < SecZ s + 16)%Z.

(** What the two loops of [validateArray] establish: all first-level rows
    have one length, and inside each row all leaves have one length. *)
Definition sameLength {A : Type} (l : list (list A)) : Prop :=
  ∀ i j x y, l !! i = Some x → l !! j = Some y → length x = length y.

(** The leaf array [V[i][j]]. *)
Definition leafAt (V : Volume) (i j : nat) : option (list Z) :=
  row ← V !! i; row !! j.

(** Two rows of one leaf each; the leaves have lengths 1 and 2. *)
Definition raggedVolume : Volume := [[[1%Z]]; [[1%Z; 2%Z]]].

#[global] Instance rectangular_dec (V : Volume) (X Y Z' : nat) :
  Decision (rectangular V X Y Z').
Proof. unfold rectangular. apply _. Defined.

(** A 2x1x3 volume, and a 32x16x16 volume whose cells are all different. *)
Definition smallVolume : Volume := [[[1; 2; 3]]; [[4; 5; 6]]]%Z.

Definition numberedVolume : Volume :=
  (λ i, (λ j, (λ k, Z.of_nat (i * 256 + j * 16 + k)) <$> seq 0 16) <$> seq 0 16)
    <$> seq 0 32.

End DenseSpec.

(** ** For the structure converter *)

Module StructureSpec.
Import Structure.

(** The value of the offset expression in unbounded arithmetic. *)
Definition exactOffset (size : Size) (x y z : Z) : Z :=
  x * 16 * SizeX size * SizeY size + y * 16 * SizeX size + z * 16.

(** The section counts [(size + 15) / 16] in unbounded arithmetic. *)
Definition exactCount (n : Z) : Z := (n + 15) `quot` 16.

(** The offsets of the whole section grid, up to the last cell of the
    last section, are representable as a Go [int]. *)
Definition offsetsFit (size : Size) : Prop :=
  exactOffset size (exactCount (SizeX size) - 1) (exactCount (SizeY size) - 1)
                   (exactCount (SizeZ size) - 1) + 4095 ≤ Int64.max_int.

#[global] Instance offsetsFit_dec size : Decision (offsetsFit size).
Proof. unfold offsetsFit. apply _. Defined.

(** What one emitted [sectionBlocks] array holds, relative to the exact
    base offset [base]: the out-of-range id from the end of the buffer on,
    the buffer entry before. *)
Definition windowOf (blocks : list Z) (outOfRangeBlockId base : Z) (sectionBlocks : list Z)
    : Prop :=
  length sectionBlocks = 4096%nat ∧
  ∀ i, 0 ≤ i < 4096 →
    (len blocks ≤ base + i → sectionBlocks !! Z.to_nat i = Some outOfRangeBlockId) ∧
    (base + i < len blocks →
       0 ≤ base + i ∧ is_Some (blocks !! Z.to_nat (base + i)) ∧
       sectionBlocks !! Z.to_nat i = blocks !! Z.to_nat (base + i)).

(** Position of grid cell (x, y, z) in a list built by appending in the
    order of three nested loops over x, y, z. *)
Definition scanIndex (cY cZ x y z : Z) : Z := (x * cY + y) * cZ + z.

(** The section record the converter appends for grid cell (x, y, z) of an
    input of size [s0], [s1], [s2] with resolved buffer [blocks]. *)
Definition isSection (outOfRangeBlockId s0 s1 s2 : Z) (blocks : list Z)
    (x y z : Z) (s : Section_) : Prop :=
  SecX s = x * 16 ∧ SecY s = y * 16 ∧ SecZ s = z * 16 ∧
  windowOf blocks outOfRangeBlockId (exactOffset (mkSize s0 s1 s2) x y z) (Blocks s).

(** State of [sections] when [n] sections have been appended. *)
Definition appended (outOfRangeBlockId s0 s1 s2 : Z) (blocks : list Z)
    (n : Z) (st : list Section_) : Prop :=
  length st = Z.to_nat n ∧
  ∀ x y z, 0 ≤ x < exactCount s0 → 0 ≤ y < exactCount s1 → 0 ≤ z < exactCount s2 →
    scanIndex (exactCount s1) (exactCount s2) x y z < n →
    ∃ s, st !! Z.to_nat (scanIndex (exactCount s1) (exactCount s2) x y z) = Some s ∧
         isSection outOfRangeBlockId s0 s1 s2 blocks x y z s.

(** The flattening the specification calls conventional:
    [index = (x*sizeY + y)*sizeZ + z], at the origin of section (x, y, z). *)
Definition rowMajorIndex (size : Size) (x y z : Z) : Z :=
  ((x * 16) * SizeY size + y * 16) * SizeZ size + z * 16.

(** [m] is the largest entry of [l]. *)
Definition isMaximum (m : Z) (l : list Z) : Prop := m ∈ l ∧ ∀ v, v ∈ l → v ≤ m.

(** The worked example of the specification: size 2x2x2, two palette
    names; and a palette with a name the dictionary does not have. *)
Definition exampleInput : Input :=
  mkInput [2; 2; 2] [[0; 1; 0; 1; 0; 1; 0; 1]]
          ["minecraft:stone"; "minecraft:dirt"]%string.

Definition exampleDict : gmap string Z :=
  <["minecraft:stone"%string := 1]> (<["minecraft:dirt"%string := 3]> ∅).

Definition examplePalette : list string :=
  ["minecraft:stone"; "minecraft:dirt"; "minecraft:unknown"]%string.

End StructureSpec.

(** ** The two [main] functions *)

(** [main] reads its arguments and files, validates, converts and writes.
    The steps that live outside the repository are parameters of the
    embedding: reading a file ([os.ReadFile]), checking a document against
    a schema ([gojsonschema.Validate], [None] for its error result),
    decoding ([json.Unmarshal]), encoding ([json.Marshal]) and writing
    ([os.WriteFile], [false] for its error result).  What is printed is
    represented by the kind of failure alone. *)
Module Cli.

(** strings.HasSuffix: [len(s) >= len(suffix) && s[len(s)-len(suffix):] == suffix] *)
Definition hasSuffix (s suffix : string) : bool :=
  bool_decide (String.length suffix ≤ String.length s)%nat &&
  String.eqb (String.substring (String.length s - String.length suffix) (String.length suffix) s)
             suffix.

(** strings.TrimSuffix: [s] without the suffix when it has it, else [s]. *)
Definition trimSuffix (s suffix : string) : string :=
  if hasSuffix s suffix
  then String.substring 0 (String.length s - String.length suffix) s
  else s.

(** The error messages of the two programs, in the order of the source. *)
Inductive Failure : Type :=
  | NoInputFile          (* "no input file specified" / "no input file or dictionary specified" *)
  | TooManyArguments     (* "too many arguments" *)
  | NotJsonFile          (* "input file must be a json file" / "... must be JSON files" *)
  | ReadInputFailed      (* "failed to read input file: ..." *)
  | ValidateInputFailed  (* "failed to validate input file: ..." *)
  | InputFileInvalid     (* "input file is not valid" *)
  | ParseInputFailed     (* "failed to parse input file: ..." *)
  | ReadDictFailed       (* "failed to read block dictionary: ..." *)
  | ValidateDictFailed   (* "failed to validate block dictionary: ..." *)
  | DictInvalid          (* "block dictionary is not valid" *)
  | ParseDictFailed      (* "failed to parse block dictionary: ..." *)
  | InputNotValid        (* "input array is not valid" / "input map is not valid" *)
  | MarshalFailed        (* "failed to convert level data to json: ..." *)
  | WriteFailed.         (* "failed to write level data to file: ..." *)

(** How [main] ends: with an error message, with a run-time panic, or
    after writing [content] to [fileName]. *)
Inductive Exit (Bytes : Type) : Type :=
  | Failed (failure : Failure)
  | Crashed
  | Wrote (fileName : string) (content : Bytes).
Arguments Failed {Bytes} failure.
Arguments Crashed {Bytes}.
Arguments Wrote {Bytes} fileName content.

(** The map [levelData] that is serialised. *)
Record LevelData (S : Type) : Type := mkLevelData {
  ldType : string;
  ldSections : list S;
  ldEntities : list ();
  ldPlayers : list ()
}.
Arguments mkLevelData {S} ldType ldSections ldEntities ldPlayers.
Arguments ldType {S}.
Arguments ldSections {S}.
Arguments ldEntities {S}.
Arguments ldPlayers {S}.

Definition levelData {S : Type} (sections : list S) : LevelData S :=
  mkLevelData "level_data" sections [] [].

Section programs.
Context {Bytes : Type}.
Variable readFile : string → option Bytes.
Variable writeFile : string → Bytes → bool.
(** The architecture the program was built for. *)
Variable arch : Int64.Arch.

(** func main() of the dense converter.  The usage line of the two
    argument errors prints [os.Args[0]], which panics on an empty
    argument vector. *)
Definition denseMain
    (validate : Bytes → option bool)
    (unmarshal : Bytes → option Volume)
    (marshal : LevelData Dense.Section_ → option Bytes)
    (args : list string) : Exit Bytes :=
  if decide (length args < 2)%nat then
    match args !! 0%nat with Some _ => Failed NoInputFile | None => Crashed end
  else if decide (2 < length args)%nat then
    match args !! 0%nat with Some _ => Failed TooManyArguments | None => Crashed end
  else
    match args !! 1%nat with
    | None => Crashed
    | Some input =>
      if negb (hasSuffix input ".json") then Failed NotJsonFile
      else
        match readFile input with
        | None => Failed ReadInputFailed
        | Some jsonContent =>
          match validate jsonContent with
          | None => Failed ValidateInputFailed
          | Some false => Failed InputFileInvalid
          | Some true =>
            match unmarshal jsonContent with
            | None => Failed ParseInputFailed
            | Some inputArray =>
              match Dense.pipeline inputArray with
              | Rejected => Failed InputNotValid
              | Panicked => Crashed
              | Converted sections =>
                match marshal (levelData sections) with
                | None => Failed MarshalFailed
                | Some levelDataJson =>
                  let fileName := (trimSuffix input ".json" +:+ ".level.json")%string in
                  if writeFile fileName levelDataJson
                  then Wrote fileName levelDataJson
                  else Failed WriteFailed
                end
              end
            end
          end
        end
    end.

(** func main() of the structure converter. *)
Definition structureMain
    (validateInputFile : Bytes → option bool)
    (unmarshalInput : Bytes → option Structure.Input)
    (validateDict : Bytes → option bool)
    (unmarshalDict : Bytes → option (gmap string Z))
    (marshal : LevelData Structure.Section_ → option Bytes)
    (args : list string) : Exit Bytes :=
  if decide (length args < 3)%nat then
    match args !! 0%nat with Some _ => Failed NoInputFile | None => Crashed end
  else if decide (3 < length args)%nat then
    match args !! 0%nat with Some _ => Failed TooManyArguments | None => Crashed end
  else
    match args !! 1%nat, args !! 2%nat with
    | Some input, Some dictionary =>
      if negb (hasSuffix input ".json") || negb (hasSuffix dictionary ".json")
      then Failed NotJsonFile
      else
        match readFile input with
        | None => Failed ReadInputFailed
        | Some jsonContent =>
          match validateInputFile jsonContent with
          | None => Failed ValidateInputFailed
          | Some false => Failed InputFileInvalid
          | Some true =>
            match unmarshalInput jsonContent with
            | None => Failed ParseInputFailed
            | Some inputMap =>
              match readFile dictionary with
              | None => Failed ReadDictFailed
              | Some dictContent =>
                match validateDict dictContent with
                | None => Failed ValidateDictFailed
                | Some false => Failed DictInvalid
                | Some true =>
                  match unmarshalDict dictContent with
                  | None => Failed ParseDictFailed
                  | Some blockDict =>
                    match Structure.pipeline arch inputMap blockDict with
                    | Rejected => Failed InputNotValid
                    | Panicked => Crashed
                    | Converted sections =>
                      match marshal (levelData sections) with
                      | None => Failed MarshalFailed
                      | Some levelDataJson =>
                        let fileName :=
                          (trimSuffix input ".json" +:+ ".level.json")%string in
                        if writeFile fileName levelDataJson
                        then Wrote fileName levelDataJson
                        else Failed WriteFailed
                      end
                    end
                  end
                end
              end
            end
          end
        end
    | _, _ => Crashed
    end.
End programs.

End Cli.

(** ** The export command of the in-game plugin *)

(** The callback of the [export] command fills a nested JavaScript array
    with the ids of the blocks between two positions and writes it as
    JSON.  The host functions are parameters: [mc.getBlock] (a block id,
    or [None] for [null]) and [File.writeTo].  Lines that only log or
    read the clock are left out. *)
Module Exporter.

(** The fields of an [IntPos] that the callback reads. *)
Record IntPos : Type := mkPos {
  posX : Z;
  posY : Z;
  posZ : Z;
  dim : string;
  dimid : Z
}.

(** The messages passed to [output.error]. *)
Inductive ExportError : Type :=
  | StartNull                    (* 'Start position is null' *)
  | EndNull                      (* 'End position is null' *)
  | DimensionsDiffer             (* 'Start and end positions must be in the same dimension' *)
  | StartAfterEnd                (* 'Start position must be less than end position' *)
  | BlockNull (x y z : Z)        (* `Block at ${x}, ${y}, ${z} is null` *)
  | WriteFailed.                 (* 'Failed to write to plugins/level_exporter/level_data.json' *)

(** How the callback ends: it returns [output.success] after writing the
    array, it returns [output.error], or a TypeError escapes from it. *)
Inductive Js (A : Type) : Type :=
  | Done (a : A)
  | Stopped (e : ExportError)
  | Threw.
Arguments Done {A} a.
Arguments Stopped {A} e.
Arguments Threw {A}.

(** A JavaScript array of numbers; [None] is a hole, which an assignment
    beyond the end leaves behind and [JSON.stringify] prints as [null]. *)
Abbreviation JsLeaf := (list (option Z)).
Abbreviation JsVolume := (list (list JsLeaf)).

(** [a[i]] for an integer [i]: [undefined] ([None]) outside [0..length). *)
Definition jsGet {A : Type} (a : list A) (i : Z) : option A :=
  if decide (i < 0) then None else a !! Z.to_nat i.

(** [leaf[z] = v]: inside the array the element is replaced; beyond its
    end the array grows, with holes in between; a negative [z] names a
    property that is no element, and the elements stay as they are. *)
Definition jsSet (leaf : JsLeaf) (z : Z) (v : Z) : JsLeaf :=
  if decide (z < 0) then leaf
  else if decide (z < len leaf) then <[Z.to_nat z := Some v]> leaf
  else leaf ++ replicate (Z.to_nat z - length leaf) None ++ [Some v].

(** [blocks[x][y][z] = id]: reading [y] of an undefined [blocks[x]], or
    setting [z] of an undefined [blocks[x][y]], throws a TypeError. *)
Definition setBlock (blocks : JsVolume) (x y z id : Z) : Js JsVolume :=
  match jsGet blocks x with
  | None => Threw
  | Some row =>
    match jsGet row y with
    | None => Threw
    | Some leaf =>
      Done (<[Z.to_nat x := <[Z.to_nat y := jsSet leaf z id]> row]> blocks)
    end
  end.

(** A [for] loop whose body may return from the callback or throw. *)
Fixpoint forEachJs {A S : Type} (body : A → S → Js S) (l : list A) (s : S) : Js S :=
  match l with
  | [] => Done s
  | x :: l' =>
    match body x s with
    | Done s' => forEachJs body l' s'
    | Stopped e => Stopped e
    | Threw => Threw
    end
  end.

(** The three nested loops that fill the array. *)
Definition fillBlocks (getBlock : Z → Z → Z → Z → option Z) (startPos endPos : IntPos)
    (blocks : JsVolume) : Js JsVolume :=
  forEachJs (λ x blocks,
      forEachJs (λ y blocks,
          forEachJs (λ z blocks,
              match getBlock x y z (dimid startPos) with
              | None => Stopped (BlockNull x y z)
              | Some id => setBlock blocks x y z id
              end)
            (seqZ (posZ startPos) (posZ endPos - posZ startPos)) blocks)
        (seqZ (posY startPos) (posY endPos - posY startPos)) blocks)
    (seqZ (posX startPos) (posX endPos - posX startPos)) blocks.

(** The callback given to [cmd.setCallback]; on success the value is the
    array that was serialised. *)
Definition exportRegion (getBlock : Z → Z → Z → Z → option Z)
    (writeTo : JsVolume → bool) (start end_ : option IntPos) : Js JsVolume :=
  match start, end_ with
  | None, _ => Stopped StartNull
  | Some _, None => Stopped EndNull
  | Some startPos, Some endPos =>
    if decide (dim startPos ≠ dim endPos) then Stopped DimensionsDiffer
    else if decide (posX startPos > posX endPos ∨ posY startPos > posY endPos ∨
                    posZ startPos > posZ endPos) then Stopped StartAfterEnd
    else
      let blocks :=
        replicate (Z.to_nat (posX endPos - posX startPos))
          (replicate (Z.to_nat (posY endPos - posY startPos))
             (replicate (Z.to_nat (posZ endPos - posZ startPos)) (Some 0))) in
      match fillBlocks getBlock startPos endPos blocks with
      | Done blocks => if writeTo blocks then Done blocks else Stopped WriteFailed
      | Stopped e => Stopped e
      | Threw => Threw
      end
  end.

(** The array of the ids of the blocks from the origin up to [endPos]. *)
Definition regionIds (getId : Z → Z → Z → Z) (endPos : IntPos) : JsVolume :=
  (λ x, (λ y, (λ z, Some (getId x y z)) <$> seqZ 0 (posZ endPos))
          <$> seqZ 0 (posY endPos))
    <$> seqZ 0 (posX endPos).

(** Every first-level row of [blocks] has [ny] leaves, and there are [nx]. *)
Definition rowsShape (nx ny : nat) (blocks : JsVolume) : Prop :=
  length blocks = nx ∧ Forall (λ row, length row = ny) blocks.

(** The array when the loops over a region that starts at the origin
    stand at [x0], [y0], [z0]: ids at the positions passed, the initial 0
    elsewhere. *)
Definition filledTo (getId : Z → Z → Z → Z) (endPos : IntPos) (x0 y0 z0 : Z) : JsVolume :=
  (λ x, (λ y, (λ z, if decide (x < x0 ∨ (x = x0 ∧ (y < y0 ∨ (y = y0 ∧ z < z0))))
                    then Some (getId x y z) else Some 0)
                <$> seqZ 0 (posZ endPos))
          <$> seqZ 0 (posY endPos))
    <$> seqZ 0 (posX endPos).

(** A loop step leaves the two outer levels of the array as they are, or
    throws. *)
Definition shapeOrThrew (nx ny : nat) (r : Js JsVolume) : Prop :=
  r = Threw ∨ ∃ st, r = Done st ∧ rowsShape nx ny st.




(** The array before the loops: [end - start] entries per axis, all 0. *)
Definition initialBlocks (startPos endPos : IntPos) : JsVolume :=
  replicate (Z.to_nat (posX endPos - posX startPos))
    (replicate (Z.to_nat (posY endPos - posY startPos))
       (replicate (Z.to_nat (posZ endPos - posZ startPos)) (Some 0))).

End Exporter.

(** * Properties *)

(** [lia] after the quotients and remainders are replaced by their
    defining equations. *)
Ltac divlia := zify; Z.to_euclidean_division_equations; lia.

(** ** Loops, [copy], cells *)

(** Invariant rule for a counting loop [for i := a; i < a + n; i++]. *)
Lemma forEach_seq_inv {S : Type} (I : nat → S → Prop) (body : nat → S → option S)
    (a n : nat) (s : S) :
  I a s →
  (∀ i t, (a ≤ i < a + n)%nat → I i t → ∃ t', body i t = Some t' ∧ I (Datatypes.S i) t') →
  ∃ t, forEach body (seq a n) s = Some t ∧ I (a + n)%nat t.
Proof.
  revert a s. induction n as [|n IH]; intros a s Ha Hstep; simpl.
  - exists s. by rewrite Nat.add_0_r.
  - destruct (Hstep a s) as (t' & -> & Ht'); [lia | done |]. simpl.
    destruct (IH (Datatypes.S a) t') as (t & Ht & HI); [done | |].
    + intros i t0 Hi. apply Hstep. lia.
    + exists t. split; [done|]. by replace (a + Datatypes.S n)%nat with (Datatypes.S a + n)%nat by lia.
Qed.

Lemma forEach_fmap {A B S : Type} (f : A → B) (body : B → S → option S)
    (l : list A) (s : S) :
  forEach body (f <$> l) s = forEach (λ x, body (f x)) l s.
Proof.
  revert s. induction l as [|x l IH]; intros s; simpl; [done|].
  destruct (body (f x) s); simpl; [apply IH | done].
Qed.

(** The same rule for a loop over Go [int] counters. *)
Lemma forEach_seqZ_inv {S : Type} (I : Z → S → Prop) (body : Z → S → option S)
    (n : Z) (s : S) :
  0 ≤ n →
  I 0 s →
  (∀ i t, 0 ≤ i < n → I i t → ∃ t', body i t = Some t' ∧ I (i + 1) t') →
  ∃ t, forEach body (seqZ 0 n) s = Some t ∧ I n t.
Proof.
  intros Hn H0 Hstep. unfold seqZ. rewrite forEach_fmap.
  destruct (forEach_seq_inv (λ i, I (Z.of_nat i))
              (λ i, body (Z.of_nat i + 0)) 0 (Z.to_nat n) s) as (t & Ht & HI).
  - done.
  - intros i t Hi HIt. destruct (Hstep (Z.of_nat i) t) as (t' & Hb & Ht'); [lia | done |].
    exists t'. rewrite Z.add_0_r. split; [done|].
    by replace (Z.of_nat (Datatypes.S i)) with (Z.of_nat i + 1) by lia.
  - exists t. split; [done|]. simpl in HI. by rewrite Z2Nat.id in HI.
Qed.

Lemma mapM_spec {A B : Type} (f : A → option B) (Q : A → B → Prop) (l : list A) :
  (∀ x, x ∈ l → ∃ y, f x = Some y ∧ Q x y) →
  ∃ ys, mapM f l = Some ys ∧ Forall2 Q l ys.
Proof.
  induction l as [|x l IH]; intros H.
  - exists []. by split.
  - destruct (H x) as (y & Hy & HQ); [by left|].
    destruct IH as (ys & Hys & HF); [intros x' Hx'; apply H; by right|].
    exists (y :: ys). split; [|by constructor].
    change (mapM f (x :: l)) with (y ← f x; k ← mapM f l; mret (y :: k)).
    rewrite Hy. simpl. rewrite Hys. done.
Qed.

Lemma length_copy {A : Type} (dst src : list A) : length (copy dst src) = length dst.
Proof. unfold copy. rewrite length_app, length_take, length_drop. lia. Qed.

Lemma lookup_copy {A : Type} (dst src : list A) (k : nat) :
  copy dst src !! k =
  if decide (k < length dst ∧ k < length src)%nat then src !! k else dst !! k.
Proof.
  unfold copy. case_decide as Hk.
  - rewrite lookup_app_l by (rewrite length_take; lia).
    apply lookup_take_lt. lia.
  - destruct (decide (length src ≤ length dst)%nat).
    + rewrite lookup_app_r by (rewrite length_take; lia).
      rewrite length_take, lookup_drop. f_equal. lia.
    + rewrite (lookup_ge_None_2 dst) by lia.
      apply lookup_ge_None_2. rewrite length_app, length_take, length_drop. lia.
Qed.

Lemma rectangular_lookup (V : Volume) (X Y Z' i : nat) :
  rectangular V X Y Z' → (i < X)%nat →
  ∃ row, V !! i = Some row ∧ length row = Y ∧
         ∀ j, (j < Y)%nat → ∃ leaf, row !! j = Some leaf ∧ length leaf = Z'.
Proof.
  intros [HX HV] Hi.
  destruct (lookup_lt_is_Some_2 V i) as [row Hrow]; [lia|].
  exists row. split; [done|].
  destruct (Forall_lookup_1 _ _ _ _ HV Hrow) as [HY Hrowall]. split; [done|].
  intros j Hj. destruct (lookup_lt_is_Some_2 row j) as [leaf Hleaf]; [lia|].
  exists leaf. split; [done|]. exact (Forall_lookup_1 _ _ _ _ Hrowall Hleaf).
Qed.

Lemma rectangular_cell_Some (V : Volume) (X Y Z' i j k : nat) :
  rectangular V X Y Z' → (i < X)%nat → (j < Y)%nat → (k < Z')%nat →
  is_Some (cell V i j k).
Proof.
  intros HV Hi Hj Hk. destruct (rectangular_lookup _ _ _ _ _ HV Hi) as (row & Hr & _ & Hrow).
  destruct (Hrow j Hj) as (leaf & Hl & Hlen).
  unfold cell. rewrite Hr. simpl. rewrite Hl. simpl.
  apply lookup_lt_is_Some_2. lia.
Qed.

Lemma rectangular_cell_None (V : Volume) (X Y Z' i j k : nat) :
  rectangular V X Y Z' → ¬ (i < X ∧ j < Y ∧ k < Z')%nat → cell V i j k = None.
Proof.
  intros [HX HV] Hout. unfold cell.
  destruct (V !! i) as [row|] eqn:Hr; simpl; [|done].
  destruct (Forall_lookup_1 _ _ _ _ HV Hr) as [HY Hrowall].
  destruct (row !! j) as [leaf|] eqn:Hl; simpl; [|done].
  pose proof (Forall_lookup_1 _ _ _ _ Hrowall Hl) as HZ. simpl in HZ.
  apply lookup_lt_Some in Hr, Hl. apply lookup_ge_None_2. lia.
Qed.

Lemma rectangular_replicate (X Y Z' : nat) (v : Z) :
  rectangular (replicate X (replicate Y (replicate Z' v))) X Y Z'.
Proof.
  split; [apply length_replicate|].
  apply Forall_replicate. split; [apply length_replicate|].
  apply Forall_replicate, length_replicate.
Qed.

Lemma cell_replicate (X Y Z' i j k : nat) (v : Z) :
  (i < X)%nat → (j < Y)%nat → (k < Z')%nat →
  cell (replicate X (replicate Y (replicate Z' v))) i j k = Some v.
Proof.
  intros Hi Hj Hk. unfold cell.
  rewrite lookup_replicate_2 by done. simpl.
  rewrite lookup_replicate_2 by done. simpl.
  by rewrite lookup_replicate_2.
Qed.

(** [st[i][j] = leaf] on a nested slice. *)
Lemma cell_insert (st : Volume) (prow : list (list Z)) (leaf : list Z) (i j i' j' k' : nat) :
  st !! i = Some prow → (j < length prow)%nat →
  cell (<[i := <[j := leaf]> prow]> st) i' j' k' =
  if decide (i' = i ∧ j' = j) then leaf !! k' else cell st i' j' k'.
Proof.
  intros Hrow Hj. unfold cell. apply lookup_lt_Some in Hrow as Hi.
  destruct (decide (i' = i)) as [->|Hne].
  - rewrite list_lookup_insert_eq by done. simpl. rewrite Hrow. simpl.
    destruct (decide (j' = j)) as [->|Hne'].
    + rewrite list_lookup_insert_eq by done. simpl. by rewrite decide_True.
    + rewrite list_lookup_insert_ne by done. rewrite decide_False by tauto. done.
  - rewrite list_lookup_insert_ne by done. rewrite decide_False by tauto. done.
Qed.

Lemma rectangular_insert (st : Volume) (prow : list (list Z)) (leaf : list Z)
    (X Y Z' i j : nat) :
  rectangular st X Y Z' → st !! i = Some prow → length leaf = Z' →
  rectangular (<[i := <[j := leaf]> prow]> st) X Y Z'.
Proof.
  intros [HX HV] Hrow Hleaf. split; [by rewrite length_insert|].
  destruct (Forall_lookup_1 _ _ _ _ HV Hrow) as [HY Hrowall].
  apply Forall_insert; [done|]. split; [by rewrite length_insert|].
  by apply Forall_insert.
Qed.

(** ** The dense converter: [padArray] *)

Module DenseFacts.
Import Dense DenseSpec.
Local Open Scope nat_scope.

(** The padded extent [(n + 15) / 16 * 16] is the least multiple of 16
    that is not below [n], i.e. [ceil(n/16) * 16]. *)
Lemma padded_extent (n : nat) :
  let p := (n + 15) / 16 * 16 in
  p `mod` 16 = 0 ∧ n ≤ p < n + 16 ∧ ∀ q, q `mod` 16 = 0 → n ≤ q → p ≤ q.
Proof. cbv zeta. repeat split; intros; divlia. Qed.

Section pad.
Variables (V : Volume) (pad : Z) (X Y Z' : nat).
Hypothesis HV : rectangular V X Y Z'.


Lemma copied_start :
  copied V pad X Y Z' 0 0 (replicate ((X + 15) / 16 * 16) (replicate ((Y + 15) / 16 * 16) (replicate ((Z' + 15) / 16 * 16) pad))).
Proof.
  split; [apply rectangular_replicate|].
  intros i' j' k' Hi Hj Hk. rewrite cell_replicate by done.
  rewrite decide_False by lia. done.
Qed.

Lemma copied_leaf (i m : nat) (row : list (list Z)) (st : Volume) :
  i < X → V !! i = Some row → length row = Y → m < Y → copied V pad X Y Z' i m st →
  ∃ st',
    (prow ← st !! i; dst ← prow !! m; src ← row !! m;
     Some (<[i := <[m := copy dst src]> prow]> st)) = Some st' ∧
    copied V pad X Y Z' i (S m) st'.
Proof.
  intros Hi Hrow Hlen Hm [Hrect Hcells].
  destruct (lookup_lt_is_Some_2 row m) as [src Hsrc]; [lia|].
  destruct (rectangular_lookup _ _ _ _ i Hrect) as (prow & Hprow & Hplen & Hleaves).
  { lia. }
  destruct (Hleaves m) as (dst & Hdst & Hdlen). { lia. }
  rewrite Hprow. simpl. rewrite Hdst. simpl. rewrite Hsrc. simpl.
  eexists. split; [done|]. split.
  - apply rectangular_insert; [done | done |]. by rewrite length_copy.
  - intros i' j' k' Hi' Hj' Hk'.
    rewrite cell_insert by (done || lia).
    case_decide as Heq.
    + destruct Heq as [-> ->]. rewrite decide_True by lia.
      rewrite lookup_copy.
      assert (Hcv : cell V i m k' = src !! k').
      { unfold cell. rewrite Hrow. simpl. by rewrite Hsrc. }
      assert (Hcs : cell st i m k' = dst !! k').
      { unfold cell. rewrite Hprow. simpl. by rewrite Hdst. }
      rewrite Hcv. case_decide as Hk.
      * destruct (lookup_lt_is_Some_2 src k') as [v Hv]; [lia|]. by rewrite Hv.
      * rewrite <- Hcs, Hcells by done. rewrite decide_False by lia.
        rewrite (lookup_ge_None_2 src) by lia. done.
    + rewrite Hcells by done. f_equal.
      destruct (decide (i' < i ∨ i' = i ∧ j' < m)), (decide (i' < i ∨ i' = i ∧ j' < S m));
        (done || lia).
Qed.

Lemma copied_row (i : nat) (st : Volume) :
  i < X → copied V pad X Y Z' i 0 st →
  ∃ st',
    (row ← V !! i;
     forEach (λ j paddedArray,
         prow ← paddedArray !! i; dst ← prow !! j; src ← row !! j;
         Some (<[i := <[j := copy dst src]> prow]> paddedArray))
       (seq 0 (length row)) st) = Some st' ∧
    copied V pad X Y Z' (S i) 0 st'.
Proof.
  intros Hi Hst.
  destruct (rectangular_lookup _ _ _ _ i HV Hi) as (row & Hrow & Hlen & _).
  rewrite Hrow. simpl.
  destruct (forEach_seq_inv (copied V pad X Y Z' i)
    (λ j paddedArray,
         prow ← paddedArray !! i; dst ← prow !! j; src ← row !! j;
         Some (<[i := <[j := copy dst src]> prow]> paddedArray))
    0 (length row) st) as (st' & Hloop & [Hrect Hcells]).
  - done.
  - intros m t Hm Ht. apply copied_leaf; (done || lia).
  - exists st'. split; [done|]. split; [done|].
    intros i' j' k' Hi' Hj' Hk'. rewrite Hcells by done. f_equal.
    simpl. rewrite Hlen.
    destruct (decide (i' < i ∨ i' = i ∧ j' < Y)), (decide (i' < S i ∨ i' = S i ∧ j' < 0));
      try (done || lia).
    rewrite (rectangular_cell_None V X Y Z') by (done || lia). done.
Qed.

Lemma padArray_copied :
  0 < X → 0 < Y → ∃ P, padArray V pad = Some P ∧ copied V pad X Y Z' X 0 P.
Proof.
  intros HX HY.
  destruct (rectangular_lookup _ _ _ _ 0 HV HX) as (row0 & Hrow0 & Hlen0 & Hleaves).
  destruct (Hleaves 0 HY) as (leaf0 & Hleaf0 & Hllen0).
  unfold padArray. rewrite Hrow0. simpl. rewrite Hleaf0. simpl.
  destruct HV as [HlenV _]. rewrite HlenV, Hlen0, Hllen0.
  destruct (forEach_seq_inv (λ i, copied V pad X Y Z' i 0)
    (λ i paddedArray,
      row ← V !! i;
      forEach (λ j paddedArray,
          prow ← paddedArray !! i; dst ← prow !! j; src ← row !! j;
          Some (<[i := <[j := copy dst src]> prow]> paddedArray))
        (seq 0 (length row)) paddedArray)
    0 X (replicate ((X + 15) / 16 * 16) (replicate ((Y + 15) / 16 * 16) (replicate ((Z' + 15) / 16 * 16) pad))))
    as (P & HP & Hinv).
  - apply copied_start.
  - intros i t Hi Ht. apply copied_row; (done || lia).
  - exists P. split; [exact HP | exact Hinv].
Qed.
End pad.

(** C2.  For a rectangular dense volume [V] with extents [X], [Y], [Z']
    (the first two at least 1, as [padArray] reads [V[0][0]]),
    [padArray V (-1)] returns a rectangular volume whose extents are the
    least multiples of 16 not below [X], [Y], [Z']; inside the extents of
    [V] every cell is the cell of [V], and every other cell is -1. *)
Theorem padArray_correct (V : Volume) (X Y Z' : nat) :
  rectangular V X Y Z' → 0 < X → 0 < Y →
  ∃ P xSize ySize zSize,
    padArray V (-1) = Some P ∧
    rectangular P xSize ySize zSize ∧
    (xSize `mod` 16 = 0 ∧ X ≤ xSize < X + 16) ∧
    (ySize `mod` 16 = 0 ∧ Y ≤ ySize < Y + 16) ∧
    (zSize `mod` 16 = 0 ∧ Z' ≤ zSize < Z' + 16) ∧
    (∀ i j k, i < X → j < Y → k < Z' →
       is_Some (cell V i j k) ∧ cell P i j k = cell V i j k) ∧
    (∀ i j k, i < xSize → j < ySize → k < zSize → ¬ (i < X ∧ j < Y ∧ k < Z') →
       cell P i j k = Some (-1)%Z).
Proof.
  intros HV HX HY.
  destruct (padArray_copied V (-1)%Z X Y Z' HV HX HY) as (P & HP & Hrect & Hcells).
  exists P, ((X + 15) / 16 * 16), ((Y + 15) / 16 * 16), ((Z' + 15) / 16 * 16).
  split; [done|]. split; [done|].
  split; [pose proof (padded_extent X) as Hp; cbv zeta in Hp; tauto|].
  split; [pose proof (padded_extent Y) as Hp; cbv zeta in Hp; tauto|].
  split; [pose proof (padded_extent Z') as Hp; cbv zeta in Hp; tauto|].
  split.
  - intros i j k Hi Hj Hk.
    destruct (rectangular_cell_Some V X Y Z' i j k) as [v Hv]; try done.
    split; [by rewrite Hv|].
    rewrite Hcells by lia. rewrite Hv. simpl. by rewrite decide_True by lia.
  - intros i j k Hi Hj Hk Hout. rewrite Hcells by done.
    rewrite (rectangular_cell_None V X Y Z') by done. simpl. by case_decide.
Qed.

(** ** The dense converter: [convertToSections] *)

Lemma gridIndex_lt (a b c i j k : nat) :
  i < a → j < b → k < c → gridIndex b c i j k < a * b * c.
Proof.
  unfold gridIndex. intros Hi Hj Hk.
  assert (H1 : i * b + j + 1 ≤ a * b) by nia.
  assert (H2 : (i * b + j + 1) * c ≤ a * b * c) by (apply Nat.mul_le_mono_r; lia).
  lia.
Qed.

Lemma gridIndex_inj (b c i j k i' j' k' : nat) :
  j < b → k < c → j' < b → k' < c →
  gridIndex b c i j k = gridIndex b c i' j' k' → i = i' ∧ j = j' ∧ k = k'.
Proof.
  unfold gridIndex. intros Hj Hk Hj' Hk' Heq.
  assert (Hk2 : k = k').
  { replace (i * b * c + j * c + k) with (k + (i * b + j) * c) in Heq by lia.
    replace (i' * b * c + j' * c + k') with (k' + (i' * b + j') * c) in Heq by lia.
    apply (f_equal (λ n, n `mod` c)) in Heq.
    rewrite !Nat.Div0.mod_add, !Nat.mod_small in Heq by done. done. }
  subst k'. assert (Hij : i * b + j = i' * b + j') by nia.
  assert (Hj2 : j = j').
  { replace (i * b + j) with (j + i * b) in Hij by lia.
    replace (i' * b + j') with (j' + i' * b) in Hij by lia.
    apply (f_equal (λ n, n `mod` b)) in Hij.
    rewrite !Nat.Div0.mod_add, !Nat.mod_small in Hij by done. done. }
  subst j'. split; [nia | done].
Qed.

Lemma gridIndex_decode (a b c t : nat) :
  t < a * b * c →
  ∃ i j k, i < a ∧ j < b ∧ k < c ∧ t = gridIndex b c i j k.
Proof.
  intros Ht. assert (0 < c) by nia. assert (0 < b) by nia.
  exists (t / c / b), ((t / c) `mod` b), (t `mod` c).
  assert (Hu : t / c < a * b) by (apply Nat.Div0.div_lt_upper_bound; lia).
  split; [apply Nat.Div0.div_lt_upper_bound; lia|].
  split; [apply Nat.mod_upper_bound; lia|].
  split; [apply Nat.mod_upper_bound; lia|].
  unfold gridIndex. pose proof (Nat.div_mod_eq t c). pose proof (Nat.div_mod_eq (t / c) b). nia.
Qed.

Section sectionize.
Variables (P : Volume) (X Y Z' : nat).
Hypothesis HP : rectangular P X Y Z'.
Hypothesis HX : X `mod` 16 = 0.
Hypothesis HY : Y `mod` 16 = 0.
Hypothesis HZ : Z' `mod` 16 = 0.

Let a := X / 16.
Let b := Y / 16.
Let c := Z' / 16.

Lemma sectionBlocks_cube (i j k : nat) :
  i < a → j < b → k < c →
  ∃ blocks, sectionBlocks P i j k = Some blocks ∧
    rectangular blocks 16 16 16 ∧
    ∀ l m n, l < 16 → m < 16 → n < 16 →
      cell blocks l m n = cell P (i * 16 + l) (j * 16 + m) (k * 16 + n).
Proof.
  intros Hi Hj Hk. subst a b c.
  destruct (mapM_spec
    (λ l, mapM (λ m,
        row ← P !! (i * 16 + l);
        leaf ← row !! (j * 16 + m);
        src ← slice leaf (k * 16) ((k + 1) * 16);
        Some (copy (replicate 16 0%Z) src)) (seq 0 16))
    (λ l brow, Forall2 (λ m (bleaf : list Z), length bleaf = 16 ∧
        ∀ n, n < 16 → bleaf !! n = cell P (i * 16 + l) (j * 16 + m) (k * 16 + n))
        (seq 0 16) brow)
    (seq 0 16)) as (blocks & Hblocks & Hall).
  { intros l Hl%elem_of_seq. apply mapM_spec. intros m Hm%elem_of_seq.
    destruct (rectangular_lookup _ _ _ _ (i * 16 + l) HP) as (row & Hrow & _ & Hleaves);
      [divlia|].
    destruct (Hleaves (j * 16 + m)) as (leaf & Hleaf & Hlen); [divlia|].
    remember (replicate 16 0%Z) as dst eqn:Hdst.
    rewrite Hrow. simpl. rewrite Hleaf. simpl.
    unfold slice. rewrite decide_True by (rewrite Hlen; divlia). simpl.
    eexists. split; [done|]. subst dst. split.
    - by rewrite length_copy, length_replicate.
    - intros n Hn. rewrite lookup_copy, length_replicate, length_take, length_drop.
      rewrite decide_True by (rewrite Hlen; divlia).
      rewrite lookup_take_lt by lia. rewrite lookup_drop.
      unfold cell. rewrite Hrow. simpl. by rewrite Hleaf. }
  exists blocks. split; [exact Hblocks|].
  assert (Hlenb : length blocks = 16).
  { apply Forall2_length in Hall. by rewrite length_seq in Hall. }
  split.
  - split; [done|]. apply Forall_lookup_2. intros l brow Hbrow.
    destruct (Forall2_lookup_r _ _ _ _ _ Hall Hbrow) as (l' & Hl' & Hrow).
    split.
    + apply Forall2_length in Hrow. by rewrite length_seq in Hrow.
    + apply Forall_lookup_2. intros m bleaf Hbleaf.
      destruct (Forall2_lookup_r _ _ _ _ _ Hrow Hbleaf) as (m' & _ & Hlen & _). done.
  - intros l m n Hl Hm Hn.
    destruct (Forall2_lookup_l _ _ _ l l Hall) as (brow & Hbrow & Hrow).
    { by apply lookup_seq. }
    destruct (Forall2_lookup_l _ _ _ m m Hrow) as (bleaf & Hbleaf & _ & Hcells).
    { by apply lookup_seq. }
    unfold cell at 1. rewrite Hbrow. simpl. rewrite Hbleaf. simpl. by apply Hcells.
Qed.

Lemma filled_step (i k j : nat) (st : list Section_) :
  i < a → k < c → j < b → filled P X Y Z' i k j st →
  ∃ st',
    (blocks ← sectionBlocks P i j k;
     store st (i * b * c + j * c + k)
       (mkSection (Z.of_nat (i * 16)) (Z.of_nat (j * 16)) (Z.of_nat (k * 16)) blocks))
    = Some st' ∧ filled P X Y Z' i k (S j) st'.
Proof.
  intros Hi Hk Hj [Hlen Hst].
  destruct (sectionBlocks_cube i j k Hi Hj Hk) as (blocks & Hblocks & _).
  rewrite Hblocks. simpl. unfold store.
  pose proof (gridIndex_lt a b c i j k Hi Hj Hk) as Hidx. unfold gridIndex in Hidx.
  rewrite decide_True by lia. eexists. split; [done|]. split.
  - by rewrite length_insert.
  - intros i' j' k' Hi' Hj' Hk' Hdone.
    destruct (decide (gridIndex b c i j k = gridIndex b c i' j' k')) as [Heq|Hne].
    + apply gridIndex_inj in Heq as (-> & -> & ->); try done.
      eexists. split; [apply list_lookup_insert_eq; unfold gridIndex; lia|].
      by repeat split.
    + fold (gridIndex b c i j k). rewrite list_lookup_insert_ne by done.
      apply Hst; try done.
      assert (¬ (i' = i ∧ j' = j ∧ k' = k)) by (intros (-> & -> & ->); done). lia.
Qed.

Lemma convertToSections_grid :
  0 < X → 0 < Y →
  ∃ sections, convertToSections P = Some sections ∧
    length sections = a * b * c ∧
    ∀ i j k, i < a → j < b → k < c →
      ∃ s, sections !! gridIndex b c i j k = Some s ∧ isSection P i j k s.
Proof.
  intros HX0 HY0.
  destruct (rectangular_lookup _ _ _ _ 0 HP HX0) as (row0 & Hrow0 & Hlen0 & Hleaves).
  destruct (Hleaves 0 HY0) as (leaf0 & Hleaf0 & Hllen0).
  unfold convertToSections. rewrite Hrow0. simpl. rewrite Hleaf0. simpl.
  destruct HP as [HlenP _]. rewrite HlenP, Hlen0, Hllen0. fold a b c.
  destruct (forEach_seq_inv (λ i, filled P X Y Z' i 0 0)
    (λ i sections,
      forEach (λ k sections,
        forEach (λ j sections,
            blocks ← sectionBlocks P i j k;
            store sections (i * b * c + j * c + k)
              (mkSection (Z.of_nat (i * 16)) (Z.of_nat (j * 16)) (Z.of_nat (k * 16)) blocks))
          (seq 0 b) sections)
        (seq 0 c) sections)
    0 a (replicate (a * b * c) zeroSection)) as (sections & Hloop & Hlen & Hall).
  - split; [apply length_replicate|]. intros; lia.
  - intros i st Hi Hst.
    destruct (forEach_seq_inv (λ k, filled P X Y Z' i k 0)
      (λ k sections,
        forEach (λ j sections,
            blocks ← sectionBlocks P i j k;
            store sections (i * b * c + j * c + k)
              (mkSection (Z.of_nat (i * 16)) (Z.of_nat (j * 16)) (Z.of_nat (k * 16)) blocks))
          (seq 0 b) sections)
      0 c st) as (st' & Hloop' & Hlen' & Hall').
    + done.
    + intros k st1 Hk Hst1.
      destruct (forEach_seq_inv (filled P X Y Z' i k)
        (λ j sections,
            blocks ← sectionBlocks P i j k;
            store sections (i * b * c + j * c + k)
              (mkSection (Z.of_nat (i * 16)) (Z.of_nat (j * 16)) (Z.of_nat (k * 16)) blocks))
        0 b st1) as (st2 & Hloop2 & Hlen2 & Hall2).
      * done.
      * intros j st2 Hj Hst2. apply filled_step; (done || lia).
      * exists st2. split; [done|]. split; [done|].
        intros i' j' k' Hi' Hj' Hk' Hdone. apply Hall2; try done. simpl. lia.
    + exists st'. split; [done|]. split; [done|].
      intros i' j' k' Hi' Hj' Hk' Hdone. apply Hall'; try done. simpl. lia.
  - exists sections. split; [done|]. split; [done|].
    intros i j k Hi Hj Hk. apply Hall; try done. simpl. lia.
Qed.
End sectionize.

Lemma dense_sections_entries (P : Volume) (X Y Z' : nat) :
  rectangular P X Y Z' →
  X `mod` 16 = 0 → Y `mod` 16 = 0 → Z' `mod` 16 = 0 → 0 < X → 0 < Y →
  ∃ sections, convertToSections P = Some sections ∧
    length sections = X / 16 * (Y / 16) * (Z' / 16) ∧
    (∀ i j k, i < X / 16 → j < Y / 16 → k < Z' / 16 →
       ∃ s, sections !! gridIndex (Y / 16) (Z' / 16) i j k = Some s ∧ isSection P i j k s) ∧
    (∀ t s, sections !! t = Some s →
       ∃ i j k, i < X / 16 ∧ j < Y / 16 ∧ k < Z' / 16 ∧
         t = gridIndex (Y / 16) (Z' / 16) i j k ∧ isSection P i j k s).
Proof.
  intros HP HX HY HZ HX0 HY0.
  destruct (convertToSections_grid P X Y Z' HP HX HY HZ HX0 HY0) as (sections & Hconv & Hlen & Hall).
  exists sections. repeat split; try done.
  intros t s Hts. pose proof (lookup_lt_Some _ _ _ Hts) as Ht. rewrite Hlen in Ht.
  destruct (gridIndex_decode _ _ _ _ Ht) as (i & j & k & Hi & Hj & Hk & ->).
  exists i, j, k. do 4 (split; [done|]).
  destruct (Hall i j k Hi Hj Hk) as (s' & Hs' & Hsec).
  rewrite Hts in Hs'. by injection Hs' as ->.
Qed.

Lemma length_concat_uniform {A : Type} (l : list (list A)) (n : nat) :
  Forall (λ x, length x = n) l → length (concat l) = length l * n.
Proof.
  induction 1 as [|x l Hx _ IH]; simpl; [done|]. rewrite length_app, IH, Hx. done.
Qed.

Lemma rectangular_count (V : Volume) (X Y Z' : nat) :
  rectangular V X Y Z' → length (concat (concat V)) = X * Y * Z'.
Proof.
  intros [HX HV]. rewrite (length_concat_uniform _ Z').
  - rewrite (length_concat_uniform _ Y), HX; [done|].
    eapply Forall_impl; [exact HV|]. by intros row [? _].
  - apply Forall_concat. eapply Forall_impl; [exact HV|]. by intros row [_ ?].
Qed.

(** C1.  For a rectangular volume [P] whose extents [X], [Y], [Z'] are
    multiples of 16 (the first two not 0, as the converter reads
    [P[0][0]]), [convertToSections P] returns [(X/16)*(Y/16)*(Z'/16)]
    sections, each with a 16x16x16 block array (4096 entries); for every
    position (x, y, z) of [P] the section with origin
    (16*(x/16), 16*(y/16), 16*(z/16)) holds [P[x][y][z]] at the local
    position (x mod 16, y mod 16, z mod 16), and it is the only section of
    the output whose cube contains (x, y, z). *)
Theorem convertToSections_partition (P : Volume) (X Y Z' : nat) :
  rectangular P X Y Z' →
  X `mod` 16 = 0 → Y `mod` 16 = 0 → Z' `mod` 16 = 0 → 0 < X → 0 < Y →
  ∃ sections, convertToSections P = Some sections ∧
    length sections = X / 16 * (Y / 16) * (Z' / 16) ∧
    (∀ s, s ∈ sections →
       rectangular (Blocks s) 16 16 16 ∧ length (concat (concat (Blocks s))) = 4096) ∧
    (∀ x y z, x < X → y < Y → z < Z' →
       ∃ t s, sections !! t = Some s ∧
         SecX s = Z.of_nat (16 * (x / 16)) ∧
         SecY s = Z.of_nat (16 * (y / 16)) ∧
         SecZ s = Z.of_nat (16 * (z / 16)) ∧
         is_Some (cell P x y z) ∧
         cell (Blocks s) (x `mod` 16) (y `mod` 16) (z `mod` 16) = cell P x y z ∧
         ∀ t' s', sections !! t' = Some s' → covers s' x y z → t' = t).
Proof.
  intros HP HX HY HZ HX0 HY0.
  destruct (dense_sections_entries P X Y Z' HP HX HY HZ HX0 HY0)
    as (sections & Hconv & Hlen & Hgrid & Hentry).
  exists sections. split; [done|]. split; [done|]. split.
  - intros s (t & Hts)%list_elem_of_lookup.
    destruct (Hentry t s Hts) as (i & j & k & Hi & Hj & Hk & _ & _ & _ & _ & Hblocks).
    destruct (sectionBlocks_cube P X Y Z' HP HX HY HZ i j k Hi Hj Hk) as (blocks & Hb & Hrect & _).
    assert (blocks = Blocks s) as -> by congruence.
    split; [done|]. by rewrite (rectangular_count _ 16 16 16).
  - intros x y z Hx Hy Hz.
    assert (Hi : x / 16 < X / 16) by divlia.
    assert (Hj : y / 16 < Y / 16) by divlia.
    assert (Hk : z / 16 < Z' / 16) by divlia.
    destruct (Hgrid _ _ _ Hi Hj Hk) as (s & Hs & HsX & HsY & HsZ & Hblocks).
    destruct (sectionBlocks_cube P X Y Z' HP HX HY HZ _ _ _ Hi Hj Hk) as (blocks & Hb & _ & Hcells).
    assert (blocks = Blocks s) as -> by congruence.
    exists (gridIndex (Y / 16) (Z' / 16) (x / 16) (y / 16) (z / 16)), s.
    split; [done|].
    split; [rewrite HsX; f_equal; lia|].
    split; [rewrite HsY; f_equal; lia|].
    split; [rewrite HsZ; f_equal; lia|].
    split; [by apply (rectangular_cell_Some P X Y Z')|].
    split.
    + rewrite Hcells by (apply Nat.mod_upper_bound; lia). f_equal; divlia.
    + intros t' s' Hs' (HcX & HcY & HcZ).
      destruct (Hentry t' s' Hs') as (i & j & k & _ & _ & _ & -> & HX' & HY' & HZ' & _).
      rewrite HX' in HcX. rewrite HY' in HcY. rewrite HZ' in HcZ.
      f_equal; divlia.
Qed.

(** The dense half of the ordering property: position [(i*b + j)*c + k] of
    the output holds the section of grid cell (i, j, k), whose origin is
    16 times the grid position, and no origin occurs twice. *)
Lemma dense_sections_row_major (P : Volume) (X Y Z' : nat) :
  rectangular P X Y Z' →
  X `mod` 16 = 0 → Y `mod` 16 = 0 → Z' `mod` 16 = 0 → 0 < X → 0 < Y →
  ∃ sections, convertToSections P = Some sections ∧
    length sections = X / 16 * (Y / 16) * (Z' / 16) ∧
    (∀ i j k, i < X / 16 → j < Y / 16 → k < Z' / 16 →
       ∃ s, sections !! ((i * (Y / 16) + j) * (Z' / 16) + k) = Some s ∧
         SecX s = Z.of_nat (i * 16) ∧ SecY s = Z.of_nat (j * 16) ∧
         SecZ s = Z.of_nat (k * 16)) ∧
    NoDup ((λ s, (SecX s, SecY s, SecZ s)) <$> sections).
Proof.
  intros HP HX HY HZ HX0 HY0.
  destruct (dense_sections_entries P X Y Z' HP HX HY HZ HX0 HY0)
    as (sections & Hconv & Hlen & Hgrid & Hentry).
  exists sections. split; [done|]. split; [done|]. split.
  - intros i j k Hi Hj Hk. destruct (Hgrid i j k Hi Hj Hk) as (s & Hs & HsX & HsY & HsZ & _).
    exists s. split; [|done]. rewrite <- Hs. f_equal. unfold gridIndex. lia.
  - apply NoDup_alt. intros t1 t2 o. rewrite !list_lookup_fmap.
    intros (s1 & Hs1 & ->)%fmap_Some (s2 & Hs2 & Heq)%fmap_Some.
    destruct (Hentry _ _ Hs1) as (i & j & k & _ & _ & _ & -> & HX1 & HY1 & HZ1 & _).
    destruct (Hentry _ _ Hs2) as (i' & j' & k' & _ & _ & _ & -> & HX2 & HY2 & HZ2 & _).
    injection Heq as E1 E2 E3. f_equal; lia.
Qed.

(** ** The dense converter: what [validateArray] lets through *)

Lemma adjacent_sameLength {A : Type} (l : list (list A)) :
  forallb (λ i, bool_decide (length (l !!! i) = length (l !!! (i + 1))))
          (seq 0 (length l - 1)) = true ↔ sameLength l.
Proof.
  rewrite forallb_forall. split.
  - intros Hadj.
    assert (Hall : ∀ i x, l !! i = Some x → length x = length (l !!! 0)).
    { induction i as [|i IH]; intros x Hx.
      - by rewrite (list_lookup_total_correct _ _ _ Hx).
      - destruct (lookup_lt_is_Some_2 l i) as [y Hy]; [apply lookup_lt_Some in Hx; lia|].
        rewrite <- (IH y Hy).
        assert (Hin : In i (seq 0 (length l - 1))).
        { apply in_seq. apply lookup_lt_Some in Hx. lia. }
        apply Hadj, bool_decide_eq_true in Hin.
        rewrite (list_lookup_total_correct _ _ _ Hy) in Hin.
        replace (i + 1) with (S i) in Hin by lia.
        by rewrite (list_lookup_total_correct _ _ _ Hx) in Hin. }
    intros i j x y Hx Hy. by rewrite (Hall i x Hx), (Hall j y Hy).
  - intros Hsame i Hin%in_seq. apply bool_decide_eq_true.
    destruct (lookup_lt_is_Some_2 l i) as [x Hx]; [lia|].
    destruct (lookup_lt_is_Some_2 l (i + 1)) as [y Hy]; [lia|].
    rewrite (list_lookup_total_correct _ _ _ Hx), (list_lookup_total_correct _ _ _ Hy).
    by apply (Hsame i (i + 1)).
Qed.

Lemma validateArray_true (V : Volume) :
  validateArray V = true ↔ sameLength V ∧ ∀ row, row ∈ V → sameLength row.
Proof.
  unfold validateArray. rewrite andb_true_iff, adjacent_sameLength, forallb_forall.
  split; intros [H1 H2]; (split; [done|]); intros row Hrow.
  - apply adjacent_sameLength, H2. by apply list_elem_of_In.
  - apply adjacent_sameLength, H2. by apply list_elem_of_In.
Qed.

(** C5.  [validateArray] accepts a volume that is not rectangular: two of
    its leaf arrays differ in length.  The second loop compares leaves
    inside one first-level row only; the volume goes on through padding
    and sectioning. *)
Theorem validateArray_accepts_ragged :
  validateArray raggedVolume = true ∧
  (∃ i j i' j' leaf leaf',
     leafAt raggedVolume i j = Some leaf ∧ leafAt raggedVolume i' j' = Some leaf' ∧
     length leaf ≠ length leaf') ∧
  (¬ ∃ X Y Z', rectangular raggedVolume X Y Z') ∧
  ∃ sections, pipeline raggedVolume = Converted sections.
Proof.
  split; [reflexivity|]. split; [|split].
  - exists 0, 0, 1, 0, [1%Z], [1%Z; 2%Z]. repeat split; simpl; lia.
  - intros (X & Y & Z' & _ & Hall).
    apply Forall_cons in Hall as [[_ H1] Hall].
    apply Forall_cons in Hall as [[_ H2] _].
    apply Forall_cons in H1 as [H1 _]. apply Forall_cons in H2 as [H2 _].
    simpl in *. lia.
  - vm_compute. eexists. reflexivity.
Qed.

(** A leaf that is longer than the first one loses its tail in [padArray]:
    the padded length comes from [inputArray[0][0]] alone. *)
Example ragged_leaf_truncated :
  let V : Volume := [[[1%Z]]; [seqZ 1 17]] in
  validateArray V = true ∧ cell V 1 0 16 = Some 17%Z ∧
  ∃ P, padArray V (-1) = Some P ∧ cell P 1 0 15 = Some 16%Z ∧ cell P 1 0 16 = None.
Proof. cbv zeta. split; [reflexivity|]. split; [reflexivity|]. vm_compute. eexists. done. Qed.

(** C10.  The empty array passes [validateArray] (both loops are vacuous),
    and [padArray] then fails on [inputArray[0]]; an array of empty rows
    passes too and [padArray] fails on [inputArray[0][0]]. *)
Theorem empty_input_passes_validation_and_panics :
  validateArray [] = true ∧
  ([] : Volume) !! 0 = None ∧
  (∀ paddingValue, padArray [] paddingValue = None) ∧
  pipeline [] = Panicked ∧
  validateArray [[]] = true ∧
  (∀ paddingValue, padArray [[]] paddingValue = None).
Proof. repeat split. Qed.

Lemma padArray_correct_witness :
  ∃ P, padArray smallVolume (-1) = Some P ∧
       cell P 1 0 2 = Some 6%Z ∧ cell P 1 0 3 = Some (-1)%Z ∧ cell P 2 0 0 = Some (-1)%Z.
Proof.
  destruct (padArray_correct smallVolume 2 1 3)
    as (P & xSize & ySize & zSize & HP & _ & HxS & HyS & HzS & Hin & Hout).
  - apply (bool_decide_unpack _). by vm_compute.
  - lia.
  - lia.
  - exists P. split; [exact HP|]. split; [|split].
    + destruct (Hin 1 0 2) as [_ ->]; (lia || reflexivity).
    + apply Hout; divlia.
    + apply Hout; divlia.
Defined.

Lemma convertToSections_partition_witness :
  ∃ sections, convertToSections numberedVolume = Some sections ∧
    length sections = 2 ∧
    ∃ t s, sections !! t = Some s ∧ SecX s = 16%Z ∧ SecY s = 0%Z ∧ SecZ s = 0%Z ∧
           cell (Blocks s) 1 2 3 = Some (17 * 256 + 2 * 16 + 3)%Z.
Proof.
  destruct (convertToSections_partition numberedVolume 32 16 16)
    as (sections & Hconv & Hlen & _ & Hcells).
  - apply (bool_decide_unpack _). by vm_compute.
  - reflexivity.
  - reflexivity.
  - reflexivity.
  - lia.
  - lia.
  - exists sections. split; [exact Hconv|]. split; [exact Hlen|].
    destruct (Hcells 17 2 3) as (t & s & Hs & HX & HY & HZ & _ & Hcell & _); [lia..|].
    exists t, s. split; [exact Hs|]. split; [exact HX|]. split; [exact HY|].
    split; [exact HZ|]. exact Hcell.
Defined.

End DenseFacts.

(** ** The structure converter *)

Module StructureFacts.
Import Structure StructureSpec.

Lemma wrap_in_range (z : Z) : Int64.in_range z → Int64.wrap z = z.
Proof.
  unfold Int64.in_range, Int64.wrap, Int64.min_int, Int64.max_int. intros Hz.
  rewrite Z.mod_small; lia.
Qed.

Lemma exactCount_pos (n : Z) : 1 ≤ n → 1 ≤ exactCount n ∧ n ≤ exactCount n * 16 < n + 16.
Proof. unfold exactCount. intros Hn. rewrite Z.quot_div_nonneg by lia. divlia. Qed.

Section grid.
Variable size : Size.
Hypothesis HsX : 1 ≤ SizeX size.
Hypothesis HsY : 1 ≤ SizeY size.
Hypothesis HsZ : 1 ≤ SizeZ size.
Hypothesis Hfit : offsetsFit size.

Let cX := exactCount (SizeX size).
Let cY := exactCount (SizeY size).
Let cZ := exactCount (SizeZ size).

Lemma exactOffset_bounds (x y z : Z) :
  0 ≤ x < cX → 0 ≤ y < cY → 0 ≤ z < cZ →
  0 ≤ x * 16 ≤ x * 16 * SizeX size ∧
  x * 16 * SizeX size ≤ x * 16 * SizeX size * SizeY size ∧
  0 ≤ y * 16 ≤ y * 16 * SizeX size ∧
  0 ≤ z * 16 ∧
  exactOffset size x y z + 4095 ≤ Int64.max_int.
Proof.
  intros Hx Hy Hz. unfold offsetsFit in Hfit. fold cX cY cZ in Hfit.
  unfold exactOffset in *.
  assert (H1 : x * 16 * SizeX size ≤ (cX - 1) * 16 * SizeX size)
    by (apply Z.mul_le_mono_nonneg_r; lia).
  assert (H2 : x * 16 * SizeX size * SizeY size ≤ (cX - 1) * 16 * SizeX size * SizeY size)
    by (apply Z.mul_le_mono_nonneg_r; lia).
  assert (H3 : y * 16 * SizeX size ≤ (cY - 1) * 16 * SizeX size)
    by (apply Z.mul_le_mono_nonneg_r; lia).
  assert (H4 : 0 ≤ x * 16 * SizeX size) by (apply Z.mul_nonneg_nonneg; lia).
  assert (H5 : x * 16 * 1 ≤ x * 16 * SizeX size) by (apply Z.mul_le_mono_nonneg_l; lia).
  assert (H6 : x * 16 * SizeX size * 1 ≤ x * 16 * SizeX size * SizeY size)
    by (apply Z.mul_le_mono_nonneg_l; lia).
  assert (H7 : y * 16 * 1 ≤ y * 16 * SizeX size) by (apply Z.mul_le_mono_nonneg_l; lia).
  lia.
Qed.

Lemma sectionOffset_exact (x y z : Z) :
  0 ≤ x < cX → 0 ≤ y < cY → 0 ≤ z < cZ →
  sectionOffset size x y z = exactOffset size x y z ∧
  x *i 16 = x * 16 ∧ y *i 16 = y * 16 ∧ z *i 16 = z * 16.
Proof.
  intros Hx Hy Hz.
  destruct (exactOffset_bounds x y z Hx Hy Hz) as (B1 & B2 & B3 & B4 & B5).
  unfold exactOffset in B5. unfold sectionOffset, exactOffset, Int64.mul, Int64.add.
  assert (Hr : ∀ v, 0 ≤ v ≤ Int64.max_int → Int64.wrap v = v).
  { intros v Hv. apply wrap_in_range. unfold Int64.in_range, Int64.min_int, Int64.max_int in *. lia. }
  rewrite (Hr (x * 16)) by lia. rewrite (Hr (y * 16)) by lia. rewrite (Hr (z * 16)) by lia.
  rewrite (Hr (x * 16 * SizeX size)) by lia.
  rewrite (Hr (x * 16 * SizeX size * SizeY size)) by lia.
  rewrite (Hr (y * 16 * SizeX size)) by lia.
  rewrite (Hr (x * 16 * SizeX size * SizeY size + y * 16 * SizeX size)) by lia.
  rewrite Hr by lia. done.
Qed.

Lemma sizes_fit :
  SizeX size + 15 ≤ Int64.max_int ∧ SizeY size + 15 ≤ Int64.max_int ∧
  SizeZ size + 15 ≤ Int64.max_int.
Proof.
  destruct (exactCount_pos _ HsX) as [HcX HbX].
  destruct (exactCount_pos _ HsY) as [HcY HbY].
  destruct (exactCount_pos _ HsZ) as [HcZ HbZ].
  fold cX in HcX, HbX. fold cY in HcY, HbY. fold cZ in HcZ, HbZ.
  destruct (exactOffset_bounds (cX - 1) (cY - 1) (cZ - 1)) as (B1 & B2 & B3 & B4 & B5);
    [lia..|].
  unfold exactOffset in B5. unfold Int64.max_int in *. lia.
Qed.

Lemma sectionCount_exact :
  (SizeX size +i 15) /i 16 = cX ∧ (SizeY size +i 15) /i 16 = cY ∧
  (SizeZ size +i 15) /i 16 = cZ.
Proof.
  destruct sizes_fit as (FX & FY & FZ).
  assert (Hc : ∀ n, 1 ≤ n → n + 15 ≤ Int64.max_int → (n +i 15) /i 16 = exactCount n).
  { intros n Hn Hf. unfold Int64.add, Int64.div, exactCount.
    rewrite (wrap_in_range (n + 15))
      by (unfold Int64.in_range, Int64.min_int, Int64.max_int in *; lia).
    apply wrap_in_range. rewrite Z.quot_div_nonneg by lia.
    unfold Int64.in_range, Int64.min_int, Int64.max_int in *. divlia. }
  subst cX cY cZ. by rewrite !Hc.
Qed.
End grid.

(** The offsets fit for every declared volume of fewer than 2^31 blocks. *)
Lemma offsetsFit_of_block_count (s0 s1 s2 : Z) :
  1 ≤ s0 → 1 ≤ s1 → 1 ≤ s2 → s0 * s1 * s2 < 2 ^ 31 → offsetsFit (mkSize s0 s1 s2).
Proof.
  intros H0 H1 H2 Hn. unfold offsetsFit, exactOffset, Int64.max_int. simpl.
  destruct (exactCount_pos _ H0) as [C0 B0].
  destruct (exactCount_pos _ H1) as [C1 B1].
  destruct (exactCount_pos _ H2) as [C2 B2].
  set (a := (exactCount s0 - 1) * 16) in *. set (b := (exactCount s1 - 1) * 16) in *.
  set (c := (exactCount s2 - 1) * 16) in *.
  assert (Ha : 0 ≤ a < s0) by (subst a; lia).
  assert (Hb : 0 ≤ b < s1) by (subst b; lia).
  assert (Hc : 0 ≤ c < s2) by (subst c; lia).
  assert (H01 : 1 ≤ s0 * s1) by nia.
  assert (Hs0 : s0 * s1 ≤ s0 * s1 * s2) by nia.
  assert (Hs1 : s0 ≤ s0 * s1) by nia.
  assert (Hs2 : s2 ≤ s0 * s1 * s2) by nia.
  assert (T1 : a * s0 * s1 ≤ s0 * (s0 * s1)).
  { rewrite <- Z.mul_assoc. apply Z.mul_le_mono_nonneg_r; lia. }
  assert (T1' : s0 * (s0 * s1) ≤ 2 ^ 31 * 2 ^ 31).
  { apply Z.mul_le_mono_nonneg; lia. }
  assert (T2 : b * s0 ≤ s1 * s0) by (apply Z.mul_le_mono_nonneg_r; lia).
  lia.
Qed.

Lemma sectionBlocks_window (blocks : list Z) (outOfRangeBlockId base : Z) :
  0 ≤ base → base + 4095 ≤ Int64.max_int →
  ∃ sb, sectionBlocks blocks outOfRangeBlockId base = Some sb ∧
        windowOf blocks outOfRangeBlockId base sb.
Proof.
  intros Hbase Hfit. unfold sectionBlocks.
  destruct (mapM_spec (sectionCell blocks outOfRangeBlockId base)
    (λ i v, (len blocks ≤ base + i → v = outOfRangeBlockId) ∧
            (base + i < len blocks →
               0 ≤ base + i ∧ blocks !! Z.to_nat (base + i) = Some v))
    (seqZ 0 4096)) as (sb & Hsb & Hall).
  { intros i Hi%elem_of_seqZ. unfold sectionCell, Int64.add.
    rewrite wrap_in_range
      by (unfold Int64.in_range, Int64.min_int, Int64.max_int in *; lia).
    replace (i + base) with (base + i) by lia.
    case_decide as Hlen.
    - eexists. split; [done|]. split; [done | intros ?; exfalso; lia].
    - unfold index. rewrite decide_False by lia.
      destruct (lookup_lt_is_Some_2 blocks (Z.to_nat (base + i))) as [v Hv];
        [unfold len in Hlen; lia|].
      exists v. split; [done|]. split; [intros ?; exfalso; lia | intros _; split; [lia | done]]. }
  exists sb. split; [done|]. split.
  - apply Forall2_length in Hall. by rewrite length_seqZ in Hall.
  - intros i Hi.
    destruct (Forall2_lookup_l _ _ _ (Z.to_nat i) i Hall) as (v & Hv & Hout & Hin).
    { rewrite lookup_seqZ. lia. }
    split.
    + intros Hlen. by rewrite Hv, Hout.
    + intros Hlen. destruct (Hin Hlen) as [? Hb]. by rewrite Hv, Hb.
Qed.

Lemma scanIndex_inj (cY cZ x y z x' y' z' : Z) :
  0 ≤ y < cY → 0 ≤ z < cZ → 0 ≤ y' < cY → 0 ≤ z' < cZ →
  scanIndex cY cZ x y z = scanIndex cY cZ x' y' z' → x = x' ∧ y = y' ∧ z = z'.
Proof.
  unfold scanIndex. intros Hy Hz Hy' Hz' Heq.
  destruct (Z.div_mod_unique cZ (x * cY + y) (x' * cY + y') z z') as [Hq ->];
    [lia | lia | lia |].
  destruct (Z.div_mod_unique cY x x' y y') as [-> ->]; [lia | lia | lia |]. done.
Qed.

Lemma scanIndex_bounds (cX cY cZ x y z : Z) :
  0 ≤ x < cX → 0 ≤ y < cY → 0 ≤ z < cZ →
  0 ≤ scanIndex cY cZ x y z < cX * cY * cZ.
Proof.
  unfold scanIndex. intros Hx Hy Hz.
  assert (H0 : 0 ≤ x * cY) by (apply Z.mul_nonneg_nonneg; lia).
  assert (H1 : 0 ≤ (x * cY + y) * cZ) by (apply Z.mul_nonneg_nonneg; lia).
  assert (H2 : (x + 1) * cY ≤ cX * cY) by (apply Z.mul_le_mono_nonneg_r; lia).
  assert (H3 : (x * cY + y + 1) * cZ ≤ cX * cY * cZ) by (apply Z.mul_le_mono_nonneg_r; lia).
  lia.
Qed.

Section convert.
Variables (inp : Input) (blockDict : gmap string Z).
Variables (defaultBlockId outOfRangeBlockId : Z).
Variables (s0 s1 s2 : Z) (rawBlocks blocks : list Z).
Hypothesis Hsize : size inp = [s0; s1; s2].
Hypothesis Hraw : block_indices inp !! 0%nat = Some rawBlocks.
Hypothesis Hblocks :
  resolveBlocks (block_palette inp) blockDict defaultBlockId rawBlocks = Some blocks.
Hypothesis Hs0 : 1 ≤ s0.
Hypothesis Hs1 : 1 ≤ s1.
Hypothesis Hs2 : 1 ≤ s2.
Hypothesis Hfit : offsetsFit (mkSize s0 s1 s2).

Local Abbreviation sz := (mkSize s0 s1 s2).
Local Abbreviation cX := (exactCount s0).
Local Abbreviation cY := (exactCount s1).
Local Abbreviation cZ := (exactCount s2).

Lemma appended_step (x y z : Z) (st : list Section_) :
  0 ≤ x < cX → 0 ≤ y < cY → 0 ≤ z < cZ →
  appended outOfRangeBlockId s0 s1 s2 blocks (scanIndex cY cZ x y z) st →
  ∃ st',
    (sectionBlocks ← sectionBlocks blocks outOfRangeBlockId (sectionOffset sz x y z);
     Some (st ++ [mkSection (x *i 16) (y *i 16) (z *i 16) sectionBlocks]))
    = Some st' ∧ appended outOfRangeBlockId s0 s1 s2 blocks (scanIndex cY cZ x y (z + 1)) st'.
Proof.
  intros Hx Hy Hz [Hlen Hst].
  destruct (sectionOffset_exact sz Hs0 Hs1 Hfit x y z Hx Hy Hz) as (-> & -> & -> & ->).
  destruct (exactOffset_bounds sz Hs0 Hs1 Hfit x y z Hx Hy Hz) as (B1 & B2 & B3 & B4 & B5).
  destruct (sectionBlocks_window blocks outOfRangeBlockId (exactOffset sz x y z))
    as (sb & -> & Hsb); [unfold exactOffset; simpl; lia | done |].
  simpl. eexists. split; [done|].
  pose proof (scanIndex_bounds cX cY cZ x y z Hx Hy Hz) as Hn.
  split.
  - rewrite length_app, Hlen. unfold scanIndex in *. simpl. lia.
  - intros x' y' z' Hx' Hy' Hz' Hlt.
    pose proof (scanIndex_bounds cX cY cZ x' y' z' Hx' Hy' Hz') as Hn'.
    destruct (decide (scanIndex cY cZ x' y' z' = scanIndex cY cZ x y z)) as [Heq|Hne].
    + rewrite Heq. apply scanIndex_inj in Heq as (-> & -> & ->); try done.
      eexists. split.
      * rewrite lookup_app_r by lia. rewrite Hlen, Nat.sub_diag. done.
      * by do 3 (split; [done|]).
    + destruct (Hst x' y' z') as (s & Hs & Hsec); try done.
      { unfold scanIndex in *. lia. }
      exists s. split; [|done]. rewrite lookup_app_l; [done|]. by eapply lookup_lt_Some.
Qed.

Lemma convertToSections_scan :
  ∃ sections,
    convertToSections inp blockDict defaultBlockId outOfRangeBlockId = Some sections ∧
    length sections = Z.to_nat (cX * cY * cZ) ∧
    ∀ x y z, 0 ≤ x < cX → 0 ≤ y < cY → 0 ≤ z < cZ →
      ∃ s, sections !! Z.to_nat (scanIndex cY cZ x y z) = Some s ∧ isSection outOfRangeBlockId s0 s1 s2 blocks x y z s.
Proof.
  unfold convertToSections. rewrite Hsize. simpl. rewrite Hraw. simpl.
  rewrite Hblocks. simpl.
  destruct (sectionCount_exact sz Hs0 Hs1 Hs2 Hfit) as (E0 & E1 & E2).
  simpl in E0, E1, E2. rewrite E0, E1, E2.
  destruct (exactCount_pos _ Hs0) as [HcX _].
  destruct (exactCount_pos _ Hs1) as [HcY _].
  destruct (exactCount_pos _ Hs2) as [HcZ _].
    destruct (forEach_seqZ_inv (λ x, appended outOfRangeBlockId s0 s1 s2 blocks (scanIndex cY cZ x 0 0))
    (λ x sections,
      forEach (λ y sections,
        forEach (λ z sections,
            sectionBlocks ← sectionBlocks blocks outOfRangeBlockId (sectionOffset sz x y z);
            Some (sections ++ [mkSection (x *i 16) (y *i 16) (z *i 16) sectionBlocks]))
          (seqZ 0 cZ) sections)
        (seqZ 0 cY) sections)
    cX []) as (sections & Hloop & Hlen & Hall).
  - lia.
  - split; [done|]. intros x y z Hx Hy Hz Hlt.
    pose proof (scanIndex_bounds cX cY cZ x y z Hx Hy Hz). unfold scanIndex in *. lia.
  - intros x st Hx Hst.
    destruct (forEach_seqZ_inv (λ y, appended outOfRangeBlockId s0 s1 s2 blocks (scanIndex cY cZ x y 0))
      (λ y sections,
        forEach (λ z sections,
            sectionBlocks ← sectionBlocks blocks outOfRangeBlockId (sectionOffset sz x y z);
            Some (sections ++ [mkSection (x *i 16) (y *i 16) (z *i 16) sectionBlocks]))
          (seqZ 0 cZ) sections)
      cY st) as (st' & Hloop' & Hst').
    + lia.
    + done.
    + intros y st1 Hy Hst1.
      destruct (forEach_seqZ_inv (λ z, appended outOfRangeBlockId s0 s1 s2 blocks (scanIndex cY cZ x y z))
        (λ z sections,
            sectionBlocks ← sectionBlocks blocks outOfRangeBlockId (sectionOffset sz x y z);
            Some (sections ++ [mkSection (x *i 16) (y *i 16) (z *i 16) sectionBlocks]))
        cZ st1) as (st2 & Hloop2 & Hst2).
      * lia.
      * done.
      * intros z st2 Hz Hst2. by apply appended_step.
      * exists st2. split; [done|].
        replace (scanIndex cY cZ x (y + 1) 0) with (scanIndex cY cZ x y cZ)
          by (unfold scanIndex; lia). done.
    + exists st'. split; [done|].
      replace (scanIndex cY cZ (x + 1) 0 0) with (scanIndex cY cZ x cY 0)
        by (unfold scanIndex; lia). done.
  - exists sections. split; [done|]. split.
    + rewrite Hlen. f_equal. unfold scanIndex. lia.
    + intros x y z Hx Hy Hz. apply Hall; try done.
      pose proof (scanIndex_bounds cX cY cZ x y z Hx Hy Hz). unfold scanIndex in *. lia.
Qed.
End convert.

Lemma structure_sections_entries (inp : Input) (blockDict : gmap string Z)
    (defaultBlockId outOfRangeBlockId s0 s1 s2 : Z) (rawBlocks blocks : list Z) :
  size inp = [s0; s1; s2] →
  block_indices inp !! 0%nat = Some rawBlocks →
  resolveBlocks (block_palette inp) blockDict defaultBlockId rawBlocks = Some blocks →
  1 ≤ s0 → 1 ≤ s1 → 1 ≤ s2 → offsetsFit (mkSize s0 s1 s2) →
  ∃ sections,
    convertToSections inp blockDict defaultBlockId outOfRangeBlockId = Some sections ∧
    length sections = Z.to_nat (exactCount s0 * exactCount s1 * exactCount s2) ∧
    (∀ x y z, 0 ≤ x < exactCount s0 → 0 ≤ y < exactCount s1 → 0 ≤ z < exactCount s2 →
       ∃ s, sections !! Z.to_nat (scanIndex (exactCount s1) (exactCount s2) x y z) = Some s ∧
            isSection outOfRangeBlockId s0 s1 s2 blocks x y z s) ∧
    (∀ t s, sections !! t = Some s →
       ∃ x y z, 0 ≤ x < exactCount s0 ∧ 0 ≤ y < exactCount s1 ∧ 0 ≤ z < exactCount s2 ∧
         t = Z.to_nat (scanIndex (exactCount s1) (exactCount s2) x y z) ∧
         isSection outOfRangeBlockId s0 s1 s2 blocks x y z s).
Proof.
  intros Hsize Hraw Hblocks Hs0 Hs1 Hs2 Hfit.
  destruct (convertToSections_scan inp blockDict defaultBlockId outOfRangeBlockId
              s0 s1 s2 rawBlocks blocks Hsize Hraw Hblocks Hs0 Hs1 Hs2 Hfit)
    as (sections & Hconv & Hlen & Hall).
  exists sections. do 3 (split; [done|]).
  intros t s Hts. pose proof (lookup_lt_Some _ _ _ Hts) as Ht. rewrite Hlen in Ht.
  set (cY := exactCount s1) in *. set (cZ := exactCount s2) in *.
  destruct (exactCount_pos _ Hs1) as [HcY _]. destruct (exactCount_pos _ Hs2) as [HcZ _].
  fold cY in HcY. fold cZ in HcZ.
  set (n := Z.of_nat t).
  assert (Hn : 0 ≤ n < exactCount s0 * cY * cZ) by lia.
  assert (Hu : 0 ≤ n `div` cZ < exactCount s0 * cY).
  { split; [apply Z.div_pos; lia|]. apply Z.div_lt_upper_bound; lia. }
  assert (Hdec : n = scanIndex cY cZ ((n `div` cZ) `div` cY) ((n `div` cZ) `mod` cY) (n `mod` cZ)).
  { unfold scanIndex. pose proof (Z.div_mod n cZ). pose proof (Z.div_mod (n `div` cZ) cY). nia. }
  assert (Hx : 0 ≤ (n `div` cZ) `div` cY < exactCount s0).
  { split; [apply Z.div_pos; lia|]. apply Z.div_lt_upper_bound; lia. }
  assert (Hy : 0 ≤ (n `div` cZ) `mod` cY < cY) by (apply Z.mod_pos_bound; lia).
  assert (Hz : 0 ≤ n `mod` cZ < cZ) by (apply Z.mod_pos_bound; lia).
  exists ((n `div` cZ) `div` cY), ((n `div` cZ) `mod` cY), (n `mod` cZ).
  do 3 (split; [done|]). split; [rewrite <- Hdec; subst n; lia|].
  destruct (Hall _ _ _ Hx Hy Hz) as (s' & Hs' & Hsec).
  rewrite <- Hdec in Hs'. subst n. rewrite Nat2Z.id in Hs'.
  rewrite Hts in Hs'. by injection Hs' as ->.
Qed.

(** C3, amended.  When the palette resolution has produced the buffer [B]
    and the offsets of the section grid fit Go's [int] ([offsetsFit]; so
    it is for every volume below 2^31 blocks,
    [offsetsFit_of_block_count]), the converter returns, and
    in the section of every grid position (x, y, z) the cell [i] holds
    the out-of-range id -1 if [base + i >= len(B)] and [B[base + i]]
    otherwise, where [base = x*16*sizeX*sizeY + y*16*sizeX + z*16]; in the
    second case [base + i] is an index of [B]. *)
Theorem sections_out_of_range_fill (inp : Input) (blockDict : gmap string Z)
    (defaultBlockId s0 s1 s2 : Z) (rawBlocks B : list Z) :
  size inp = [s0; s1; s2] →
  block_indices inp !! 0%nat = Some rawBlocks →
  resolveBlocks (block_palette inp) blockDict defaultBlockId rawBlocks = Some B →
  1 ≤ s0 → 1 ≤ s1 → 1 ≤ s2 → offsetsFit (mkSize s0 s1 s2) →
  ∃ sections,
    convertToSections inp blockDict defaultBlockId OutOfRangeBlockId = Some sections ∧
    ∀ x y z, 0 ≤ x < exactCount s0 → 0 ≤ y < exactCount s1 → 0 ≤ z < exactCount s2 →
      ∃ s, sections !! Z.to_nat (scanIndex (exactCount s1) (exactCount s2) x y z) = Some s ∧
        length (Blocks s) = 4096%nat ∧
        ∀ i, 0 ≤ i < 4096 →
          let base := x * 16 * s0 * s1 + y * 16 * s0 + z * 16 in
          (len B ≤ base + i → Blocks s !! Z.to_nat i = Some (-1)) ∧
          (base + i < len B →
             0 ≤ base + i ∧ is_Some (B !! Z.to_nat (base + i)) ∧
             Blocks s !! Z.to_nat i = B !! Z.to_nat (base + i)).
Proof.
  intros Hsize Hraw Hblocks Hs0 Hs1 Hs2 Hfit.
  destruct (structure_sections_entries inp blockDict defaultBlockId OutOfRangeBlockId
              s0 s1 s2 rawBlocks B Hsize Hraw Hblocks Hs0 Hs1 Hs2 Hfit)
    as (sections & Hconv & _ & Hall & _).
  exists sections. split; [done|]. intros x y z Hx Hy Hz.
  destruct (Hall x y z Hx Hy Hz) as (s & Hs & _ & _ & _ & Hlen & Hcells).
  exists s. split; [done|]. split; [done|]. intros i Hi. exact (Hcells i Hi).
Qed.

Lemma forEach_head_None {A St : Type} (body : A → St → option St) (x : A) (l : list A)
    (s : St) :
  body x s = None → forEach body (x :: l) s = None.
Proof. intros H. simpl. by rewrite H. Qed.

(** C3 as the specification states it, for every input, fails where the
    offset leaves the range of [int].  With sizes (2^59, 17, 1) and the
    buffer [[0]], the section at grid position (0, 1, 0) has the base
    2^63, which is beyond the buffer, so cell 0 should hold -1; the
    offset wraps to -2^63, the test [i+offset >= len(blocks)] is false,
    and [blocks[i+offset]] panics: the converter does not return.  With
    sizes (2^60, 17, 1) and the buffer [[5]] the base is 2^64, the offset
    wraps to 0, and cell 0 holds [B[0] = 5], read through the wrapped
    index, where it should hold -1. *)
Lemma offset_overflow_breaks_fill :
  (0 ≤ 0 < exactCount (2 ^ 59) ∧ 0 ≤ 1 < exactCount 17 ∧ 0 ≤ 0 < exactCount 1) ∧
  len [0] ≤ exactOffset (mkSize (2 ^ 59) 17 1) 0 1 0 + 0 ∧
  sectionOffset (mkSize (2 ^ 59) 17 1) 0 1 0 = Int64.min_int ∧
  sectionCell [0] OutOfRangeBlockId (sectionOffset (mkSize (2 ^ 59) 17 1) 0 1 0) 0 = None ∧
  resolveBlocks ["minecraft:stone"%string] ∅ DefaultBlockId [0] = Some [0] ∧
  convertToSections (mkInput [2 ^ 59; 17; 1] [[0]] ["minecraft:stone"%string]) ∅
    DefaultBlockId OutOfRangeBlockId = None ∧
  (0 ≤ 0 < exactCount (2 ^ 60) ∧ 0 ≤ 1 < exactCount 17 ∧ 0 ≤ 0 < exactCount 1) ∧
  len [5] ≤ exactOffset (mkSize (2 ^ 60) 17 1) 0 1 0 + 0 ∧
  sectionOffset (mkSize (2 ^ 60) 17 1) 0 1 0 = 0 ∧
  sectionCell [5] OutOfRangeBlockId (sectionOffset (mkSize (2 ^ 60) 17 1) 0 1 0) 0 = Some 5 ∧
  ¬ offsetsFit (mkSize (2 ^ 59) 17 1) ∧ ¬ offsetsFit (mkSize (2 ^ 60) 17 1).
Proof.
  assert (Hres : resolveBlocks ["minecraft:stone"%string] ∅ DefaultBlockId [0] = Some [0])
    by (vm_compute; reflexivity).
  assert (HcX : (2 ^ 59 +i 15) /i 16 = 2 ^ 55) by (vm_compute; reflexivity).
  split; [vm_compute; repeat split; congruence|].
  split; [vm_compute; congruence|]. split; [vm_compute; reflexivity|].
  split; [vm_compute; reflexivity|]. split; [exact Hres|]. split.
  { unfold convertToSections.
    cbn [size block_indices block_palette lookup list_lookup mbind option_bind
         SizeX SizeY SizeZ].
    rewrite Hres. cbn [mbind option_bind]. rewrite HcX.
    rewrite (seqZ_cons 0 (2 ^ 55)) by (vm_compute; reflexivity).
    apply forEach_head_None. vm_compute. reflexivity. }
  split; [vm_compute; repeat split; congruence|].
  split; [vm_compute; congruence|]. split; [vm_compute; reflexivity|].
  split; [vm_compute; reflexivity|].
  split; apply (bool_decide_eq_false_1 _); vm_compute; reflexivity.
Qed.

(** The structure half of the ordering property. *)
Lemma structure_sections_row_major (inp : Input) (blockDict : gmap string Z)
    (defaultBlockId outOfRangeBlockId s0 s1 s2 : Z) (rawBlocks blocks : list Z) :
  size inp = [s0; s1; s2] →
  block_indices inp !! 0%nat = Some rawBlocks →
  resolveBlocks (block_palette inp) blockDict defaultBlockId rawBlocks = Some blocks →
  1 ≤ s0 → 1 ≤ s1 → 1 ≤ s2 → offsetsFit (mkSize s0 s1 s2) →
  ∃ sections,
    convertToSections inp blockDict defaultBlockId outOfRangeBlockId = Some sections ∧
    length sections = Z.to_nat (exactCount s0 * exactCount s1 * exactCount s2) ∧
    (∀ x y z, 0 ≤ x < exactCount s0 → 0 ≤ y < exactCount s1 → 0 ≤ z < exactCount s2 →
       ∃ s, sections !! Z.to_nat ((x * exactCount s1 + y) * exactCount s2 + z) = Some s ∧
            SecX s = x * 16 ∧ SecY s = y * 16 ∧ SecZ s = z * 16) ∧
    NoDup ((λ s, (SecX s, SecY s, SecZ s)) <$> sections).
Proof.
  intros Hsize Hraw Hblocks Hs0 Hs1 Hs2 Hfit.
  destruct (structure_sections_entries inp blockDict defaultBlockId outOfRangeBlockId
              s0 s1 s2 rawBlocks blocks Hsize Hraw Hblocks Hs0 Hs1 Hs2 Hfit)
    as (sections & Hconv & Hlen & Hall & Hentry).
  exists sections. do 2 (split; [done|]). split.
  - intros x y z Hx Hy Hz. destruct (Hall x y z Hx Hy Hz) as (s & Hs & HX & HY & HZ & _).
    by exists s.
  - apply NoDup_alt. intros t1 t2 o. rewrite !list_lookup_fmap.
    intros (u1 & Hu1 & ->)%fmap_Some (u2 & Hu2 & Heq)%fmap_Some.
    destruct (Hentry _ _ Hu1) as (x & y & z & _ & _ & _ & -> & HX1 & HY1 & HZ1 & _).
    destruct (Hentry _ _ Hu2) as (x' & y' & z' & _ & _ & _ & -> & HX2 & HY2 & HZ2 & _).
    injection Heq as E1 E2 E3.
    assert (x = x') as -> by lia. assert (y = y') as -> by lia. assert (z = z') as -> by lia.
    done.
Qed.

(** C7.  When every index of the buffer is a position of the palette, the
    resolution returns a buffer of the same length in which position [i]
    holds the dictionary's value of the palette name of index [i], and the
    default id where the dictionary has no such name; the default the
    program configures is 0. *)
Theorem resolveBlocks_correct (blockIndiceDict : list string) (blockDict : gmap string Z)
    (defaultBlockId : Z) (rawBlocks : list Z) :
  (∀ blockIndice, blockIndice ∈ rawBlocks → 0 ≤ blockIndice < len blockIndiceDict) →
  DefaultBlockId = 0 ∧
  ∃ blocks,
    resolveBlocks blockIndiceDict blockDict defaultBlockId rawBlocks = Some blocks ∧
    length blocks = length rawBlocks ∧
    ∀ i blockIndice, rawBlocks !! i = Some blockIndice →
      ∃ blockName, blockIndiceDict !! Z.to_nat blockIndice = Some blockName ∧
        (blockDict !! blockName = None → blocks !! i = Some defaultBlockId) ∧
        (∀ blockId, blockDict !! blockName = Some blockId → blocks !! i = Some blockId).
Proof.
  intros Hvalid. split; [done|]. unfold resolveBlocks.
  destruct (mapM_spec
    (λ blockIndice,
      blockName ← index blockIndiceDict blockIndice;
      Some (match blockDict !! blockName with
            | Some blockId => blockId
            | None => defaultBlockId
            end))
    (λ blockIndice v, ∃ blockName,
       blockIndiceDict !! Z.to_nat blockIndice = Some blockName ∧
       (blockDict !! blockName = None → v = defaultBlockId) ∧
       (∀ blockId, blockDict !! blockName = Some blockId → v = blockId))
    rawBlocks) as (blocks & Hblocks & Hall).
  { intros blockIndice Hin. specialize (Hvalid _ Hin). unfold index, len in *.
    rewrite decide_False by lia.
    destruct (lookup_lt_is_Some_2 blockIndiceDict (Z.to_nat blockIndice)) as [name Hname];
      [lia|].
    rewrite Hname. simpl. eexists. split; [done|]. exists name. split; [done|].
    destruct (blockDict !! name); split; (done || congruence). }
  exists blocks. split; [done|]. split; [symmetry; by eapply Forall2_length|].
  intros i blockIndice Hi.
  destruct (Forall2_lookup_l _ _ _ _ _ Hall Hi) as (v & Hv & name & Hname & Hnone & Hsome).
  exists name. split; [done|]. split.
  - intros Hn. by rewrite Hv, (Hnone Hn).
  - intros blockId Hs. by rewrite Hv, (Hsome _ Hs).
Qed.

(** C6.  There are a size and a position of its section grid at which the
    base offset is not the row-major index of the section origin:
    size (17, 1, 1), section (1, 0, 0), offset 272 against 16. *)
Theorem sectionOffset_not_row_major :
  ∃ size x y z,
    1 ≤ SizeX size ∧ 1 ≤ SizeY size ∧ 1 ≤ SizeZ size ∧
    0 ≤ x < (SizeX size +i 15) /i 16 ∧
    0 ≤ y < (SizeY size +i 15) /i 16 ∧
    0 ≤ z < (SizeZ size +i 15) /i 16 ∧
    sectionOffset size x y z = exactOffset size x y z ∧
    sectionOffset size x y z ≠ rowMajorIndex size x y z.
Proof.
  exists (mkSize 17 1 1), 1, 0, 0. vm_compute. repeat split; congruence.
Qed.

(** ** The structure converter: what [validateInput] lets through *)

Lemma ofFloat_in_range (arch : Int64.Arch) (f : Z) :
  Int64.in_range (Int64.ofFloat arch f).
Proof.
  unfold Int64.ofFloat, Int64.in_range. case_decide; [done|].
  destruct arch; [|case_decide]; unfold Int64.min_int, Int64.max_int; lia.
Qed.

Lemma ofFloat_id (arch : Int64.Arch) (f : Z) :
  Int64.in_range f → Int64.ofFloat arch f = f.
Proof. intros Hf. unfold Int64.ofFloat. by rewrite decide_True. Qed.

(** Below the range of [int] the conversion gives [min_int] on both
    architectures. *)
Lemma ofFloat_negative (arch : Int64.Arch) (f : Z) :
  f < 0 → Int64.ofFloat arch f < 0 ∧ (Int64.min_int ≤ f → Int64.ofFloat arch f = f).
Proof.
  intros Hf. unfold Int64.ofFloat. case_decide as Hin; [done|].
  split; [|unfold Int64.max_int in Hin; lia].
  destruct arch; [|rewrite decide_True by done]; unfold Int64.min_int; lia.
Qed.

Lemma maxIndex_spec (blocks : list Z) :
  0 ≤ maxIndex blocks ∧ (∀ v, v ∈ blocks → v ≤ maxIndex blocks) ∧
  (maxIndex blocks = 0 ∨ maxIndex blocks ∈ blocks).
Proof.
  unfold maxIndex.
  assert (H : ∀ acc,
    let r := foldl (λ e num, if decide (num > e) then num else e) acc blocks in
    acc ≤ r ∧ (∀ v, v ∈ blocks → v ≤ r) ∧ (r = acc ∨ r ∈ blocks)).
  { induction blocks as [|b blocks IH]; intros acc; simpl.
    - split; [lia|]. split; [|by left]. intros v Hv. by apply elem_of_nil in Hv.
    - specialize (IH (if decide (b > acc) then b else acc)). simpl in IH.
      destruct IH as (H1 & H2 & H3). split; [case_decide; lia|]. split.
      + intros v [->|Hv]%elem_of_cons; [case_decide; lia | by apply H2].
      + destruct H3 as [H3|H3]; [|right; by right].
        case_decide; [right; rewrite H3; by left | by left]. }
  destruct (H 0) as (H1 & H2 & H3). done.
Qed.

(** For a buffer with an entry that is not negative, the loop finds the
    largest entry. *)
Lemma maxIndex_isMaximum (blocks : list Z) :
  (∃ v, v ∈ blocks ∧ 0 ≤ v) → isMaximum (maxIndex blocks) blocks.
Proof.
  intros (v & Hv & Hpos). destruct (maxIndex_spec blocks) as (H1 & H2 & [H3|H3]).
  - split; [|done]. specialize (H2 v Hv). assert (v = maxIndex blocks) as <- by lia. done.
  - by split.
Qed.

(** What [validateInput] computes on an input with three sizes and a first
    index array. *)
Lemma validateInput_spec (arch : Int64.Arch) (inp : Input) (s0 s1 s2 : Z)
    (blocks : list Z) :
  size inp = [s0; s1; s2] →
  block_indices inp !! 0%nat = Some blocks →
  validateInput arch inp =
  Some (bool_decide (len blocks = s0 * s1 * s2 ∧
                     len (block_palette inp)
                     = maxIndex (Int64.ofFloat arch <$> blocks) +i 1)).
Proof.
  intros Hsize Hblocks. unfold validateInput. rewrite Hsize. simpl. rewrite Hblocks. simpl.
  destruct (decide (len blocks ≠ s0 * s1 * s2)) as [H1|H1].
  { by rewrite bool_decide_false by tauto. }
  destruct (decide (len (block_palette inp)
                    ≠ maxIndex (Int64.ofFloat arch <$> blocks) +i 1)) as [H2|H2].
  { by rewrite bool_decide_false by tauto. }
  rewrite bool_decide_true; [done|]. lia.
Qed.

(** The loop ignores what is negative, before and after the conversion:
    on indices that do not exceed the range of [int] it finds what it
    finds on the converted indices. *)
Lemma maxIndex_ofFloat (arch : Int64.Arch) (blocks : list Z) :
  (∀ v, v ∈ blocks → v ≤ Int64.max_int) →
  maxIndex (Int64.ofFloat arch <$> blocks) = maxIndex blocks.
Proof.
  unfold maxIndex. generalize (Z.le_refl 0). generalize 0 at 2 3 4 as acc.
  induction blocks as [|b blocks IH]; intros acc Hacc Hle; [done|]. simpl.
  assert (Hb : (if decide (Int64.ofFloat arch b > acc) then Int64.ofFloat arch b else acc)
               = (if decide (b > acc) then b else acc)).
  { destruct (decide (b < 0)) as [Hneg|Hpos].
    - destruct (ofFloat_negative arch b Hneg) as [Hn _]. by rewrite !decide_False by lia.
    - rewrite ofFloat_id; [done|]. split; [unfold Int64.min_int; lia|]. apply Hle. by left. }
  rewrite Hb. apply IH.
  - case_decide; lia.
  - intros v Hv. apply Hle. by right.
Qed.

(** On a buffer with an entry that is not negative, [validateInput] is the
    conjunction of the two equalities with the largest entry [m]. *)
Lemma validateInput_nonnegative (arch : Int64.Arch) (inp : Input) (s0 s1 s2 m : Z)
    (blocks : list Z) :
  size inp = [s0; s1; s2] →
  block_indices inp !! 0%nat = Some blocks →
  (∃ v, v ∈ blocks ∧ 0 ≤ v) → isMaximum m blocks → m < Int64.max_int →
  validateInput arch inp = Some true ↔
  len blocks = s0 * s1 * s2 ∧ len (block_palette inp) = m + 1.
Proof.
  intros Hsize Hblocks Hpos [Hm1 Hm2] Hm.
  destruct (maxIndex_isMaximum blocks Hpos) as [Hi1 Hi2].
  assert (maxIndex blocks = m) as Heq.
  { specialize (Hm2 _ Hi1). specialize (Hi2 _ Hm1). lia. }
  rewrite (validateInput_spec arch inp s0 s1 s2 blocks Hsize Hblocks).
  rewrite maxIndex_ofFloat by (intros v Hv; specialize (Hm2 _ Hv); lia).
  rewrite Heq.
  unfold Int64.add. rewrite wrap_in_range.
  - split.
    + intros [= Hb]. by apply bool_decide_eq_true in Hb.
    + intros Hb. f_equal. by apply bool_decide_eq_true.
  - destruct (maxIndex_spec blocks) as (H0 & _).
    unfold Int64.in_range, Int64.min_int, Int64.max_int in *. lia.
Qed.

(** C4.  [validateInput] accepts an input whose palette length is not the
    largest index plus one: the only index is -1, the palette has one
    name.  The loop that looks for the largest index starts from 0.  This
    is so on both architectures. *)
Theorem validateInput_accepts_negative_maximum :
  let inp := mkInput [1; 1; 1] [[-1]] ["minecraft:stone"%string] in
  schemaValid inp ∧
  len [-1] = 1 * 1 * 1 ∧
  isMaximum (-1) [-1] ∧
  len (block_palette inp) ≠ -1 + 1 ∧
  maxIndex [-1] = 0 ∧
  ∀ arch, validateInput arch inp = Some true.
Proof.
  cbv zeta. split; [apply (bool_decide_unpack _); by vm_compute|]. split; [done|].
  split; [split; [by left|]; by intros v ->%list_elem_of_singleton|].
  split; [done|]. split; [done|]. by intros [].
Qed.

(** C9.  An input that satisfies the schema and passes [validateInput]
    while holding the index -1: the palette lookup of
    [convertToSections] fails on it, whatever the dictionary and the
    architecture. *)
Theorem validated_input_with_negative_index_panics :
  ∃ inp rawBlocks blockIndice,
    schemaValid inp ∧
    (∀ arch, validateInput arch inp = Some true) ∧
    block_indices inp !! 0%nat = Some rawBlocks ∧
    len rawBlocks = 1 * 2 * 1 ∧
    len (block_palette inp) = maxIndex rawBlocks + 1 ∧
    blockIndice ∈ rawBlocks ∧ blockIndice < 0 ∧
    index (block_palette inp) blockIndice = None ∧
    ∀ blockDict defaultBlockId outOfRangeBlockId,
      resolveBlocks (block_palette inp) blockDict defaultBlockId rawBlocks = None ∧
      convertToSections inp blockDict defaultBlockId outOfRangeBlockId = None ∧
      ∀ arch, pipeline arch inp blockDict = Panicked.
Proof.
  exists (mkInput [1; 2; 1] [[0; -1]] ["minecraft:stone"%string]), [0; -1], (-1).
  split; [apply (bool_decide_unpack _); by vm_compute|]. split; [by intros []|].
  do 3 (split; [done|]).
  split; [by right; left|]. do 2 (split; [done|]).
  intros blockDict defaultBlockId outOfRangeBlockId.
  split; [reflexivity|]. split; [reflexivity|]. by intros [].
Qed.

Lemma sections_out_of_range_fill_witness :
  ∃ sections s,
    convertToSections exampleInput exampleDict DefaultBlockId OutOfRangeBlockId
      = Some sections ∧
    sections !! 0%nat = Some s ∧
    Blocks s !! 7%nat = Some 3 ∧ Blocks s !! 8%nat = Some (-1).
Proof.
  destruct (sections_out_of_range_fill exampleInput exampleDict DefaultBlockId 2 2 2
              [0; 1; 0; 1; 0; 1; 0; 1] [1; 3; 1; 3; 1; 3; 1; 3])
    as (sections & Hconv & Hcells).
  - reflexivity.
  - reflexivity.
  - vm_compute. reflexivity.
  - lia.
  - lia.
  - lia.
  - apply (bool_decide_unpack _). by vm_compute.
  - assert (Hx : 0 ≤ 0 < exactCount 2) by (change (exactCount 2) with 1; lia).
    destruct (Hcells 0 0 0 Hx Hx Hx) as (s & Hs & _ & Hwin).
    exists sections, s. split; [exact Hconv|]. split; [exact Hs|]. split.
    + destruct (Hwin 7) as [_ Hin]; [lia|].
      destruct Hin as (_ & _ & Heq); [unfold len; simpl; lia | exact Heq].
    + destruct (Hwin 8) as [Hout _]; [lia|]. apply (Hout : _ → _ !! (Z.to_nat 8) = _).
      unfold len. simpl. lia.
Defined.

Lemma resolveBlocks_correct_witness :
  ∃ blocks,
    resolveBlocks examplePalette exampleDict DefaultBlockId [0; 1; 2; 1] = Some blocks ∧
    length blocks = 4%nat ∧ blocks !! 1%nat = Some 3 ∧ blocks !! 2%nat = Some 0.
Proof.
  destruct (resolveBlocks_correct examplePalette exampleDict DefaultBlockId [0; 1; 2; 1])
    as (_ & blocks & Hres & Hlen & Hall).
  - intros blockIndice Hin%list_elem_of_In. unfold len. simpl in *. lia.
  - exists blocks. split; [exact Hres|]. split; [exact Hlen|]. split.
    + destruct (Hall 1%nat 1 eq_refl) as (name & Hname & _ & Hsome).
      injection Hname as <-. apply Hsome. by vm_compute.
    + destruct (Hall 2%nat 2 eq_refl) as (name & Hname & Hnone & _).
      injection Hname as <-. apply Hnone. by vm_compute.
Defined.

End StructureFacts.

(** ** Both converters: the order of the output *)

(** C8.  In both converters the output is in row-major order of the
    section grid (x outermost, then y, then z): the section of grid cell
    (i, j, k) stands at position [(i*cY + j)*cZ + k], there are as many
    sections as grid cells, the origin of each is 16 times its grid
    position, and no two sections have the same origin.  The dense
    converter is given a rectangular volume with extents that are
    multiples of 16; the structure converter an input whose indices
    resolve and whose offsets fit Go's [int]. *)
Theorem sections_row_major :
  (∀ (P : Volume) (X Y Z' : nat),
     rectangular P X Y Z' →
     (X `mod` 16 = 0)%nat → (Y `mod` 16 = 0)%nat → (Z' `mod` 16 = 0)%nat →
     (0 < X)%nat → (0 < Y)%nat →
     ∃ sections, Dense.convertToSections P = Some sections ∧
       length sections = (X / 16 * (Y / 16) * (Z' / 16))%nat ∧
       (∀ i j k, (i < X / 16)%nat → (j < Y / 16)%nat → (k < Z' / 16)%nat →
          ∃ s, sections !! ((i * (Y / 16) + j) * (Z' / 16) + k)%nat = Some s ∧
            Dense.SecX s = Z.of_nat (i * 16) ∧ Dense.SecY s = Z.of_nat (j * 16) ∧
            Dense.SecZ s = Z.of_nat (k * 16)) ∧
       NoDup ((λ s, (Dense.SecX s, Dense.SecY s, Dense.SecZ s)) <$> sections))
  ∧
  (∀ (inp : Structure.Input) (blockDict : gmap string Z)
     (defaultBlockId outOfRangeBlockId s0 s1 s2 : Z) (rawBlocks blocks : list Z),
     Structure.size inp = [s0; s1; s2] →
     Structure.block_indices inp !! 0%nat = Some rawBlocks →
     Structure.resolveBlocks (Structure.block_palette inp) blockDict defaultBlockId rawBlocks
       = Some blocks →
     1 ≤ s0 → 1 ≤ s1 → 1 ≤ s2 →
     StructureSpec.offsetsFit (Structure.mkSize s0 s1 s2) →
     let cX := StructureSpec.exactCount s0 in
     let cY := StructureSpec.exactCount s1 in
     let cZ := StructureSpec.exactCount s2 in
     ∃ sections,
       Structure.convertToSections inp blockDict defaultBlockId outOfRangeBlockId
         = Some sections ∧
       length sections = Z.to_nat (cX * cY * cZ) ∧
       (∀ x y z, 0 ≤ x < cX → 0 ≤ y < cY → 0 ≤ z < cZ →
          ∃ s, sections !! Z.to_nat ((x * cY + y) * cZ + z) = Some s ∧
            Structure.SecX s = x * 16 ∧ Structure.SecY s = y * 16 ∧
            Structure.SecZ s = z * 16) ∧
       NoDup ((λ s, (Structure.SecX s, Structure.SecY s, Structure.SecZ s)) <$> sections)).
Proof.
  split.
  - apply DenseFacts.dense_sections_row_major.
  - cbv zeta. apply StructureFacts.structure_sections_row_major.
Qed.

Lemma sections_row_major_witness :
  (∃ sections s, Dense.convertToSections DenseSpec.numberedVolume = Some sections ∧
     length sections = 2%nat ∧ sections !! 1%nat = Some s ∧ Dense.SecX s = 16) ∧
  (∃ sections s,
     Structure.convertToSections StructureSpec.exampleInput StructureSpec.exampleDict
       Structure.DefaultBlockId Structure.OutOfRangeBlockId = Some sections ∧
     length sections = 1%nat ∧ sections !! 0%nat = Some s ∧ Structure.SecX s = 0).
Proof.
  destruct sections_row_major as [Hdense Hstructure]. split.
  - destruct (Hdense DenseSpec.numberedVolume 32 16 16)%nat
      as (sections & Hconv & Hlen & Hgrid & _).
    + apply (bool_decide_unpack _). by vm_compute.
    + reflexivity.
    + reflexivity.
    + reflexivity.
    + lia.
    + lia.
    + destruct (Hgrid 1 0 0)%nat as (s & Hs & HX & _);
        [change (32 / 16)%nat with 2%nat; lia
        |change (16 / 16)%nat with 1%nat; lia
        |change (16 / 16)%nat with 1%nat; lia|].
      exists sections, s. split; [exact Hconv|]. split; [exact Hlen|].
      split; [exact Hs | exact HX].
  - destruct (Hstructure StructureSpec.exampleInput StructureSpec.exampleDict
                Structure.DefaultBlockId Structure.OutOfRangeBlockId 2 2 2
                [0; 1; 0; 1; 0; 1; 0; 1] [1; 3; 1; 3; 1; 3; 1; 3])
      as (sections & Hconv & Hlen & Hgrid & _).
    + reflexivity.
    + reflexivity.
    + vm_compute. reflexivity.
    + lia.
    + lia.
    + lia.
    + apply (bool_decide_unpack _). by vm_compute.
    + assert (Hx : 0 ≤ 0 < StructureSpec.exactCount 2)
        by (change (StructureSpec.exactCount 2) with 1; lia).
      destruct (Hgrid 0 0 0 Hx Hx Hx) as (s & Hs & HX & _).
      exists sections, s. split; [exact Hconv|]. split; [exact Hlen|].
      split; [exact Hs | exact HX].
Defined.

(** ** The dense converter: the steps of [main] together *)

Module DenseMore.
Import Dense DenseSpec DenseFacts.
Local Open Scope nat_scope.

Lemma sameLength_elem_of {A : Type} (l : list (list A)) :
  sameLength l ↔ ∀ x y, x ∈ l → y ∈ l → length x = length y.
Proof.
  split.
  - intros H x y [i Hi]%list_elem_of_lookup [j Hj]%list_elem_of_lookup. by eapply H.
  - intros H i j x y Hi Hj. apply H; apply list_elem_of_lookup; eauto.
Qed.

(** X1.  [validateArray] returns true exactly when all first-level rows
    have the same length and, inside each first-level row, all leaves
    have the same length.  Leaves of different rows are not compared. *)
Theorem validateArray_accepts_iff (V : Volume) :
  validateArray V = true ↔
  (∀ row row', row ∈ V → row' ∈ V → length row = length row') ∧
  (∀ row leaf leaf', row ∈ V → leaf ∈ row → leaf' ∈ row → length leaf = length leaf').
Proof.
  rewrite validateArray_true, sameLength_elem_of. split; intros [H1 H2]; (split; [done|]).
  - intros row leaf leaf' Hrow. by apply sameLength_elem_of, H2.
  - intros row Hrow. apply sameLength_elem_of. intros leaf leaf'. by apply H2.
Qed.

(** X2.  [validateArray] accepts every rectangular volume, whatever its
    extents (also the empty ones). *)
Theorem validateArray_accepts_rectangular (V : Volume) (X Y Z' : nat) :
  rectangular V X Y Z' → validateArray V = true.
Proof.
  intros [_ HV]. apply validateArray_true. split.
  - intros i j row row' Hrow Hrow'.
    destruct (Forall_lookup_1 _ _ _ _ HV Hrow) as [-> _].
    by destruct (Forall_lookup_1 _ _ _ _ HV Hrow') as [-> _].
  - intros row Hrow i j leaf leaf' Hleaf Hleaf'.
    destruct (proj1 (Forall_forall _ _) HV _ Hrow) as [_ Hall].
    rewrite (Forall_lookup_1 _ _ _ _ Hall Hleaf).
    by rewrite (Forall_lookup_1 _ _ _ _ Hall Hleaf').
Qed.

Lemma validateArray_accepts_rectangular_witness :
  validateArray smallVolume = true.
Proof.
  apply (validateArray_accepts_rectangular smallVolume 2 1 3).
  apply (bool_decide_unpack _). by vm_compute.
Defined.

Section padValidated.
Variables (V : Volume) (pad : Z) (row0 : list (list Z)) (leaf0 : list Z).
Hypothesis Hsame : sameLength V.
Hypothesis Hrow0 : V !! 0 = Some row0.
Hypothesis Hleaf0 : row0 !! 0 = Some leaf0.

Lemma copied_row_validated (i : nat) (st : Volume) :
  i < length V →
  copied V pad (length V) (length row0) (length leaf0) i 0 st →
  ∃ st',
    (row ← V !! i;
     forEach (λ j paddedArray,
         prow ← paddedArray !! i; dst ← prow !! j; src ← row !! j;
         Some (<[i := <[j := copy dst src]> prow]> paddedArray))
       (seq 0 (length row)) st) = Some st' ∧
    copied V pad (length V) (length row0) (length leaf0) (S i) 0 st'.
Proof.
  intros Hi Hst.
  destruct (lookup_lt_is_Some_2 V i Hi) as [row Hrow].
  pose proof (Hsame i 0 row row0 Hrow Hrow0) as Hlen.
  rewrite Hrow. simpl.
  destruct (forEach_seq_inv (copied V pad (length V) (length row0) (length leaf0) i)
    (λ j paddedArray,
         prow ← paddedArray !! i; dst ← prow !! j; src ← row !! j;
         Some (<[i := <[j := copy dst src]> prow]> paddedArray))
    0 (length row) st) as (st' & Hloop & [Hrect Hcells]).
  - done.
  - intros m t Hm Ht. apply copied_leaf; (done || lia).
  - exists st'. split; [done|]. split; [done|].
    intros i' j' k' Hi' Hj' Hk'. rewrite Hcells by done. f_equal.
    simpl. rewrite Hlen.
    destruct (decide (i' < i ∨ i' = i ∧ j' < length row0)),
             (decide (i' < S i ∨ i' = S i ∧ j' < 0)); try (done || lia).
    assert (i' = i) as -> by lia.
    unfold cell. rewrite Hrow. simpl. rewrite (lookup_ge_None_2 row) by lia. done.
Qed.

Lemma padArray_copied_validated :
  ∃ P, padArray V pad = Some P ∧
       copied V pad (length V) (length row0) (length leaf0) (length V) 0 P.
Proof.
  unfold padArray. rewrite Hrow0. simpl. rewrite Hleaf0. simpl.
  destruct (forEach_seq_inv
    (λ i, copied V pad (length V) (length row0) (length leaf0) i 0)
    (λ i paddedArray,
      row ← V !! i;
      forEach (λ j paddedArray,
          prow ← paddedArray !! i; dst ← prow !! j; src ← row !! j;
          Some (<[i := <[j := copy dst src]> prow]> paddedArray))
        (seq 0 (length row)) paddedArray)
    0 (length V)
    (replicate ((length V + 15) / 16 * 16)
       (replicate ((length row0 + 15) / 16 * 16)
          (replicate ((length leaf0 + 15) / 16 * 16) pad))))
    as (P & HP & Hinv).
  - apply copied_start.
  - intros i t Hi Ht. apply copied_row_validated; (done || lia).
  - exists P. split; [exact HP | exact Hinv].
Qed.
End padValidated.

(** When the copy loops are over, each cell holds the input cell at its
    position or, where the input has none, the padding. *)
Lemma padArray_validated_cells (V : Volume) (pad : Z) (row0 : list (list Z))
    (leaf0 : list Z) :
  sameLength V → V !! 0 = Some row0 → row0 !! 0 = Some leaf0 →
  ∃ P, padArray V pad = Some P ∧
    rectangular P ((length V + 15) / 16 * 16) ((length row0 + 15) / 16 * 16)
                  ((length leaf0 + 15) / 16 * 16) ∧
    ∀ i j k, i < (length V + 15) / 16 * 16 → j < (length row0 + 15) / 16 * 16 →
             k < (length leaf0 + 15) / 16 * 16 →
      cell P i j k = Some (default pad (cell V i j k)).
Proof.
  intros Hsame Hrow0 Hleaf0.
  destruct (padArray_copied_validated V pad row0 leaf0 Hsame Hrow0 Hleaf0)
    as (P & HP & Hrect & Hcells).
  exists P. split; [done|]. split; [done|].
  intros i j k Hi Hj Hk. rewrite Hcells by done. f_equal.
  case_decide as Hin; [done|].
  unfold cell. rewrite (lookup_ge_None_2 V) by lia. done.
Qed.

Lemma padArray_empty (V : Volume) (pad : Z) :
  V = [] ∨ V !! 0 = Some [] → padArray V pad = None.
Proof. intros [->|Hrow0]; [done|]. unfold padArray. rewrite Hrow0. done. Qed.

(** X3.  On an input that [validateArray] accepts and whose first row and
    first leaf exist, [padArray] returns a rectangular volume whose
    extents are [len(V)], [len(V[0])] and [len(V[0][0])] rounded up to
    multiples of 16; each of its cells holds the input cell at the same
    position when the input has one, and the padding value otherwise.
    Leaves of other rows that are longer than the padded length of
    [V[0][0]] lose their tail. *)
Theorem padArray_validated (V : Volume) (pad : Z) (row0 : list (list Z)) (leaf0 : list Z) :
  validateArray V = true → V !! 0 = Some row0 → row0 !! 0 = Some leaf0 →
  ∃ P, padArray V pad = Some P ∧
    rectangular P ((length V + 15) / 16 * 16) ((length row0 + 15) / 16 * 16)
                  ((length leaf0 + 15) / 16 * 16) ∧
    (∀ i j k, i < (length V + 15) / 16 * 16 → j < (length row0 + 15) / 16 * 16 →
              k < (length leaf0 + 15) / 16 * 16 →
       cell P i j k = Some (default pad (cell V i j k))) ∧
    (∀ i j k, (length leaf0 + 15) / 16 * 16 ≤ k → cell P i j k = None).
Proof.
  intros [Hsame _]%validateArray_true Hrow0 Hleaf0.
  destruct (padArray_validated_cells V pad row0 leaf0 Hsame Hrow0 Hleaf0)
    as (P & HP & Hrect & Hcells).
  exists P. do 3 (split; [done|]).
  intros i j k Hk. eapply rectangular_cell_None; [exact Hrect | lia].
Qed.

Lemma padArray_validated_witness :
  ∃ P, padArray raggedVolume (-1) = Some P ∧ rectangular P 16 16 16 ∧
       cell P 1 0 1 = Some 2%Z ∧ cell P 0 0 1 = Some (-1)%Z.
Proof.
  destruct (padArray_validated raggedVolume (-1) [[1%Z]] [1%Z])
    as (P & HP & Hrect & Hcells).
  - reflexivity.
  - reflexivity.
  - reflexivity.
  - exists P. split; [exact HP|]. split; [exact Hrect|]. split.
    + apply (proj1 Hcells 1 0 1); simpl; lia.
    + apply (proj1 Hcells 0 0 1); simpl; lia.
Defined.

(** X4.  After [validateArray] has accepted the input, [padArray] panics
    in exactly two cases: the input is empty, or its first row is. *)
Theorem padArray_panics_iff (V : Volume) (pad : Z) :
  validateArray V = true →
  (padArray V pad = None ↔ V = [] ∨ V !! 0 = Some []).
Proof.
  intros [Hsame _]%validateArray_true. split; [|apply padArray_empty].
  intros Hnone. destruct V as [|row0 V']; [by left|]. right.
  destruct row0 as [|leaf0 row0']; [done|].
  destruct (padArray_validated_cells (((leaf0 :: row0') :: V')) pad (leaf0 :: row0') leaf0)
    as (P & HP & _); (done || congruence).
Qed.

Lemma padArray_panics_iff_witness :
  padArray [[]; []] 7 = None ↔ ([[]; []] : Volume) = [] ∨ ([[]; []] : Volume) !! 0 = Some [].
Proof. apply padArray_panics_iff. reflexivity. Defined.

Lemma pipeline_converted (V : Volume) (row0 : list (list Z)) (leaf0 : list Z) :
  validateArray V = true → V !! 0 = Some row0 → row0 !! 0 = Some leaf0 →
  ∃ P sections,
    padArray V (-1) = Some P ∧ convertToSections P = Some sections ∧
    pipeline V = Converted sections ∧
    rectangular P ((length V + 15) / 16 * 16) ((length row0 + 15) / 16 * 16)
                  ((length leaf0 + 15) / 16 * 16).
Proof.
  intros Hvalid Hrow0 Hleaf0.
  pose proof (proj1 (proj1 (validateArray_true V) Hvalid)) as Hsame.
  destruct (padArray_validated_cells V (-1) row0 leaf0 Hsame Hrow0 Hleaf0)
    as (P & HP & Hrect & _).
  apply lookup_lt_Some in Hrow0 as HX. apply lookup_lt_Some in Hleaf0 as HY.
  destruct (dense_sections_entries P _ _ _ Hrect) as (sections & Hconv & _);
    [divlia..|].
  exists P, sections. do 2 (split; [done|]). split; [|done].
  unfold pipeline. rewrite Hvalid, HP. simpl. by rewrite Hconv.
Qed.

Lemma pipeline_Panicked_iff (V : Volume) :
  pipeline V = Panicked ↔ validateArray V = true ∧ (V = [] ∨ V !! 0 = Some []).
Proof.
  split.
  - intros Hpipe. destruct (validateArray V) eqn:Hvalid;
      [|by unfold pipeline in Hpipe; rewrite Hvalid in Hpipe].
    split; [done|]. destruct V as [|[|leaf0 row0'] V']; [by left | by right |].
    destruct (pipeline_converted ((leaf0 :: row0') :: V') (leaf0 :: row0') leaf0)
      as (P & sections & _ & _ & Hpipe' & _); (done || congruence).
  - intros [Hvalid Hempty]. unfold pipeline. by rewrite Hvalid, (padArray_empty V (-1) Hempty).
Qed.

(** X5.  The outcome of the dense program on a parsed input: it is
    rejected exactly when [validateArray] returns false; it panics exactly
    when [validateArray] returns true and the input or its first row is
    empty; in every other case the sections are produced. *)
Theorem pipeline_outcome (V : Volume) :
  (pipeline V = Rejected ↔ validateArray V = false) ∧
  (pipeline V = Panicked ↔ validateArray V = true ∧ (V = [] ∨ V !! 0 = Some [])) ∧
  ((∃ sections, pipeline V = Converted sections) ↔
   validateArray V = true ∧ ∃ row0 leaf0, V !! 0 = Some row0 ∧ row0 !! 0 = Some leaf0).
Proof.
  split; [|split; [apply pipeline_Panicked_iff|]].
  - unfold pipeline. destruct (validateArray V); [|done].
    by destruct (padArray V (-1) ≫= convertToSections).
  - split.
    + intros [sections Hpipe]. destruct (validateArray V) eqn:Hvalid;
        [|by unfold pipeline in Hpipe; rewrite Hvalid in Hpipe].
      split; [done|]. destruct V as [|[|leaf0 row0'] V'].
      * by rewrite (proj2 (pipeline_Panicked_iff _) (conj Hvalid (or_introl eq_refl)))
          in Hpipe.
      * by rewrite (proj2 (pipeline_Panicked_iff _) (conj Hvalid (or_intror eq_refl)))
          in Hpipe.
      * by eexists _, _.
    + intros (Hvalid & row0 & leaf0 & Hrow0 & Hleaf0).
      destruct (pipeline_converted V row0 leaf0 Hvalid Hrow0 Hleaf0)
        as (P & sections & _ & _ & Hpipe & _). by exists sections.
Qed.

(** X6.  On an accepted input with a first row and a first leaf the dense
    program produces one section per 16x16x16 cube of the padded extents;
    every position (x, y, z) inside the padded extents is found in the
    section with origin (16*(x/16), 16*(y/16), 16*(z/16)) at the local
    position (x mod 16, y mod 16, z mod 16), where it holds the input
    cell [V[x][y][z]] when the input has one and -1 otherwise. *)
Theorem pipeline_cells (V : Volume) (row0 : list (list Z)) (leaf0 : list Z) :
  validateArray V = true → V !! 0 = Some row0 → row0 !! 0 = Some leaf0 →
  ∃ sections, pipeline V = Converted sections ∧
    length sections =
      (length V + 15) / 16 * ((length row0 + 15) / 16) * ((length leaf0 + 15) / 16) ∧
    ∀ x y z, x < (length V + 15) / 16 * 16 → y < (length row0 + 15) / 16 * 16 →
             z < (length leaf0 + 15) / 16 * 16 →
      ∃ t s, sections !! t = Some s ∧
        SecX s = Z.of_nat (16 * (x / 16)) ∧ SecY s = Z.of_nat (16 * (y / 16)) ∧
        SecZ s = Z.of_nat (16 * (z / 16)) ∧
        cell (Blocks s) (x `mod` 16) (y `mod` 16) (z `mod` 16)
          = Some (default (-1)%Z (cell V x y z)).
Proof.
  intros Hvalid Hrow0 Hleaf0.
  pose proof (proj1 (proj1 (validateArray_true V) Hvalid)) as Hsame.
  destruct (padArray_validated_cells V (-1) row0 leaf0 Hsame Hrow0 Hleaf0)
    as (P & HP & Hrect & Hcells).
  apply lookup_lt_Some in Hrow0 as HX. apply lookup_lt_Some in Hleaf0 as HY.
  set (xS := (length V + 15) / 16 * 16) in *.
  set (yS := (length row0 + 15) / 16 * 16) in *.
  set (zS := (length leaf0 + 15) / 16 * 16) in *.
  assert (HxS : xS `mod` 16 = 0) by (subst xS; divlia).
  assert (HyS : yS `mod` 16 = 0) by (subst yS; divlia).
  assert (HzS : zS `mod` 16 = 0) by (subst zS; divlia).
  destruct (dense_sections_entries P xS yS zS Hrect HxS HyS HzS)
    as (sections & Hconv & Hlen & Hgrid & _); [subst xS; divlia | subst yS; divlia |].
  exists sections. split.
  { unfold pipeline. rewrite Hvalid, HP. simpl. by rewrite Hconv. }
  split.
  { rewrite Hlen. subst xS yS zS. f_equal; [f_equal|]; divlia. }
  intros x y z Hx Hy Hz.
  assert (Hi : x / 16 < xS / 16) by divlia.
  assert (Hj : y / 16 < yS / 16) by divlia.
  assert (Hk : z / 16 < zS / 16) by divlia.
  destruct (Hgrid _ _ _ Hi Hj Hk) as (s & Hs & HsX & HsY & HsZ & Hblocks).
  destruct (sectionBlocks_cube P xS yS zS Hrect HxS HyS HzS _ _ _ Hi Hj Hk)
    as (blocks & Hb & _ & Hcube).
  assert (blocks = Blocks s) as -> by congruence.
  exists (gridIndex (yS / 16) (zS / 16) (x / 16) (y / 16) (z / 16)), s.
  split; [done|].
  split; [rewrite HsX; f_equal; lia|].
  split; [rewrite HsY; f_equal; lia|].
  split; [rewrite HsZ; f_equal; lia|].
  rewrite Hcube by (apply Nat.mod_upper_bound; lia).
  rewrite <- (Hcells x y z Hx Hy Hz). f_equal; divlia.
Qed.

Lemma pipeline_cells_witness :
  ∃ sections, pipeline smallVolume = Converted sections ∧ length sections = 1 ∧
    ∃ t s, sections !! t = Some s ∧ SecX s = 0%Z ∧
      cell (Blocks s) 1 0 2 = Some 6%Z ∧ cell (Blocks s) 1 0 3 = Some (-1)%Z.
Proof.
  destruct (pipeline_cells smallVolume [[1; 2; 3]]%Z [1; 2; 3]%Z)
    as (sections & Hpipe & Hlen & Hcells).
  - reflexivity.
  - reflexivity.
  - reflexivity.
  - exists sections. split; [exact Hpipe|]. split; [exact Hlen|].
    destruct (Hcells 1 0 2) as (t & s & Hs & HX & _ & _ & Hc); [simpl; lia..|].
    destruct (Hcells 1 0 3) as (t' & s' & Hs' & HX' & HY' & HZ' & Hc'); [simpl; lia..|].
    exists t, s. split; [exact Hs|]. split; [exact HX|]. split; [exact Hc|].
    assert (length sections = 1) as Hone by exact Hlen.
    apply lookup_lt_Some in Hs as Ht. apply lookup_lt_Some in Hs' as Ht'.
    assert (t' = t) as -> by lia.
    assert (s' = s) as -> by congruence. exact Hc'.
Defined.

Lemma volume_ext (A B : Volume) (X Y Z' : nat) :
  rectangular A X Y Z' → rectangular B X Y Z' →
  (∀ i j k, i < X → j < Y → k < Z' → cell A i j k = cell B i j k) → A = B.
Proof.
  intros HA HB Hcells. apply list_eq_same_length with X; [apply HB | apply HA |].
  intros i rowA rowB Hi HrA HrB.
  destruct (rectangular_lookup _ _ _ _ i HA Hi) as (rowA' & HrA' & HlA & HleavesA).
  destruct (rectangular_lookup _ _ _ _ i HB Hi) as (rowB' & HrB' & HlB & HleavesB).
  assert (rowA' = rowA) as -> by congruence. assert (rowB' = rowB) as -> by congruence.
  apply list_eq_same_length with Y; [done | done |].
  intros j leafA leafB Hj HlfA HlfB.
  destruct (HleavesA j Hj) as (leafA' & HlfA' & HllA).
  destruct (HleavesB j Hj) as (leafB' & HlfB' & HllB).
  assert (leafA' = leafA) as -> by congruence. assert (leafB' = leafB) as -> by congruence.
  apply list_eq_same_length with Z'; [done | done |].
  intros k a b Hk Ha Hb. specialize (Hcells i j k Hi Hj Hk).
  unfold cell in Hcells. rewrite HrA, HrB in Hcells. simpl in Hcells.
  rewrite HlfA, HlfB in Hcells. simpl in Hcells. congruence.
Qed.

(** X7.  [padArray] returns a volume that is already padded unchanged: on
    a rectangular volume whose extents are multiples of 16 (the first
    two not 0) it returns the volume itself, for every padding value. *)
Theorem padArray_aligned_unchanged (P : Volume) (pad : Z) (X Y Z' : nat) :
  rectangular P X Y Z' →
  X `mod` 16 = 0 → Y `mod` 16 = 0 → Z' `mod` 16 = 0 → 0 < X → 0 < Y →
  padArray P pad = Some P.
Proof.
  intros HP HX HY HZ HX0 HY0.
  destruct (padArray_copied P pad X Y Z' HP HX0 HY0) as (P' & HP' & Hrect & Hcells).
  rewrite HP'. f_equal.
  replace ((X + 15) / 16 * 16) with X in * by divlia.
  replace ((Y + 15) / 16 * 16) with Y in * by divlia.
  replace ((Z' + 15) / 16 * 16) with Z' in * by divlia.
  apply (volume_ext P' P X Y Z'); [done | done |].
  intros i j k Hi Hj Hk. rewrite Hcells by done.
  destruct (rectangular_cell_Some P X Y Z' i j k HP Hi Hj Hk) as [v Hv].
  rewrite Hv. simpl. by rewrite decide_True by lia.
Qed.

Lemma padArray_aligned_unchanged_witness :
  padArray numberedVolume 0 = Some numberedVolume.
Proof.
  apply (padArray_aligned_unchanged numberedVolume 0 32 16 16).
  - apply (bool_decide_unpack _). by vm_compute.
  - reflexivity.
  - reflexivity.
  - reflexivity.
  - lia.
  - lia.
Defined.

(** X23.  Padding twice is padding once: on an input that [validateArray]
    accepts, the volume that [padArray] returns is returned unchanged by
    a second [padArray], whatever the second padding value. *)
Theorem padArray_idempotent (V P : Volume) (pad pad' : Z) :
  validateArray V = true → padArray V pad = Some P → padArray P pad' = Some P.
Proof.
  intros [Hsame _]%validateArray_true HP.
  destruct V as [|[|leaf0 row0'] V']; [done | done |].
  destruct (padArray_validated_cells ((leaf0 :: row0') :: V') pad (leaf0 :: row0') leaf0)
    as (P0 & HP0 & Hrect & _); [done..|].
  assert (P0 = P) as -> by congruence.
  remember ((length ((leaf0 :: row0') :: V') + 15) / 16 * 16) as X eqn:HX.
  remember ((length (leaf0 :: row0') + 15) / 16 * 16) as Y eqn:HY.
  remember ((length leaf0 + 15) / 16 * 16) as Z' eqn:HZ.
  cbn [length] in HX, HY.
  destruct (padArray_copied P pad' X Y Z' Hrect) as (P' & HP' & Hrect' & Hcells);
    [divlia | divlia |].
  rewrite HP'. f_equal.
  replace ((X + 15) / 16 * 16) with X in * by divlia.
  replace ((Y + 15) / 16 * 16) with Y in * by divlia.
  replace ((Z' + 15) / 16 * 16) with Z' in * by divlia.
  apply (volume_ext P' P X Y Z'); [done | done |].
  intros i j k Hi Hj Hk. rewrite Hcells by done.
  destruct (rectangular_cell_Some P X Y Z' i j k Hrect Hi Hj Hk) as [v Hv].
  rewrite Hv. simpl. by rewrite decide_True by lia.
Qed.

Lemma padArray_idempotent_witness :
  ∃ P, padArray raggedVolume (-1) = Some P ∧ padArray P 5 = Some P.
Proof.
  destruct (padArray raggedVolume (-1)) as [P|] eqn:HP; [|discriminate HP].
  exists P. split; [reflexivity|].
  apply (padArray_idempotent raggedVolume P (-1) 5); [reflexivity | exact HP].
Defined.

End DenseMore.

(** ** The structure converter: validation and conversion together *)

Module StructureMore.
Import Structure StructureSpec StructureFacts.

Lemma schemaValid_parts (inp : Input) :
  schemaValid inp →
  ∃ s0 s1 s2 B, size inp = [s0; s1; s2] ∧ 1 ≤ s0 ∧ 1 ≤ s1 ∧ 1 ≤ s2 ∧
                block_indices inp !! 0%nat = Some B.
Proof.
  intros (Hlen & Hpos & Hind & _ & _).
  destruct (size inp) as [|s0 [|s1 [|s2 [|]]]]; try done.
  destruct (block_indices inp) as [|B rest]; [simpl in Hind; lia|].
  exists s0, s1, s2, B. split; [done|].
  apply Forall_cons in Hpos as [? Hpos]. apply Forall_cons in Hpos as [? Hpos].
  apply Forall_cons in Hpos as [? _]. done.
Qed.

Lemma maxIndex_maximum (B : list Z) : isMaximum (maxIndex B) (0 :: B).
Proof.
  destruct (maxIndex_spec B) as (H0 & Hle & Hin). split.
  - destruct Hin as [->|Hin]; [by left | by right].
  - intros v [->|Hv]%elem_of_cons; [done | by apply Hle].
Qed.

Lemma isMaximum_unique (m m' : Z) (l : list Z) :
  isMaximum m l → isMaximum m' l → m = m'.
Proof. intros [H1 H2] [H1' H2']. specialize (H2 _ H1'). specialize (H2' _ H1). lia. Qed.

(** X8.  On an input that satisfies the schema and whose palette length
    is a value of Go's [int], [validateInput] does not panic, and it
    returns true exactly when the number of indices is the product of the
    three sizes and the palette length is one more than the largest of 0
    and the indices as [int(e.(float64))] converts them.  When no index
    exceeds the largest [int], 2^63 - 1, that is the largest of 0 and the
    indices themselves. *)
Theorem validateInput_accepts_iff (arch : Int64.Arch) (inp : Input) :
  schemaValid inp →
  len (block_palette inp) ≤ Int64.max_int →
  ∃ s0 s1 s2 B accepted,
    size inp = [s0; s1; s2] ∧ block_indices inp !! 0%nat = Some B ∧
    validateInput arch inp = Some accepted ∧
    (accepted = true ↔
       len B = s0 * s1 * s2 ∧
       ∃ m, isMaximum m (0 :: (Int64.ofFloat arch <$> B)) ∧
            len (block_palette inp) = m + 1) ∧
    ((∀ idx, idx ∈ B → idx ≤ Int64.max_int) →
     (accepted = true ↔
        len B = s0 * s1 * s2 ∧
        ∃ m, isMaximum m (0 :: B) ∧ len (block_palette inp) = m + 1)).
Proof.
  intros Hschema Hpal.
  destruct (schemaValid_parts inp Hschema) as (s0 & s1 & s2 & B & Hsize & _ & _ & _ & HB).
  exists s0, s1, s2, B. eexists. do 2 (split; [done|]).
  split; [by apply validateInput_spec|].
  assert (Hiff : ∀ L, (∀ v, v ∈ L → v ≤ Int64.max_int) →
            len B = s0 * s1 * s2 ∧ len (block_palette inp) = maxIndex L +i 1 ↔
            len B = s0 * s1 * s2 ∧
            ∃ m, isMaximum m (0 :: L) ∧ len (block_palette inp) = m + 1).
  { intros L HL. pose proof (maxIndex_maximum L) as Hmax.
    assert (Hm : 0 ≤ maxIndex L ≤ Int64.max_int).
    { destruct (maxIndex_spec L) as (H0 & _ & [->|Hin]); [done|]. split; [done|]. by apply HL. }
    split.
    - intros [Hcount Htypes]. split; [done|]. exists (maxIndex L). split; [done|].
      rewrite Htypes. unfold Int64.add.
      destruct (decide (maxIndex L = Int64.max_int)) as [Heq|Hne].
      + exfalso. rewrite Heq in Htypes.
        change (Int64.max_int +i 1) with (- 2 ^ 63) in Htypes. unfold len in Htypes. lia.
      + apply wrap_in_range. unfold Int64.in_range, Int64.min_int, Int64.max_int in *. lia.
    - intros [Hcount (m & Hm' & Htypes)]. split; [done|].
      rewrite Htypes. symmetry.
      assert (m = maxIndex L) as -> by (by eapply isMaximum_unique).
      apply wrap_in_range. unfold Int64.in_range, Int64.min_int, Int64.max_int in *. lia. }
  rewrite bool_decide_eq_true. split.
  - apply Hiff. intros v (f & -> & _)%list_elem_of_fmap. apply ofFloat_in_range.
  - intros Hint. rewrite maxIndex_ofFloat by done. by apply Hiff.
Qed.

Lemma validateInput_accepts_iff_witness :
  validateInput Int64.amd64 (mkInput [1; 1; 1] [[2 ^ 63]] ["minecraft:stone"%string])
  = Some true.
Proof.
  destruct (validateInput_accepts_iff Int64.amd64
              (mkInput [1; 1; 1] [[2 ^ 63]] ["minecraft:stone"%string]))
    as (s0 & s1 & s2 & B & accepted & Hsize & HB & Hv & Hiff & _).
  - apply (bool_decide_unpack _). by vm_compute.
  - by vm_compute.
  - rewrite Hv. f_equal. apply Hiff.
    injection Hsize as <- <- <-. injection HB as <-.
    split; [reflexivity|]. exists 0. split; [|reflexivity].
    split; [by left|].
    intros v Hin%list_elem_of_In. simpl in Hin.
    destruct Hin as [<-|[<-|[]]]; [lia|]. by vm_compute.
Defined.

Lemma resolveBlocks_is_Some (blockIndiceDict : list string) (blockDict : gmap string Z)
    (defaultBlockId : Z) (rawBlocks : list Z) :
  (∀ blockIndice, blockIndice ∈ rawBlocks → 0 ≤ blockIndice < len blockIndiceDict) →
  is_Some (resolveBlocks blockIndiceDict blockDict defaultBlockId rawBlocks).
Proof.
  intros Hvalid. apply mapM_is_Some, Forall_forall. intros idx Hin.
  specialize (Hvalid _ Hin). unfold index, len in *. simpl.
  rewrite decide_False by lia.
  destruct (lookup_lt_is_Some_2 blockIndiceDict (Z.to_nat idx)) as [name ->]; [lia|]. done.
Qed.

(** X9.  The palette resolution panics exactly when some index of the
    buffer is negative or not below the palette length; the dictionary and
    the default id play no part in it. *)
Theorem resolveBlocks_panics_iff (blockIndiceDict : list string)
    (blockDict : gmap string Z) (defaultBlockId : Z) (rawBlocks : list Z) :
  resolveBlocks blockIndiceDict blockDict defaultBlockId rawBlocks = None ↔
  ∃ blockIndice, blockIndice ∈ rawBlocks ∧
                 (blockIndice < 0 ∨ len blockIndiceDict ≤ blockIndice).
Proof.
  unfold resolveBlocks. rewrite mapM_None, Exists_exists.
  split; intros (idx & Hin & Hbad); exists idx; (split; [done|]).
  - unfold index in Hbad. case_decide as Hneg; [by left|]. right.
    destruct (blockIndiceDict !! Z.to_nat idx) as [name|] eqn:Hname; [done|].
    apply lookup_ge_None_1 in Hname. unfold len. lia.
  - unfold index. case_decide as Hneg; [done|].
    rewrite (lookup_ge_None_2 blockIndiceDict) by (unfold len in Hbad; lia). done.
Qed.

Lemma validated_indices_in_palette (arch : Int64.Arch) (inp : Input) (s0 s1 s2 : Z)
    (B : list Z) :
  size inp = [s0; s1; s2] → block_indices inp !! 0%nat = Some B →
  validateInput arch inp = Some true →
  (∀ idx, idx ∈ B → 0 ≤ idx ≤ Int64.max_int) →
  len B = s0 * s1 * s2 ∧ ∀ idx, idx ∈ B → 0 ≤ idx < len (block_palette inp).
Proof.
  intros Hsize HB Hvalid Hint.
  rewrite (validateInput_spec arch inp s0 s1 s2 B Hsize HB) in Hvalid.
  rewrite maxIndex_ofFloat in Hvalid by (intros v Hv; by apply Hint).
  injection Hvalid as [Hcount Htypes]%bool_decide_eq_true. split; [done|].
  destruct (maxIndex_spec B) as (H0 & Hle & Hin).
  assert (Hm : maxIndex B ≤ Int64.max_int).
  { destruct Hin as [->|Hin]; [done|]. by apply Hint. }
  assert (Hwrap : maxIndex B +i 1 = maxIndex B + 1).
  { unfold Int64.add. destruct (decide (maxIndex B = Int64.max_int)) as [Heq|Hne].
    - exfalso. rewrite Heq in Htypes.
      change (Int64.max_int +i 1) with (- 2 ^ 63) in Htypes. unfold len in Htypes. lia.
    - apply wrap_in_range. unfold Int64.in_range, Int64.min_int, Int64.max_int in *. lia. }
  intros idx Hidx. specialize (Hle _ Hidx). specialize (Hint _ Hidx). lia.
Qed.

Lemma validated_converts (arch : Int64.Arch) (inp : Input) (blockDict : gmap string Z)
    (s0 s1 s2 : Z) (B : list Z) :
  schemaValid inp →
  size inp = [s0; s1; s2] → block_indices inp !! 0%nat = Some B →
  validateInput arch inp = Some true →
  (∀ idx, idx ∈ B → 0 ≤ idx ≤ Int64.max_int) →
  len B < 2 ^ 31 →
  ∃ sections, pipeline arch inp blockDict = Converted sections ∧
    length sections = Z.to_nat (exactCount s0 * exactCount s1 * exactCount s2).
Proof.
  intros Hschema Hsize HB Hvalid Hint Hsmall.
  destruct (schemaValid_parts inp Hschema) as (t0 & t1 & t2 & B' & Hsize' & H0 & H1 & H2 & _).
  rewrite Hsize in Hsize'. injection Hsize' as <- <- <-.
  destruct (validated_indices_in_palette arch inp s0 s1 s2 B Hsize HB Hvalid Hint)
    as [Hcount Hrange].
  destruct (resolveBlocks_is_Some (block_palette inp) blockDict DefaultBlockId B Hrange)
    as [blocks Hres].
  destruct (structure_sections_entries inp blockDict DefaultBlockId OutOfRangeBlockId
              s0 s1 s2 B blocks Hsize HB Hres H0 H1 H2)
    as (sections & Hconv & Hlen & _).
  { apply offsetsFit_of_block_count; (done || lia). }
  exists sections. split; [|done]. unfold pipeline. by rewrite Hvalid, Hconv.
Qed.

(** X10.  An input that satisfies the schema, passes [validateInput], has
    fewer than 2^31 blocks and only indices from 0 to the largest [int],
    2^63 - 1, is converted without a panic, whatever the dictionary and
    the architecture: the program produces [cx * cy * cz] sections, where
    [c] is the size divided by 16 and rounded up.  (An index of 2^63 or
    more is outside this statement: on amd64 [validateInput] ignores it
    and the palette lookup then panics.) *)
Theorem validated_nonnegative_input_converts (arch : Int64.Arch) (inp : Input)
    (blockDict : gmap string Z) (s0 s1 s2 : Z) (B : list Z) :
  schemaValid inp →
  size inp = [s0; s1; s2] → block_indices inp !! 0%nat = Some B →
  validateInput arch inp = Some true →
  (∀ idx, idx ∈ B → 0 ≤ idx ≤ Int64.max_int) →
  len B < 2 ^ 31 →
  ∃ sections cx cy cz,
    pipeline arch inp blockDict = Converted sections ∧
    length sections = Z.to_nat (cx * cy * cz) ∧
    cx * 16 - 16 < s0 ≤ cx * 16 ∧ cy * 16 - 16 < s1 ≤ cy * 16 ∧
    cz * 16 - 16 < s2 ≤ cz * 16.
Proof.
  intros Hschema Hsize HB Hvalid Hint Hsmall.
  destruct (validated_converts arch inp blockDict s0 s1 s2 B) as (sections & Hpipe & Hlen);
    try done.
  destruct (schemaValid_parts inp Hschema) as (t0 & t1 & t2 & B' & Hsize' & H0 & H1 & H2 & _).
  rewrite Hsize in Hsize'. injection Hsize' as <- <- <-.
  exists sections, (exactCount s0), (exactCount s1), (exactCount s2).
  do 2 (split; [done|]).
  destruct (exactCount_pos s0 H0), (exactCount_pos s1 H1), (exactCount_pos s2 H2). lia.
Qed.

Lemma validated_nonnegative_input_converts_witness :
  ∃ sections, pipeline Int64.arm64 exampleInput exampleDict = Converted sections ∧
              length sections = 1%nat.
Proof.
  destruct (validated_nonnegative_input_converts Int64.arm64 exampleInput exampleDict 2 2 2
              [0; 1; 0; 1; 0; 1; 0; 1])
    as (sections & cx & cy & cz & Hpipe & Hlen & Hx & Hy & Hz).
  - apply (bool_decide_unpack _). by vm_compute.
  - reflexivity.
  - reflexivity.
  - by vm_compute.
  - intros idx Hin%list_elem_of_In. simpl in Hin. unfold Int64.max_int. lia.
  - by vm_compute.
  - exists sections. split; [exact Hpipe|].
    assert (cx = 1) as -> by lia. assert (cy = 1) as -> by lia.
    assert (cz = 1) as -> by lia. exact Hlen.
Defined.

(** X11.  The sections are windows on one flat buffer: two cells of two
    sections hold the same value whenever their flat offsets
    [offset + i] agree.  Sections that are neighbours along z have
    offsets 16 apart, so cell [i] of the second is cell [i + 16] of the
    first: the windows overlap. *)
Theorem section_windows_share_cells (inp : Input) (blockDict : gmap string Z)
    (defaultBlockId outOfRangeBlockId s0 s1 s2 : Z) (rawBlocks B : list Z) :
  size inp = [s0; s1; s2] →
  block_indices inp !! 0%nat = Some rawBlocks →
  resolveBlocks (block_palette inp) blockDict defaultBlockId rawBlocks = Some B →
  1 ≤ s0 → 1 ≤ s1 → 1 ≤ s2 → offsetsFit (mkSize s0 s1 s2) →
  ∃ sections,
    convertToSections inp blockDict defaultBlockId outOfRangeBlockId = Some sections ∧
    (∀ x y z x' y' z' i i',
       0 ≤ x < exactCount s0 → 0 ≤ y < exactCount s1 → 0 ≤ z < exactCount s2 →
       0 ≤ x' < exactCount s0 → 0 ≤ y' < exactCount s1 → 0 ≤ z' < exactCount s2 →
       0 ≤ i < 4096 → 0 ≤ i' < 4096 →
       exactOffset (mkSize s0 s1 s2) x y z + i = exactOffset (mkSize s0 s1 s2) x' y' z' + i' →
       ∃ s s' v,
         sections !! Z.to_nat (scanIndex (exactCount s1) (exactCount s2) x y z) = Some s ∧
         sections !! Z.to_nat (scanIndex (exactCount s1) (exactCount s2) x' y' z') = Some s' ∧
         Blocks s !! Z.to_nat i = Some v ∧ Blocks s' !! Z.to_nat i' = Some v) ∧
    (∀ x y z i,
       0 ≤ x < exactCount s0 → 0 ≤ y < exactCount s1 → 0 ≤ z → z + 1 < exactCount s2 →
       0 ≤ i < 4080 →
       ∃ s s' v,
         sections !! Z.to_nat (scanIndex (exactCount s1) (exactCount s2) x y z) = Some s ∧
         sections !! Z.to_nat (scanIndex (exactCount s1) (exactCount s2) x y (z + 1)) = Some s' ∧
         Blocks s !! Z.to_nat (i + 16) = Some v ∧ Blocks s' !! Z.to_nat i = Some v).
Proof.
  intros Hsize Hraw Hres H0 H1 H2 Hfit.
  destruct (structure_sections_entries inp blockDict defaultBlockId outOfRangeBlockId
              s0 s1 s2 rawBlocks B Hsize Hraw Hres H0 H1 H2 Hfit)
    as (sections & Hconv & _ & Hall & _).
  exists sections. split; [done|].
  assert (Hshare : ∀ x y z x' y' z' i i',
       0 ≤ x < exactCount s0 → 0 ≤ y < exactCount s1 → 0 ≤ z < exactCount s2 →
       0 ≤ x' < exactCount s0 → 0 ≤ y' < exactCount s1 → 0 ≤ z' < exactCount s2 →
       0 ≤ i < 4096 → 0 ≤ i' < 4096 →
       exactOffset (mkSize s0 s1 s2) x y z + i = exactOffset (mkSize s0 s1 s2) x' y' z' + i' →
       ∃ s s' v,
         sections !! Z.to_nat (scanIndex (exactCount s1) (exactCount s2) x y z) = Some s ∧
         sections !! Z.to_nat (scanIndex (exactCount s1) (exactCount s2) x' y' z') = Some s' ∧
         Blocks s !! Z.to_nat i = Some v ∧ Blocks s' !! Z.to_nat i' = Some v).
  { intros x y z x' y' z' i i' Hx Hy Hz Hx' Hy' Hz' Hi Hi' Heq.
    destruct (Hall x y z Hx Hy Hz) as (s & Hs & _ & _ & _ & _ & Hwin).
    destruct (Hall x' y' z' Hx' Hy' Hz') as (s' & Hs' & _ & _ & _ & _ & Hwin').
    destruct (Hwin i Hi) as [Hout Hin]. destruct (Hwin' i' Hi') as [Hout' Hin'].
    exists s, s'.
    destruct (decide (len B ≤ exactOffset (mkSize s0 s1 s2) x y z + i)) as [Hge|Hlt].
    - exists outOfRangeBlockId. do 2 (split; [done|]). split; [by apply Hout|].
      apply Hout'. lia.
    - destruct Hin as (_ & [v Hv] & Hcell); [lia|].
      destruct Hin' as (_ & _ & Hcell'); [lia|].
      exists v. do 2 (split; [done|]). split; [by rewrite Hcell|].
      rewrite Hcell', <- Heq. done. }
  split; [exact Hshare|].
  intros x y z i Hx Hy Hz Hz' Hi.
  destruct (Hshare x y z x y (z + 1) (i + 16) i) as (s & s' & v & ? & ? & ? & ?);
    try lia.
  { unfold exactOffset. simpl. lia. }
  exists s, s', v. done.
Qed.

Lemma section_windows_share_cells_witness :
  ∃ sections s s' v,
    convertToSections (mkInput [1; 1; 32] [replicate 32 0] ["minecraft:stone"%string])
      exampleDict DefaultBlockId OutOfRangeBlockId = Some sections ∧
    sections !! 0%nat = Some s ∧ sections !! 1%nat = Some s' ∧
    Blocks s !! 20%nat = Some v ∧ Blocks s' !! 4%nat = Some v.
Proof.
  assert (Hc1 : exactCount 1 = 1) by reflexivity.
  assert (Hc32 : exactCount 32 = 2) by reflexivity.
  destruct (section_windows_share_cells
              (mkInput [1; 1; 32] [replicate 32 0] ["minecraft:stone"%string])
              exampleDict DefaultBlockId OutOfRangeBlockId 1 1 32
              (replicate 32 0) (replicate 32 1))
    as (sections & Hconv & _ & Hshift).
  - reflexivity.
  - reflexivity.
  - vm_compute. reflexivity.
  - lia.
  - lia.
  - lia.
  - apply (bool_decide_unpack _). by vm_compute.
  - rewrite Hc1, Hc32 in Hshift.
    destruct (Hshift 0 0 0 4) as (s & s' & v & Hs & Hs' & Hv & Hv'); [lia..|].
    exists sections, s, s', v. split; [exact Hconv|].
    split; [exact Hs|]. split; [exact Hs'|]. split; [exact Hv | exact Hv'].
Defined.

(** X12.  When no size exceeds 16 the structure converter returns a single
    section with origin (0, 0, 0) whose blocks are the resolved buffer
    (its first 4096 entries) followed by the out-of-range id up to
    length 4096. *)
Theorem small_structure_single_section (inp : Input) (blockDict : gmap string Z)
    (defaultBlockId outOfRangeBlockId s0 s1 s2 : Z) (rawBlocks B : list Z) :
  size inp = [s0; s1; s2] →
  block_indices inp !! 0%nat = Some rawBlocks →
  resolveBlocks (block_palette inp) blockDict defaultBlockId rawBlocks = Some B →
  1 ≤ s0 ≤ 16 → 1 ≤ s1 ≤ 16 → 1 ≤ s2 ≤ 16 →
  convertToSections inp blockDict defaultBlockId outOfRangeBlockId =
  Some [mkSection 0 0 0 (take 4096 B ++ replicate (4096 - length B) outOfRangeBlockId)].
Proof.
  intros Hsize Hraw Hres H0 H1 H2.
  assert (Hc : ∀ n, 1 ≤ n ≤ 16 → exactCount n = 1).
  { intros n Hn. destruct (exactCount_pos n) as [? ?]; lia. }
  destruct (structure_sections_entries inp blockDict defaultBlockId outOfRangeBlockId
              s0 s1 s2 rawBlocks B Hsize Hraw Hres) as (sections & Hconv & Hlen & Hall & _);
    [lia | lia | lia | |].
  { apply offsetsFit_of_block_count; try lia.
    assert (s0 * s1 ≤ 16 * 16) by (apply Z.mul_le_mono_nonneg; lia).
    assert (s0 * s1 * s2 ≤ 16 * 16 * 16) by (apply Z.mul_le_mono_nonneg; lia). lia. }
  rewrite Hconv. f_equal. rewrite !Hc in * by done.
  destruct (Hall 0 0 0) as (s & Hs & HX & HY & HZ & Hwlen & Hwin); [lia..|].
  destruct sections as [|s' [|]]; try done. injection Hs as ->. f_equal.
  destruct s as [sx sy sz blocks]. simpl in *. subst sx sy sz. f_equal.
  apply list_eq_same_length with 4096%nat; [|done|].
  { rewrite length_app, length_take, length_replicate. lia. }
  intros i a b Hi Ha Hb.
  destruct (Hwin (Z.of_nat i)) as [Hout Hin]; [lia|].
  rewrite Nat2Z.id in Hout, Hin. unfold exactOffset, len in *. simpl in *.
  destruct (decide (length B ≤ i)%nat) as [Hge|Hlt].
  - rewrite Hout in Ha by lia.
    rewrite lookup_app_r in Hb by (rewrite length_take; lia).
    apply lookup_replicate in Hb as [-> _]. congruence.
  - destruct Hin as (_ & _ & Hcell); [lia|].
    replace (0 * 16 * s0 * s1 + 0 * 16 * s0 + 0 * 16 + Z.of_nat i) with (Z.of_nat i)
      in Hcell by lia.
    rewrite Nat2Z.id in Hcell.
    rewrite lookup_app_l in Hb by (rewrite length_take; lia).
    rewrite lookup_take_lt in Hb by lia. congruence.
Qed.

Lemma small_structure_single_section_witness :
  convertToSections exampleInput exampleDict DefaultBlockId OutOfRangeBlockId =
  Some [mkSection 0 0 0 ([1; 3; 1; 3; 1; 3; 1; 3] ++ replicate 4088 (-1))].
Proof.
  apply (small_structure_single_section exampleInput exampleDict DefaultBlockId
           OutOfRangeBlockId 2 2 2 [0; 1; 0; 1; 0; 1; 0; 1] [1; 3; 1; 3; 1; 3; 1; 3]).
  - reflexivity.
  - reflexivity.
  - vm_compute. reflexivity.
  - lia.
  - lia.
  - lia.
Defined.

End StructureMore.

(** ** The two [main] functions *)

Module CliFacts.
Import Cli.

Lemma substring_all (s : string) : String.substring 0 (String.length s) s = s.
Proof. induction s as [|c s IH]; simpl; [done|]. by rewrite IH. Qed.

Lemma substring_split (s : string) (n : nat) :
  (n ≤ String.length s)%nat →
  (String.substring 0 n s +:+ String.substring n (String.length s - n) s)%string = s.
Proof.
  revert n. induction s as [|c s IH]; intros n Hn.
  - by destruct n.
  - destruct n as [|n].
    + change (String.substring 0 (String.length (String c s)) (String c s) = String c s).
      apply substring_all.
    + change (String c (String.substring 0 n s +:+
                        String.substring n (String.length s - n) s)%string = String c s).
      f_equal. apply IH. simpl in Hn. lia.
Qed.

Lemma length_append (a b : string) :
  String.length (a +:+ b) = (String.length a + String.length b)%nat.
Proof.
  induction a as [|c a IH]; [done|].
  change (S (String.length (a +:+ b)) = S (String.length a + String.length b)). by rewrite IH.
Qed.

(** A name with the suffix is what [trimSuffix] leaves, followed by the suffix. *)
Lemma hasSuffix_trimSuffix (s suffix : string) :
  hasSuffix s suffix = true → s = (trimSuffix s suffix +:+ suffix)%string.
Proof.
  intros Hs. unfold trimSuffix. rewrite Hs. unfold hasSuffix in Hs.
  apply andb_true_iff in Hs as [Hlen%bool_decide_eq_true Heq%String.eqb_eq].
  etransitivity;
    [symmetry; apply (substring_split s (String.length s - String.length suffix)); lia|].
  f_equal.
  replace (String.length s - (String.length s - String.length suffix))%nat
    with (String.length suffix) by lia.
  exact Heq.
Qed.

Lemma outputName_differs (input : string) :
  hasSuffix input ".json" = true →
  (trimSuffix input ".json" +:+ ".level.json")%string ≠ input.
Proof.
  intros Hs Heq. pose proof (hasSuffix_trimSuffix _ _ Hs) as Hin.
  apply (f_equal String.length) in Heq, Hin.
  rewrite length_append in Heq, Hin. simpl in *. lia.
Qed.

Section programs.
Context {Bytes : Type}.
Variable readFile : string → option Bytes.
Variable writeFile : string → Bytes → bool.
Variable arch : Int64.Arch.

(** X13.  When the dense program writes a file, it was started with
    exactly one argument after the program name, that argument is
    [base ++ ".json"], the file written is [base ++ ".level.json"] (never
    the input file itself), and its content is the serialisation of the
    sections that the pipeline produced from the decoded input, which
    passed the schema check and [validateArray]. *)
Theorem denseMain_wrote
    (validate : Bytes → option bool) (unmarshal : Bytes → option Volume)
    (marshal : LevelData Dense.Section_ → option Bytes)
    (args : list string) (fileName : string) (content : Bytes) :
  denseMain readFile writeFile validate unmarshal marshal args = Wrote fileName content →
  ∃ program input base jsonContent inputArray sections,
    args = [program; input] ∧
    input = (base +:+ ".json")%string ∧
    fileName = (base +:+ ".level.json")%string ∧
    fileName ≠ input ∧
    readFile input = Some jsonContent ∧
    validate jsonContent = Some true ∧
    unmarshal jsonContent = Some inputArray ∧
    Dense.validateArray inputArray = true ∧
    Dense.pipeline inputArray = Converted sections ∧
    marshal (levelData sections) = Some content ∧
    writeFile fileName content = true.
Proof.
  unfold denseMain. intros Hmain.
  destruct (decide (length args < 2)%nat); [by destruct (args !! 0%nat)|].
  destruct (decide (2 < length args)%nat); [by destruct (args !! 0%nat)|].
  destruct args as [|program [|input [|]]]; simpl in *; try lia.
  destruct (hasSuffix input ".json") eqn:Hsuffix; simpl in Hmain; [|done].
  destruct (readFile input) as [jsonContent|] eqn:Hread; [|done].
  destruct (validate jsonContent) as [[|]|] eqn:Hvalidate; try done.
  destruct (unmarshal jsonContent) as [inputArray|] eqn:Hparse; [|done].
  destruct (Dense.pipeline inputArray) as [| |sections] eqn:Hpipe; try done.
  destruct (marshal (levelData sections)) as [levelDataJson|] eqn:Hmarshal; [|done].
  destruct (writeFile _ levelDataJson) eqn:Hwrite; [|done].
  injection Hmain as <- <-.
  exists program, input, (trimSuffix input ".json"), jsonContent, inputArray, sections.
  split; [done|]. split; [by apply hasSuffix_trimSuffix|]. split; [done|].
  split; [by apply outputName_differs|]. do 3 (split; [done|]).
  split; [|done]. unfold Dense.pipeline in Hpipe. by destruct (Dense.validateArray inputArray).
Qed.

(** X15.  When the structure program writes a file, it was started with
    exactly two arguments after the program name, both ending in
    [".json"]; the file written is the input name with [".json"] replaced
    by [".level.json"] (never the input file itself), and its content is
    the serialisation of the sections converted from the decoded input,
    which passed both schema checks and [validateInput].  This is so on
    both architectures. *)
Theorem structureMain_wrote
    (validateInputFile : Bytes → option bool)
    (unmarshalInput : Bytes → option Structure.Input)
    (validateDict : Bytes → option bool)
    (unmarshalDict : Bytes → option (gmap string Z))
    (marshal : LevelData Structure.Section_ → option Bytes)
    (args : list string) (fileName : string) (content : Bytes) :
  structureMain readFile writeFile arch validateInputFile unmarshalInput validateDict
    unmarshalDict marshal args = Wrote fileName content →
  ∃ program input dictionary base jsonContent dictContent inputMap blockDict sections,
    args = [program; input; dictionary] ∧
    input = (base +:+ ".json")%string ∧
    hasSuffix dictionary ".json" = true ∧
    fileName = (base +:+ ".level.json")%string ∧
    fileName ≠ input ∧
    readFile input = Some jsonContent ∧
    validateInputFile jsonContent = Some true ∧
    unmarshalInput jsonContent = Some inputMap ∧
    readFile dictionary = Some dictContent ∧
    validateDict dictContent = Some true ∧
    unmarshalDict dictContent = Some blockDict ∧
    Structure.validateInput arch inputMap = Some true ∧
    Structure.convertToSections inputMap blockDict
      Structure.DefaultBlockId Structure.OutOfRangeBlockId = Some sections ∧
    marshal (levelData sections) = Some content ∧
    writeFile fileName content = true.
Proof.
  unfold structureMain. intros Hmain.
  destruct (decide (length args < 3)%nat); [by destruct (args !! 0%nat)|].
  destruct (decide (3 < length args)%nat); [by destruct (args !! 0%nat)|].
  destruct args as [|program [|input [|dictionary [|]]]]; simpl in *; try lia.
  destruct (hasSuffix input ".json") eqn:Hsuffix; simpl in Hmain; [|done].
  destruct (hasSuffix dictionary ".json") eqn:Hsuffix'; simpl in Hmain; [|done].
  destruct (readFile input) as [jsonContent|] eqn:Hread; [|done].
  destruct (validateInputFile jsonContent) as [[|]|] eqn:Hvalidate; try done.
  destruct (unmarshalInput jsonContent) as [inputMap|] eqn:Hparse; [|done].
  destruct (readFile dictionary) as [dictContent|] eqn:Hread'; [|done].
  destruct (validateDict dictContent) as [[|]|] eqn:Hvalidate'; try done.
  destruct (unmarshalDict dictContent) as [blockDict|] eqn:Hparse'; [|done].
  destruct (Structure.pipeline arch inputMap blockDict) as [| |sections] eqn:Hpipe; try done.
  destruct (marshal (levelData sections)) as [levelDataJson|] eqn:Hmarshal; [|done].
  destruct (writeFile _ levelDataJson) eqn:Hwrite; [|done].
  injection Hmain as <- <-.
  exists program, input, dictionary, (trimSuffix input ".json"), jsonContent, dictContent,
    inputMap, blockDict, sections.
  split; [done|]. split; [by apply hasSuffix_trimSuffix|]. do 2 (split; [done|]).
  split; [by apply outputName_differs|]. do 6 (split; [done|]).
  unfold Structure.pipeline in Hpipe.
  destruct (Structure.validateInput arch inputMap) as [[|]|]; try done.
  destruct (Structure.convertToSections inputMap blockDict _ _) eqn:Hconv; [|done].
  injection Hpipe as <-. done.
Qed.

(** X14.  The dense program ends in a run-time panic in exactly two
    situations: the argument vector is empty (the usage line reads
    [os.Args[0]]), or the input file passes the schema check and decodes
    to an array that [validateArray] accepts although it, or its first
    row, is empty. *)
Theorem denseMain_crashes_iff
    (validate : Bytes → option bool) (unmarshal : Bytes → option Volume)
    (marshal : LevelData Dense.Section_ → option Bytes) (args : list string) :
  denseMain readFile writeFile validate unmarshal marshal args = Crashed ↔
  args = [] ∨
  ∃ program input jsonContent inputArray,
    args = [program; input] ∧
    hasSuffix input ".json" = true ∧
    readFile input = Some jsonContent ∧
    validate jsonContent = Some true ∧
    unmarshal jsonContent = Some inputArray ∧
    Dense.validateArray inputArray = true ∧
    (inputArray = [] ∨ inputArray !! 0%nat = Some []).
Proof.
  unfold denseMain. split.
  - intros Hmain. destruct args as [|program [|input [|extra rest]]]; [by left|done| |done].
    right. simpl in Hmain.
    destruct (hasSuffix input ".json") eqn:Hsuffix; simpl in Hmain; [|done].
    destruct (readFile input) as [jsonContent|] eqn:Hread; [|done].
    destruct (validate jsonContent) as [[|]|] eqn:Hvalidate; try done.
    destruct (unmarshal jsonContent) as [inputArray|] eqn:Hparse; [|done].
    destruct (Dense.pipeline inputArray) as [| |sections] eqn:Hpipe; try done.
    + apply DenseMore.pipeline_Panicked_iff in Hpipe as [Hvalid Hempty].
      by exists program, input, jsonContent, inputArray.
    + destruct (marshal (levelData sections)); [|done]. by destruct (writeFile _ _).
  - intros [->|(program & input & jsonContent & inputArray & -> & Hsuffix & Hread &
                Hvalidate & Hparse & Hvalid & Hempty)]; [done|].
    simpl. rewrite Hsuffix. simpl. rewrite Hread, Hvalidate, Hparse.
    by rewrite (proj2 (DenseMore.pipeline_Panicked_iff inputArray) (conj Hvalid Hempty)).
Qed.

(** X16.  On both architectures the structure program does not end in a
    run-time panic when its argument vector is not empty and the input
    file, once it has passed the schema check, decodes to an input that
    satisfies the schema, has fewer than 2^31 indices, and whose indices
    all lie between 0 and the largest [int], 2^63 - 1.  (An index of 2^63
    or more is outside this statement: on amd64 [validateInput] ignores
    it and the palette lookup then panics.) *)
Theorem structureMain_does_not_crash
    (validateInputFile : Bytes → option bool)
    (unmarshalInput : Bytes → option Structure.Input)
    (validateDict : Bytes → option bool)
    (unmarshalDict : Bytes → option (gmap string Z))
    (marshal : LevelData Structure.Section_ → option Bytes)
    (args : list string) :
  args ≠ [] →
  (∀ input jsonContent inputMap,
     args !! 1%nat = Some input → readFile input = Some jsonContent →
     validateInputFile jsonContent = Some true →
     unmarshalInput jsonContent = Some inputMap →
     Structure.schemaValid inputMap ∧
     ∀ B, Structure.block_indices inputMap !! 0%nat = Some B →
          len B < 2 ^ 31 ∧ ∀ idx, idx ∈ B → 0 ≤ idx ≤ Int64.max_int) →
  structureMain readFile writeFile arch validateInputFile unmarshalInput validateDict
    unmarshalDict marshal args ≠ Crashed.
Proof.
  unfold structureMain. intros Hargs Hdecoded.
  destruct args as [|program [|input [|dictionary [|extra rest]]]]; try done.
  simpl. destruct (hasSuffix input ".json"); simpl; [|done].
  destruct (hasSuffix dictionary ".json"); simpl; [|done].
  destruct (readFile input) as [jsonContent|] eqn:Hread; [|done].
  destruct (validateInputFile jsonContent) as [[|]|] eqn:Hvalidate; try done.
  destruct (unmarshalInput jsonContent) as [inputMap|] eqn:Hparse; [|done].
  destruct (readFile dictionary) as [dictContent|]; [|done].
  destruct (validateDict dictContent) as [[|]|]; try done.
  destruct (unmarshalDict dictContent) as [blockDict|]; [|done].
  destruct (Hdecoded input jsonContent inputMap eq_refl Hread Hvalidate Hparse)
    as [Hschema Hindices].
  destruct (StructureMore.schemaValid_parts inputMap Hschema)
    as (s0 & s1 & s2 & B & Hsize & _ & _ & _ & HB).
  destruct (Hindices B HB) as [Hsmall Hint].
  pose proof (StructureFacts.validateInput_spec arch inputMap s0 s1 s2 B Hsize HB) as Hspec.
  destruct (bool_decide _) eqn:Hdec in Hspec.
  - destruct (StructureMore.validated_converts arch inputMap blockDict s0 s1 s2 B)
      as (sections & -> & _); try done.
    destruct (marshal (levelData sections)); [|done]. by destruct (writeFile _ _).
  - unfold Structure.pipeline. by rewrite Hspec.
Qed.
End programs.

Lemma denseMain_wrote_witness :
  ∃ base, "a.level.json"%string = (base +:+ ".level.json")%string.
Proof.
  destruct (denseMain_wrote (λ _, Some "[[[1,2,3]],[[4,5,6]]]"%string) (λ _ _, true)
              (λ _, Some true) (λ _, Some DenseSpec.smallVolume) (λ _, Some "{}"%string)
              ["converter"; "a.json"]%string "a.level.json"%string "{}"%string)
    as (program & input & base & _ & _ & _ & _ & _ & Hname & _).
  - by vm_compute.
  - exists base. exact Hname.
Defined.

Lemma structureMain_wrote_witness :
  ∃ base, "a.level.json"%string = (base +:+ ".level.json")%string.
Proof.
  destruct (structureMain_wrote (λ _, Some ""%string) (λ _ _, true) Int64.amd64
              (λ _, Some true) (λ _, Some StructureSpec.exampleInput)
              (λ _, Some true) (λ _, Some StructureSpec.exampleDict) (λ _, Some "{}"%string)
              ["converter"; "a.json"; "dict.json"]%string "a.level.json"%string "{}"%string)
    as (program & input & dictionary & base & _ & _ & _ & _ & _ & _ & _ & _ & Hname & _).
  - by vm_compute.
  - exists base. exact Hname.
Defined.

Lemma denseMain_crashes_iff_witness :
  denseMain (λ _, Some "[]"%string) (λ _ _, true) (λ _, Some true) (λ _, Some [])
    (λ _, Some "{}"%string) ["converter"; "a.json"]%string = Crashed.
Proof.
  apply denseMain_crashes_iff. right.
  exists "converter"%string, "a.json"%string, "[]"%string, [].
  repeat split; (reflexivity || by left).
Defined.

Lemma structureMain_does_not_crash_witness :
  structureMain (λ _, Some ""%string) (λ _ _, true) Int64.arm64
    (λ _, Some true) (λ _, Some StructureSpec.exampleInput)
    (λ _, Some true) (λ _, Some StructureSpec.exampleDict) (λ _, Some "{}"%string)
    ["converter"; "a.json"; "dict.json"]%string ≠ Crashed.
Proof.
  apply structureMain_does_not_crash; [done|].
  intros input jsonContent inputMap _ _ _ [= <-]. split.
  - apply (bool_decide_unpack _). by vm_compute.
  - intros B [= <-]. split; [by vm_compute|].
    intros idx Hin%list_elem_of_In. simpl in Hin. unfold Int64.max_int. lia.
Defined.

End CliFacts.

(** ** The export command of the plugin *)

Module ExporterFacts.
Import Exporter.

Lemma forEachJs_seqZ_inv {St : Type} (I : Z → St → Prop) (body : Z → St → Js St)
    (n : Z) (s : St) :
  0 ≤ n → I 0 s →
  (∀ i t, 0 ≤ i < n → I i t → ∃ t', body i t = Done t' ∧ I (i + 1) t') →
  ∃ t, forEachJs body (seqZ 0 n) s = Done t ∧ I n t.
Proof.
  intros Hn H0 Hstep.
  assert (Hgen : ∀ k a t, 0 ≤ a → a + Z.of_nat k = n → I a t →
            ∃ t', forEachJs body (seqZ a (Z.of_nat k)) t = Done t' ∧ I n t').
  { induction k as [|k IH]; intros a t Ha Hk Ht.
    - exists t. split; [done|]. by replace n with a by lia.
    - rewrite seqZ_cons by lia. simpl.
      destruct (Hstep a t) as (t' & -> & Ht'); [lia | done |].
      replace (Z.pred (Z.of_nat (S k))) with (Z.of_nat k) by lia.
      replace (Z.succ a) with (a + 1) by lia. apply IH; (done || lia). }
  destruct (Hgen (Z.to_nat n) 0 s) as (t & Ht & HI); [lia | lia | done |].
  exists t. by rewrite Z2Nat.id in Ht.
Qed.

Lemma lookup_fmap_seqZ {A : Type} (f : Z → A) (n i : Z) :
  0 ≤ i < n → (f <$> seqZ 0 n) !! Z.to_nat i = Some (f i).
Proof.
  intros Hi. rewrite list_lookup_fmap, lookup_seqZ_lt by lia. simpl. f_equal. f_equal. lia.
Qed.

Lemma fmap_seqZ_ext {A : Type} (f g : Z → A) (n : Z) :
  (∀ i, 0 ≤ i < n → f i = g i) → f <$> seqZ 0 n = g <$> seqZ 0 n.
Proof.
  intros H. apply list_fmap_ext. intros k i Hi%lookup_seqZ. apply H. lia.
Qed.

Lemma insert_fmap_seqZ {A : Type} (f g : Z → A) (n i : Z) (v : A) :
  0 ≤ i < n → v = g i → (∀ j, 0 ≤ j < n → j ≠ i → f j = g j) →
  <[Z.to_nat i := v]> (f <$> seqZ 0 n) = g <$> seqZ 0 n.
Proof.
  intros Hi -> Hother. apply list_eq. intros k.
  destruct (decide (k = Z.to_nat i)) as [->|Hne].
  - rewrite list_lookup_insert_eq by (rewrite length_fmap, length_seqZ; lia).
    by rewrite lookup_fmap_seqZ.
  - rewrite list_lookup_insert_ne by done. rewrite !list_lookup_fmap.
    destruct (seqZ 0 n !! k) as [j|] eqn:Hj; [|done]. simpl. f_equal.
    apply lookup_seqZ in Hj as [-> ?]. apply Hother; lia.
Qed.

Lemma replicate_fmap_seqZ {A : Type} (c : A) (n : Z) :
  replicate (Z.to_nat n) c = (λ _, c) <$> seqZ 0 n.
Proof.
  apply list_eq. intros k. rewrite list_lookup_fmap.
  destruct (decide (k < Z.to_nat n)%nat).
  - rewrite lookup_replicate_2 by done. by rewrite lookup_seqZ_lt by lia.
  - rewrite (proj1 (lookup_replicate_None _ _ _)) by lia. by rewrite lookup_seqZ_ge by lia.
Qed.

Section anchored.
Variables (getBlock : Z → Z → Z → Z → option Z) (getId : Z → Z → Z → Z).
Variables (startPos endPos : IntPos).
Hypothesis HsX : posX startPos = 0.
Hypothesis HsY : posY startPos = 0.
Hypothesis HsZ : posZ startPos = 0.
Hypothesis HeX : 0 ≤ posX endPos.
Hypothesis HeY : 0 ≤ posY endPos.
Hypothesis HeZ : 0 ≤ posZ endPos.
Hypothesis Hblocks : ∀ x y z,
  0 ≤ x < posX endPos → 0 ≤ y < posY endPos → 0 ≤ z < posZ endPos →
  getBlock x y z (dimid startPos) = Some (getId x y z).

Lemma filledTo_ext (x0 y0 z0 x1 y1 z1 : Z) :
  (∀ x y z, 0 ≤ x < posX endPos → 0 ≤ y < posY endPos → 0 ≤ z < posZ endPos →
     (x < x0 ∨ (x = x0 ∧ (y < y0 ∨ (y = y0 ∧ z < z0)))) ↔
     (x < x1 ∨ (x = x1 ∧ (y < y1 ∨ (y = y1 ∧ z < z1))))) →
  filledTo getId endPos x0 y0 z0 = filledTo getId endPos x1 y1 z1.
Proof.
  intros H. unfold filledTo.
  apply fmap_seqZ_ext. intros x Hx. apply fmap_seqZ_ext. intros y Hy.
  apply fmap_seqZ_ext. intros z Hz. specialize (H x y z Hx Hy Hz).
  repeat case_decide; (done || tauto).
Qed.

Lemma filledTo_step (x y z : Z) :
  0 ≤ x < posX endPos → 0 ≤ y < posY endPos → 0 ≤ z < posZ endPos →
  setBlock (filledTo getId endPos x y z) x y z (getId x y z) = Done (filledTo getId endPos x y (z + 1)).
Proof.
  intros Hx Hy Hz. unfold setBlock, jsGet, filledTo.
  rewrite decide_False by lia. rewrite lookup_fmap_seqZ by done.
  rewrite decide_False by lia. rewrite lookup_fmap_seqZ by done.
  f_equal. apply insert_fmap_seqZ; [done | | ].
  - apply insert_fmap_seqZ; [done | |].
    + unfold jsSet, len. rewrite decide_False by lia.
      rewrite decide_True by (rewrite length_fmap, length_seqZ; lia).
      apply insert_fmap_seqZ; [done | |].
      * by rewrite decide_True by lia.
      * intros z' Hz' Hne. repeat case_decide; (done || lia).
    + intros y' Hy' Hne. apply fmap_seqZ_ext. intros z' Hz'.
      repeat case_decide; (done || lia).
  - intros x' Hx' Hne. apply fmap_seqZ_ext. intros y' Hy'.
    apply fmap_seqZ_ext. intros z' Hz'. repeat case_decide; (done || lia).
Qed.

Lemma fillBlocks_anchored :
  fillBlocks getBlock startPos endPos (filledTo getId endPos 0 0 0) = Done (filledTo getId endPos (posX endPos) 0 0).
Proof.
  unfold fillBlocks. rewrite HsX, HsY, HsZ, !Z.sub_0_r.
  destruct (forEachJs_seqZ_inv (λ x st, st = filledTo getId endPos x 0 0)
    (λ x blocks,
      forEachJs (λ y blocks,
          forEachJs (λ z blocks,
              match getBlock x y z (dimid startPos) with
              | None => Stopped (BlockNull x y z)
              | Some id => setBlock blocks x y z id
              end)
            (seqZ 0 (posZ endPos)) blocks)
        (seqZ 0 (posY endPos)) blocks)
    (posX endPos) (filledTo getId endPos 0 0 0)) as (st & -> & ->); [done | done | | done].
  intros x st Hx ->.
  destruct (forEachJs_seqZ_inv (λ y st, st = filledTo getId endPos x y 0)
    (λ y blocks,
        forEachJs (λ z blocks,
            match getBlock x y z (dimid startPos) with
            | None => Stopped (BlockNull x y z)
            | Some id => setBlock blocks x y z id
            end)
          (seqZ 0 (posZ endPos)) blocks)
    (posY endPos) (filledTo getId endPos x 0 0)) as (st & -> & ->); [done | done | |].
  - intros y st Hy ->.
    destruct (forEachJs_seqZ_inv (λ z st, st = filledTo getId endPos x y z)
      (λ z blocks,
          match getBlock x y z (dimid startPos) with
          | None => Stopped (BlockNull x y z)
          | Some id => setBlock blocks x y z id
          end)
      (posZ endPos) (filledTo getId endPos x y 0)) as (st & -> & ->); [done | done | |].
    + intros z st Hz ->. rewrite Hblocks by done. eexists. split; [by apply filledTo_step|done].
    + eexists. split; [done|]. apply filledTo_ext. intros; lia.
  - eexists. split; [done|]. apply filledTo_ext. intros; lia.
Qed.
End anchored.

(** X17.  For a region that starts at the origin (0, 0, 0) of a dimension
    and whose blocks all exist, the export command writes exactly the
    nested array of the block ids: entry [x][y][z] is the id of the block
    at (x, y, z), for all positions below the end position. *)
Theorem exportRegion_anchored (getBlock : Z → Z → Z → Z → option Z)
    (getId : Z → Z → Z → Z) (writeTo : JsVolume → bool) (startPos endPos : IntPos) :
  posX startPos = 0 → posY startPos = 0 → posZ startPos = 0 →
  dim startPos = dim endPos →
  0 ≤ posX endPos → 0 ≤ posY endPos → 0 ≤ posZ endPos →
  (∀ x y z, 0 ≤ x < posX endPos → 0 ≤ y < posY endPos → 0 ≤ z < posZ endPos →
     getBlock x y z (dimid startPos) = Some (getId x y z)) →
  writeTo (regionIds getId endPos) = true →
  exportRegion getBlock writeTo (Some startPos) (Some endPos)
    = Done (regionIds getId endPos).
Proof.
  intros HsX HsY HsZ Hdim HeX HeY HeZ Hblocks Hwrite.
  unfold exportRegion. rewrite decide_False by (by intros ?).
  rewrite decide_False by lia. rewrite HsX, HsY, HsZ, !Z.sub_0_r.
  assert (Hinit : replicate (Z.to_nat (posX endPos))
            (replicate (Z.to_nat (posY endPos))
               (replicate (Z.to_nat (posZ endPos)) (Some 0)))
          = filledTo getId endPos 0 0 0).
  { rewrite !replicate_fmap_seqZ. unfold filledTo.
    apply fmap_seqZ_ext. intros x Hx. apply fmap_seqZ_ext. intros y Hy.
    apply fmap_seqZ_ext. intros z Hz. by rewrite decide_False by lia. }
  rewrite Hinit, (fillBlocks_anchored getBlock getId startPos endPos) by done.
  assert (Hfinal : filledTo getId endPos (posX endPos) 0 0 = regionIds getId endPos).
  { unfold filledTo, regionIds.
    apply fmap_seqZ_ext. intros x Hx. apply fmap_seqZ_ext. intros y Hy.
    apply fmap_seqZ_ext. intros z Hz. by rewrite decide_True by lia. }
  rewrite Hfinal, Hwrite. done.
Qed.

Lemma exportRegion_anchored_witness :
  exportRegion (λ x y z _, Some (100 * x + 10 * y + z)) (λ _, true)
    (Some (mkPos 0 0 0 "overworld" 0)) (Some (mkPos 2 1 2 "overworld" 0))
  = Done [[[Some 0; Some 1]]; [[Some 100; Some 101]]].
Proof.
  apply (exportRegion_anchored (λ x y z _, Some (100 * x + 10 * y + z))
           (λ x y z, 100 * x + 10 * y + z) (λ _, true)
           (mkPos 0 0 0 "overworld" 0) (mkPos 2 1 2 "overworld" 0));
    simpl; (reflexivity || lia || (intros; reflexivity)).
Defined.

Section unanchored.
Variables (getBlock : Z → Z → Z → Z → option Z) (startPos endPos : IntPos).
Hypothesis HX : posX startPos < posX endPos.
Hypothesis HY : posY startPos < posY endPos.
Hypothesis HZ : posZ startPos < posZ endPos.
Hypothesis Hblocks : ∀ x y z,
  posX startPos ≤ x < posX endPos → posY startPos ≤ y < posY endPos →
  posZ startPos ≤ z < posZ endPos →
  is_Some (getBlock x y z (dimid startPos)).

Local Abbreviation nx := (Z.to_nat (posX endPos - posX startPos)).
Local Abbreviation ny := (Z.to_nat (posY endPos - posY startPos)).

Lemma forEachJs_shapeOrThrew {A : Type} (body : A → JsVolume → Js JsVolume) (l : list A) :
  (∀ a st, a ∈ l → rowsShape nx ny st → shapeOrThrew nx ny (body a st)) →
  ∀ st, rowsShape nx ny st → shapeOrThrew nx ny (forEachJs body l st).
Proof.
  induction l as [|a l IH]; intros Hbody st Hst; simpl.
  - right. by exists st.
  - destruct (Hbody a st) as [->|(st' & -> & Hst')]; [by left | done | by left |].
    apply IH; [|done]. intros a' st'' Ha'. apply Hbody. by right.
Qed.

Lemma forEachJs_Threw {A : Type} (body : A → JsVolume → Js JsVolume) (l : list A) (a : A) :
  (∀ a' st, a' ∈ l → rowsShape nx ny st → shapeOrThrew nx ny (body a' st)) →
  a ∈ l → (∀ st, rowsShape nx ny st → body a st = Threw) →
  ∀ st, rowsShape nx ny st → forEachJs body l st = Threw.
Proof.
  induction l as [|a' l IH]; intros Hbody Hin Hthrow st Hst; [by apply elem_of_nil in Hin|].
  simpl. apply elem_of_cons in Hin as [<-|Hin].
  - by rewrite Hthrow.
  - destruct (Hbody a' st) as [->|(st' & -> & Hst')]; [by left | done | done |].
    apply IH; try done. intros a'' st'' Ha''. apply Hbody. by right.
Qed.

Lemma setBlock_shape (st : JsVolume) (x y z id : Z) :
  rowsShape nx ny st →
  (0 ≤ x < Z.of_nat nx ∧ 0 ≤ y < Z.of_nat ny → shapeOrThrew nx ny (setBlock st x y z id)) ∧
  (¬ (0 ≤ x < Z.of_nat nx ∧ 0 ≤ y < Z.of_nat ny) → setBlock st x y z id = Threw).
Proof.
  intros [Hlen Hrows]. unfold setBlock, jsGet. split.
  - intros [Hx Hy]. rewrite decide_False by lia.
    destruct (lookup_lt_is_Some_2 st (Z.to_nat x)) as [row Hrow]; [lia|].
    rewrite Hrow. pose proof (Forall_lookup_1 _ _ _ _ Hrows Hrow) as Hrlen. simpl in Hrlen.
    rewrite decide_False by lia.
    destruct (lookup_lt_is_Some_2 row (Z.to_nat y)) as [leaf Hleaf]; [lia|].
    rewrite Hleaf. right. eexists. split; [done|]. split; [by rewrite length_insert|].
    apply Forall_insert; [done|]. by rewrite length_insert.
  - intros Hout. case_decide as Hxneg; [done|].
    destruct (st !! Z.to_nat x) as [row|] eqn:Hrow; [|done].
    pose proof (Forall_lookup_1 _ _ _ _ Hrows Hrow) as Hrlen. simpl in Hrlen.
    apply lookup_lt_Some in Hrow.
    case_decide as Hyneg; [done|].
    rewrite (lookup_ge_None_2 row) by lia. done.
Qed.

Lemma fillBlocks_Threw (st : JsVolume) :
  posX startPos ≠ 0 ∨ posY startPos ≠ 0 →
  rowsShape nx ny st → fillBlocks getBlock startPos endPos st = Threw.
Proof.
  intros Hoff Hst. unfold fillBlocks.
  set (stepZ := λ (x y z : Z) (blocks : JsVolume),
         match getBlock x y z (dimid startPos) with
         | None => Stopped (BlockNull x y z)
         | Some id => setBlock blocks x y z id
         end).
  set (loopZ := λ (x y : Z) (blocks : JsVolume),
         forEachJs (stepZ x y) (seqZ (posZ startPos) (posZ endPos - posZ startPos)) blocks).
  set (loopY := λ (x : Z) (blocks : JsVolume),
         forEachJs (loopZ x) (seqZ (posY startPos) (posY endPos - posY startPos)) blocks).
  change (forEachJs loopY (seqZ (posX startPos) (posX endPos - posX startPos)) st = Threw).
  assert (HstepZ : ∀ x y z st', posX startPos ≤ x < posX endPos →
            posY startPos ≤ y < posY endPos → posZ startPos ≤ z < posZ endPos →
            rowsShape nx ny st' →
            shapeOrThrew nx ny (stepZ x y z st') ∧
            (¬ (0 ≤ x < Z.of_nat nx ∧ 0 ≤ y < Z.of_nat ny) → stepZ x y z st' = Threw)).
  { intros x y z st' Hx Hy Hz Hst'. unfold stepZ.
    destruct (Hblocks x y z Hx Hy Hz) as [id ->].
    destruct (setBlock_shape st' x y z id Hst') as [Hin Hout]. split; [|done].
    destruct (decide (0 ≤ x < Z.of_nat nx ∧ 0 ≤ y < Z.of_nat ny)); [by apply Hin|].
    left. by apply Hout. }
  assert (HloopZ : ∀ x y st', posX startPos ≤ x < posX endPos →
            posY startPos ≤ y < posY endPos → rowsShape nx ny st' →
            shapeOrThrew nx ny (loopZ x y st') ∧
            (¬ (0 ≤ x < Z.of_nat nx ∧ 0 ≤ y < Z.of_nat ny) → loopZ x y st' = Threw)).
  { intros x y st' Hx Hy Hst'. split.
    - apply forEachJs_shapeOrThrew; [|done].
      intros z st'' Hz%elem_of_seqZ Hst''. apply HstepZ; (done || lia).
    - intros Hout. apply (forEachJs_Threw _ _ (posZ startPos)); try done.
      + intros z st'' Hz%elem_of_seqZ Hst''. apply HstepZ; (done || lia).
      + apply elem_of_seqZ. lia.
      + intros st'' Hst''. apply HstepZ; (done || lia). }
  assert (HloopY : ∀ x st', posX startPos ≤ x < posX endPos → rowsShape nx ny st' →
            shapeOrThrew nx ny (loopY x st') ∧
            (¬ (0 ≤ x < Z.of_nat nx) ∨ posY startPos ≠ 0 → loopY x st' = Threw)).
  { intros x st' Hx Hst'. split.
    - apply forEachJs_shapeOrThrew; [|done].
      intros y st'' Hy%elem_of_seqZ Hst''. apply HloopZ; (done || lia).
    - intros Hout.
      set (y := if decide (posY startPos ≠ 0 ∧ 0 < posY startPos)
                then posY endPos - 1 else posY startPos).
      assert (Hy : posY startPos ≤ y < posY endPos) by (subst y; case_decide; lia).
      apply (forEachJs_Threw _ _ y); try done.
      + intros y' st'' Hy'%elem_of_seqZ Hst''. apply HloopZ; (done || lia).
      + apply elem_of_seqZ. lia.
      + intros st'' Hst''. apply HloopZ; try done. subst y. case_decide; lia. }
  set (x := if decide (posX startPos ≠ 0 ∧ 0 < posX startPos)
            then posX endPos - 1 else posX startPos).
  assert (Hx : posX startPos ≤ x < posX endPos) by (subst x; case_decide; lia).
  apply (forEachJs_Threw _ _ x); try done.
  - intros x' st' Hx'%elem_of_seqZ Hst'. apply HloopY; (done || lia).
  - apply elem_of_seqZ. lia.
  - intros st' Hst'. apply HloopY; try done.
    destruct (decide (posY startPos = 0)) as [HY0|HY0]; [left|by right].
    subst x. case_decide; lia.
Qed.
End unanchored.

(** X18.  For a region with at least one block whose start position has
    a non-zero x or y coordinate, the export command throws a TypeError
    when all the blocks exist: the array has [end - start] entries per
    axis but is indexed with the absolute coordinates. *)
Theorem exportRegion_unanchored_throws (getBlock : Z → Z → Z → Z → option Z)
    (writeTo : JsVolume → bool) (startPos endPos : IntPos) :
  dim startPos = dim endPos →
  posX startPos < posX endPos → posY startPos < posY endPos →
  posZ startPos < posZ endPos →
  (∀ x y z, posX startPos ≤ x < posX endPos → posY startPos ≤ y < posY endPos →
     posZ startPos ≤ z < posZ endPos → is_Some (getBlock x y z (dimid startPos))) →
  posX startPos ≠ 0 ∨ posY startPos ≠ 0 →
  exportRegion getBlock writeTo (Some startPos) (Some endPos) = Threw.
Proof.
  intros Hdim HX HY HZ Hblocks Hoff. unfold exportRegion.
  rewrite decide_False by (by intros ?). rewrite decide_False by lia.
  rewrite (fillBlocks_Threw getBlock startPos endPos HX HY HZ Hblocks); [done | done |].
  split; [by rewrite length_replicate|]. apply Forall_replicate. by rewrite length_replicate.
Qed.

Lemma exportRegion_unanchored_throws_witness :
  exportRegion (λ _ _ _ _, Some 1) (λ _, true)
    (Some (mkPos (-3) 64 0 "overworld" 0)) (Some (mkPos 5 70 8 "overworld" 0)) = Threw.
Proof.
  apply exportRegion_unanchored_throws; simpl; try (reflexivity || lia).
  intros; by eexists.
Defined.



Section zOffset.
Variables (getBlock : Z → Z → Z → Z → option Z) (getId : Z → Z → Z → Z).
Variables (startPos endPos : IntPos).
Hypothesis HsX : posX startPos = 0.
Hypothesis HsY : posY startPos = 0.
Hypothesis HeX : 0 ≤ posX endPos.
Hypothesis HeY : 0 ≤ posY endPos.
Hypothesis HZ : posZ startPos < posZ endPos.
Hypothesis Hblocks : ∀ x y z,
  0 ≤ x < posX endPos → 0 ≤ y < posY endPos → posZ startPos ≤ z < posZ endPos →
  getBlock x y z (dimid startPos) = Some (getId x y z).




End zOffset.




Lemma forEachJs_Done_elem {A St : Type} (body : A → St → Js St) (l : list A) (s t : St) (a : A) :
  forEachJs body l s = Done t → a ∈ l → ∃ s1 s2, body a s1 = Done s2.
Proof.
  revert s. induction l as [|b l IH]; intros s Hrun Hin; [by apply elem_of_nil in Hin|].
  simpl in Hrun. destruct (body b s) as [s'| |] eqn:Hb; [|done|done].
  apply elem_of_cons in Hin as [->|Hin]; [by exists s, s'|]. by apply (IH s').
Qed.

Lemma forEachJs_Stopped_split {A St : Type} (body : A → St → Js St) (l : list A) (s : St)
    (e : ExportError) :
  forEachJs body l s = Stopped e →
  ∃ l1 a l2 s1, l = l1 ++ a :: l2 ∧ forEachJs body l1 s = Done s1 ∧ body a s1 = Stopped e.
Proof.
  revert s. induction l as [|b l IH]; intros s Hrun; [done|].
  simpl in Hrun. destruct (body b s) as [s'| |] eqn:Hb; [| |done].
  - destruct (IH s' Hrun) as (l1 & a & l2 & s1 & -> & Hl1 & Ha).
    exists (b :: l1), a, l2, s1. split; [done|]. split; [|done]. simpl. by rewrite Hb.
  - injection Hrun as ->. by exists [], b, l, s.
Qed.

Lemma seqZ_split (m n a : Z) (l1 l2 : list Z) :
  seqZ m n = l1 ++ a :: l2 →
  m ≤ a < m + n ∧ ∀ b, b ∈ l1 ↔ m ≤ b < a.
Proof.
  intros Heq.
  assert (Ha : a = m + Z.of_nat (length l1) ∧ Z.of_nat (length l1) < n).
  { apply lookup_seqZ. rewrite Heq. by rewrite list_lookup_middle. }
  destruct Ha as [-> Hlen]. split; [lia|]. intros b. split.
  - intros (i & Hi)%list_elem_of_lookup. pose proof (lookup_lt_Some _ _ _ Hi) as Hlt.
    assert (Hb : seqZ m n !! i = Some b) by (rewrite Heq; by apply lookup_app_l_Some).
    apply lookup_seqZ in Hb as [-> _]. lia.
  - intros Hb. apply list_elem_of_lookup. exists (Z.to_nat (b - m)).
    assert (Hs : seqZ m n !! Z.to_nat (b - m) = Some b) by (apply lookup_seqZ; lia).
    rewrite Heq, lookup_app_l in Hs by lia. done.
Qed.

Section outcomes.
Variables (getBlock : Z → Z → Z → Z → option Z) (startPos endPos : IntPos).

Lemma fillBlocks_Done_blocks (st st' : JsVolume) (x y z : Z) :
  fillBlocks getBlock startPos endPos st = Done st' →
  posX startPos ≤ x < posX endPos → posY startPos ≤ y < posY endPos →
  posZ startPos ≤ z < posZ endPos →
  is_Some (getBlock x y z (dimid startPos)).
Proof.
  unfold fillBlocks. intros Hrun Hx Hy Hz.
  destruct (forEachJs_Done_elem _ _ _ _ x Hrun) as (s1 & s2 & Hrunx);
    [apply elem_of_seqZ; lia|].
  destruct (forEachJs_Done_elem _ _ _ _ y Hrunx) as (s3 & s4 & Hruny);
    [apply elem_of_seqZ; lia|].
  destruct (forEachJs_Done_elem _ _ _ _ z Hruny) as (s5 & s6 & Hrunz);
    [apply elem_of_seqZ; lia|].
  simpl in Hrunz. by destruct (getBlock x y z (dimid startPos)).
Qed.

Lemma setBlock_not_Stopped (st : JsVolume) (x y z id : Z) (e : ExportError) :
  setBlock st x y z id ≠ Stopped e.
Proof. unfold setBlock. by repeat case_match. Qed.

Lemma fillBlocks_Stopped (st : JsVolume) (e : ExportError) :
  fillBlocks getBlock startPos endPos st = Stopped e →
  ∃ x y z, e = BlockNull x y z ∧
    posX startPos ≤ x < posX endPos ∧ posY startPos ≤ y < posY endPos ∧
    posZ startPos ≤ z < posZ endPos ∧
    getBlock x y z (dimid startPos) = None ∧
    ∀ x' y' z', posX startPos ≤ x' → posY startPos ≤ y' < posY endPos →
      posZ startPos ≤ z' < posZ endPos →
      x' < x ∨ (x' = x ∧ (y' < y ∨ (y' = y ∧ z' < z))) →
      is_Some (getBlock x' y' z' (dimid startPos)).
Proof.
  unfold fillBlocks. intros Hrun.
  destruct (forEachJs_Stopped_split _ _ _ _ Hrun) as (lx & x & lx' & sx & Hlx & Hdonex & Hrunx).
  destruct (forEachJs_Stopped_split _ _ _ _ Hrunx) as (ly & y & ly' & sy & Hly & Hdoney & Hruny).
  destruct (forEachJs_Stopped_split _ _ _ _ Hruny) as (lz & z & lz' & sz & Hlz & Hdonez & Hrunz).
  apply seqZ_split in Hlx as [Hx Hlx]. apply seqZ_split in Hly as [Hy Hly].
  apply seqZ_split in Hlz as [Hz Hlz].
  simpl in Hrunz. destruct (getBlock x y z (dimid startPos)) as [id|] eqn:Hget;
    [by apply setBlock_not_Stopped in Hrunz|].
  injection Hrunz as <-. exists x, y, z. split; [done|].
  split; [lia|]. split; [lia|]. split; [lia|]. split; [done|].
  intros x' y' z' Hx' Hy' Hz' [Hlt|[-> [Hlt|[-> Hlt]]]].
  - destruct (forEachJs_Done_elem _ _ _ _ x' Hdonex) as (s1 & s2 & Hrunx'); [apply Hlx; lia|].
    destruct (forEachJs_Done_elem _ _ _ _ y' Hrunx') as (s3 & s4 & Hruny');
      [apply elem_of_seqZ; lia|].
    destruct (forEachJs_Done_elem _ _ _ _ z' Hruny') as (s5 & s6 & Hrunz');
      [apply elem_of_seqZ; lia|].
    simpl in Hrunz'. by destruct (getBlock x' y' z' (dimid startPos)).
  - destruct (forEachJs_Done_elem _ _ _ _ y' Hdoney) as (s3 & s4 & Hruny'); [apply Hly; lia|].
    destruct (forEachJs_Done_elem _ _ _ _ z' Hruny') as (s5 & s6 & Hrunz');
      [apply elem_of_seqZ; lia|].
    simpl in Hrunz'. by destruct (getBlock x y' z' (dimid startPos)).
  - destruct (forEachJs_Done_elem _ _ _ _ z' Hdonez) as (s5 & s6 & Hrunz'); [apply Hlz; lia|].
    simpl in Hrunz'. by destruct (getBlock x y z' (dimid startPos)).
Qed.
End outcomes.

(** X20.  The export command succeeds only if both positions are given
    in one dimension with start not after end, every block of the region
    was found, the file was written, and, when the region has a block,
    the start has x = y = 0. *)
Theorem exportRegion_success (getBlock : Z → Z → Z → Z → option Z)
    (writeTo : JsVolume → bool) (start end_ : option IntPos) (blocks : JsVolume) :
  exportRegion getBlock writeTo start end_ = Done blocks →
  ∃ startPos endPos,
    start = Some startPos ∧ end_ = Some endPos ∧ dim startPos = dim endPos ∧
    posX startPos ≤ posX endPos ∧ posY startPos ≤ posY endPos ∧
    posZ startPos ≤ posZ endPos ∧
    (∀ x y z, posX startPos ≤ x < posX endPos → posY startPos ≤ y < posY endPos →
       posZ startPos ≤ z < posZ endPos → is_Some (getBlock x y z (dimid startPos))) ∧
    (posX startPos < posX endPos → posY startPos < posY endPos →
     posZ startPos < posZ endPos → posX startPos = 0 ∧ posY startPos = 0) ∧
    writeTo blocks = true.
Proof.
  unfold exportRegion. intros Hrun.
  destruct start as [startPos|]; [|done]. destruct end_ as [endPos|]; [|done].
  case_decide as Hdim; [done|]. case_decide as Hord; [done|].
  destruct (fillBlocks _ _ _ _) as [st| |] eqn:Hfill; [|done|done].
  destruct (writeTo st) eqn:Hwrite; [|done]. injection Hrun as <-.
  exists startPos, endPos. split; [done|]. split; [done|].
  split; [by destruct (decide (dim startPos = dim endPos))|].
  split; [lia|]. split; [lia|]. split; [lia|].
  assert (Hblocks : ∀ x y z, posX startPos ≤ x < posX endPos →
            posY startPos ≤ y < posY endPos → posZ startPos ≤ z < posZ endPos →
            is_Some (getBlock x y z (dimid startPos))).
  { intros x y z. by apply (fillBlocks_Done_blocks _ _ _ _ _ _ _ _ Hfill). }
  split; [done|]. split; [|done]. intros HX HY HZ.
  destruct (decide (posX startPos = 0 ∧ posY startPos = 0)) as [|Hoff]; [done|].
  rewrite (fillBlocks_Threw getBlock startPos endPos HX HY HZ Hblocks) in Hfill; [done|lia|].
  split; [by rewrite length_replicate|]. apply Forall_replicate. by rewrite length_replicate.
Qed.

Lemma exportRegion_success_witness :
  ∃ startPos endPos,
    Some (mkPos 0 0 0 "overworld" 0) = Some startPos ∧
    Some (mkPos 2 1 2 "overworld" 0) = Some endPos ∧ dim startPos = dim endPos ∧
    posX startPos ≤ posX endPos ∧ posY startPos ≤ posY endPos ∧
    posZ startPos ≤ posZ endPos ∧
    (∀ x y z, posX startPos ≤ x < posX endPos → posY startPos ≤ y < posY endPos →
       posZ startPos ≤ z < posZ endPos →
       is_Some ((λ x y z (_ : Z), Some (100 * x + 10 * y + z)) x y z (dimid startPos))) ∧
    (posX startPos < posX endPos → posY startPos < posY endPos →
     posZ startPos < posZ endPos → posX startPos = 0 ∧ posY startPos = 0) ∧
    (λ _ : JsVolume, true) [[[Some 0; Some 1]]; [[Some 100; Some 101]]] = true.
Proof.
  apply (exportRegion_success (λ x y z _, Some (100 * x + 10 * y + z)) (λ _, true)
           (Some (mkPos 0 0 0 "overworld" 0)) (Some (mkPos 2 1 2 "overworld" 0))
           [[[Some 0; Some 1]]; [[Some 100; Some 101]]]).
  reflexivity.
Defined.

(** X21.  When the export command reports that the block at (x, y, z) is
    null, that position lies in the region, [mc.getBlock] returned null
    for it, and every position of the region before it in the order of
    the loops (x, then y, then z) had a block. *)
Theorem exportRegion_block_null (getBlock : Z → Z → Z → Z → option Z)
    (writeTo : JsVolume → bool) (start end_ : option IntPos) (x y z : Z) :
  exportRegion getBlock writeTo start end_ = Stopped (BlockNull x y z) →
  ∃ startPos endPos,
    start = Some startPos ∧ end_ = Some endPos ∧
    posX startPos ≤ x < posX endPos ∧ posY startPos ≤ y < posY endPos ∧
    posZ startPos ≤ z < posZ endPos ∧
    getBlock x y z (dimid startPos) = None ∧
    ∀ x' y' z', posX startPos ≤ x' → posY startPos ≤ y' < posY endPos →
      posZ startPos ≤ z' < posZ endPos →
      x' < x ∨ (x' = x ∧ (y' < y ∨ (y' = y ∧ z' < z))) →
      is_Some (getBlock x' y' z' (dimid startPos)).
Proof.
  unfold exportRegion. intros Hrun.
  destruct start as [startPos|]; [|done]. destruct end_ as [endPos|]; [|done].
  case_decide as Hdim; [done|]. case_decide as Hord; [done|].
  destruct (fillBlocks _ _ _ _) as [st|e|] eqn:Hfill; [by destruct (writeTo st)| |done].
  injection Hrun as ->.
  destruct (fillBlocks_Stopped _ _ _ _ _ Hfill)
    as (x0 & y0 & z0 & [= -> -> ->] & Hx & Hy & Hz & Hget & Hbefore).
  by exists startPos, endPos.
Qed.

Lemma exportRegion_block_null_witness :
  ∃ startPos endPos,
    Some (mkPos 0 0 0 "overworld" 0) = Some startPos ∧
    Some (mkPos 2 1 2 "overworld" 0) = Some endPos ∧
    posX startPos ≤ 1 < posX endPos ∧ posY startPos ≤ 0 < posY endPos ∧
    posZ startPos ≤ 0 < posZ endPos ∧
    (λ x y z (_ : Z), if decide (x = 1) then None else Some 7) 1 0 0 (dimid startPos) = None ∧
    ∀ x' y' z', posX startPos ≤ x' → posY startPos ≤ y' < posY endPos →
      posZ startPos ≤ z' < posZ endPos →
      x' < 1 ∨ (x' = 1 ∧ (y' < 0 ∨ (y' = 0 ∧ z' < 0))) →
      is_Some ((λ x y z (_ : Z), if decide (x = 1) then None else Some 7)
                 x' y' z' (dimid startPos)).
Proof.
  exact (exportRegion_block_null (λ x y z _, if decide (x = 1) then None else Some 7)
           (λ _, true) (Some (mkPos 0 0 0 "overworld" 0)) (Some (mkPos 2 1 2 "overworld" 0))
           1 0 0 eq_refl).
Defined.

Lemma forEachJs_skip {A St : Type} (body : A → St → Js St) (l : list A) (s : St) :
  (∀ a, a ∈ l → body a s = Done s) → forEachJs body l s = Done s.
Proof.
  induction l as [|a l IH]; intros Hbody; [done|]. simpl.
  rewrite Hbody by left. apply IH. intros b Hb. apply Hbody. by right.
Qed.

(** X22.  A region with start equal to end in some coordinate passes the
    check of the positions; the command then writes the initial array
    without asking for any block, whatever the start position. *)
Theorem exportRegion_empty_region (getBlock : Z → Z → Z → Z → option Z)
    (writeTo : JsVolume → bool) (startPos endPos : IntPos) :
  dim startPos = dim endPos →
  posX startPos ≤ posX endPos → posY startPos ≤ posY endPos → posZ startPos ≤ posZ endPos →
  posX startPos = posX endPos ∨ posY startPos = posY endPos ∨ posZ startPos = posZ endPos →
  exportRegion getBlock writeTo (Some startPos) (Some endPos) =
  if writeTo (initialBlocks startPos endPos) then Done (initialBlocks startPos endPos)
  else Stopped WriteFailed.
Proof.
  intros Hdim HX HY HZ Hempty. unfold exportRegion.
  rewrite decide_False by (by intros ?). rewrite decide_False by lia.
  fold (initialBlocks startPos endPos).
  assert (Hfill : fillBlocks getBlock startPos endPos (initialBlocks startPos endPos)
                  = Done (initialBlocks startPos endPos)); [|by rewrite Hfill].
  unfold fillBlocks. apply forEachJs_skip. intros x Hx.
  apply forEachJs_skip. intros y Hy. 
  apply forEachJs_skip. intros z Hz.
  apply elem_of_seqZ in Hx, Hy, Hz. lia.
Qed.

Lemma exportRegion_empty_region_witness :
  exportRegion (λ _ _ _ _, None) (λ _, true)
    (Some (mkPos 3 64 (-2) "overworld" 0)) (Some (mkPos 5 64 7 "overworld" 0))
  = Done [[]; []].
Proof.
  apply (exportRegion_empty_region (λ _ _ _ _, None) (λ _, true)
           (mkPos 3 64 (-2) "overworld" 0) (mkPos 5 64 7 "overworld" 0));
    simpl; (reflexivity || lia).
Defined.

End ExporterFacts.

(** ** The worked examples of the specification *)

(** A 17x1x1 dense input pads to 32x16x16 and gives two sections; the
    second starts at x = 16, holds the value 17 at its origin and the
    padding from x = 17 on. *)
Example dense_17_1_1 :
  let V : Volume := (λ v, [[v]]) <$> seqZ 1 17 in
  Dense.validateArray V = true ∧
  ∃ P s0 s1,
    Dense.padArray V (-1) = Some P ∧ rectangular P 32 16 16 ∧
    Dense.convertToSections P = Some [s0; s1] ∧
    Dense.SecX s1 = 16 ∧ cell (Dense.Blocks s1) 0 0 0 = Some 17 ∧
    cell (Dense.Blocks s1) 1 0 0 = Some (-1) ∧ cell (Dense.Blocks s0) 15 0 0 = Some 16.
Proof.
  cbv zeta. split; [reflexivity|].
  destruct (Dense.padArray ((λ v, [[v]]) <$> seqZ 1 17) (-1)) as [P|] eqn:HP;
    [|by vm_compute in HP].
  destruct (Dense.convertToSections P) as [[|s0 [|s1 [|]]]|] eqn:Hs;
    vm_compute in HP; injection HP as <-; vm_compute in Hs; try discriminate.
  injection Hs as <- <-. eexists _, _, _. split; [reflexivity|].
  split; [apply (bool_decide_unpack _); by vm_compute|]. by vm_compute.
Qed.

(** Size 2x2x2 with indices 0,1,0,1,... resolves to 1,3,1,3,... and gives
    one section whose first eight cells are the resolved ids and whose
    other cells are -1. *)
Example structure_2_2_2 :
  (∀ arch, Structure.validateInput arch StructureSpec.exampleInput = Some true) ∧
  ∃ s, Structure.convertToSections StructureSpec.exampleInput StructureSpec.exampleDict
         Structure.DefaultBlockId Structure.OutOfRangeBlockId = Some [s] ∧
       Structure.Blocks s = [1; 3; 1; 3; 1; 3; 1; 3] ++ replicate 4088 (-1).
Proof. split; [by intros []|]. eexists. split; by vm_compute. Qed.

(** The index 2^63 is an integer for the schema and beyond Go's [int].
    On amd64 it is converted to -2^63, the loop of [validateInput] passes
    over it, the input is accepted and the palette lookup panics.  On
    arm64 it is converted to 2^63 - 1, the expected palette length wraps
    and the input is rejected. *)
Example structure_index_beyond_int :
  let inp := Structure.mkInput [1; 1; 1] [[2 ^ 63]] ["minecraft:stone"%string] in
  Structure.schemaValid inp ∧
  Structure.validateInput Int64.amd64 inp = Some true ∧
  (∀ blockDict, Structure.pipeline Int64.amd64 inp blockDict = Panicked) ∧
  Structure.validateInput Int64.arm64 inp = Some false ∧
  (∀ blockDict, Structure.pipeline Int64.arm64 inp blockDict = Rejected).
Proof.
  cbv zeta. split; [apply (bool_decide_unpack _); vm_compute; reflexivity|].
  split; [vm_compute; reflexivity|]. split; [|split; [vm_compute; reflexivity|]].
  - intros blockDict. unfold Structure.pipeline.
    replace (Structure.validateInput Int64.amd64 _) with (Some true)
      by (vm_compute; reflexivity).
    assert (Hres : Structure.resolveBlocks ["minecraft:stone"%string] blockDict
                     Structure.DefaultBlockId [2 ^ 63] = None).
    { unfold Structure.resolveBlocks. cbn [mapM]. unfold index.
      rewrite decide_False by lia.
      rewrite (lookup_ge_None_2 ["minecraft:stone"%string]) by (cbn [length]; lia).
      reflexivity. }
    unfold Structure.convertToSections. cbn [Structure.size Structure.block_indices
      Structure.block_palette lookup list_lookup mbind option_bind].
    rewrite Hres. reflexivity.
  - intros blockDict. unfold Structure.pipeline.
    replace (Structure.validateInput Int64.arm64 _) with (Some false)
      by (vm_compute; reflexivity).
    reflexivity.
Qed.
